(** * Lua/APR network I/O module (src/io_net.c): a shallow embedding

    The module is a thin binding between three layers:
    - the Lua 5.1 C API (stack of values, argument checks that raise),
    - the Apache Portable Runtime (pools, sockets, address lookup),
    - the binding's own buffered I/O engine and status helpers.

    The C functions of io_net.c are translated one by one into a state and
    error monad over [lua_State].  The APR calls and the buffer engine are
    not part of io_net.c; they are the fields of an environment record
    [Env], so every theorem holds for every native layer, and a small
    simulated layer, [Sim.env], lets the functions run on concrete
    inputs. *)

From Stdlib Require Import ZArith QArith String List Lia DecimalString.
From stdpp Require Import base list.
Import ListNotations.

Local Open Scope string_scope.
Local Open Scope Z_scope.
Local Open Scope list_scope.

(** ** Lua values *)

(** [lua_Number] is a C double in Lua 5.1.  The module only reads numbers
    through [luaL_checkinteger] and writes them through [lua_pushinteger];
    the model carries them as rationals, which every finite double is.
    An integer that goes into a [lua_Number] is rounded to a double first
    ([double_of_Z] below). *)
Definition lua_Number := Q.

(** A userdata created by [new_object] for the socket type is
    [LSocket r], [r] the index of the object in the heap of the state. *)
Inductive lua_value : Type :=
| LNil
| LBoolean (b : bool)
| LNumber (n : lua_Number)
| LString (s : string)
| LTable (id : nat)
| LFunction (id : nat)
| LSocket (r : nat)
| LUserdata (id : nat)
| LThread (id : nat).

(** [luaL_error] raises [ErrRuntime]; in a C function its position prefix
    is empty, so the message is the format string's.  [luaL_argerror] and
    [luaL_typerror] raise [ErrArg], kept as the argument number the C
    function passed and the extra message. *)
Inductive lua_error : Type :=
| ErrRuntime (msg : string)
| ErrArg (narg : nat) (extramsg : string).

(** ** C integer conversions *)

Definition wrap_unsigned (bits z : Z) : Z := z mod 2 ^ bits.

Definition wrap_signed (bits z : Z) : Z :=
  (z + 2 ^ (bits - 1)) mod 2 ^ bits - 2 ^ (bits - 1).

Definition fits_signed (bits z : Z) : bool :=
  (- 2 ^ (bits - 1) <=? z) && (z <? 2 ^ (bits - 1)).

(** The widths a C [ptrdiff_t] has on the platforms APR supports. *)
Inductive c_width : Type := Bits32 | Bits64.

Definition bits (w : c_width) : Z :=
  match w with Bits32 => 32 | Bits64 => 64 end.

(** The C conversion of an integer to [double] (IEEE 754 binary64, 53
    bits of significand, round to nearest, ties to even): an integer of
    at most 53 bits is kept, a longer one loses its low bits. *)
Definition double_of_Z (n : Z) : Z :=
  let a := Z.abs n in
  let e := Z.log2 a - 52 in
  if e <=? 0 then n
  else
    let q := Z.shiftr a e in
    let r := a - Z.shiftl q e in
    let half := Z.shiftl 1 (e - 1) in
    let q' := if r <? half then q
              else if half <? r then q + 1
              else if Z.even q then q else q + 1 in
    Z.sgn n * Z.shiftl q' e.

(** ** C strings *)

(** A Lua string may hold NUL characters.  The [const char *] that
    [lua_tolstring] returns points to all of it, but [strcmp] and the
    [%s] of [lua_pushfstring] read it as a C string: up to the first
    NUL. *)
Definition NUL : Ascii.ascii := Ascii.zero.

Fixpoint c_str (s : string) : string :=
  match s with
  | EmptyString => EmptyString
  | String c rest => if Ascii.eqb c NUL then EmptyString else String c (c_str rest)
  end.

(** [strcmp(a, b) == 0] *)
Definition strcmp_eq (a b : string) : bool := String.eqb (c_str a) (c_str b).

(** ** Native pointers *)

Definition apr_status_t := Z.
Definition APR_SUCCESS : apr_status_t := 0.

(** Addresses of native objects; a C pointer that may be NULL is an
    [option]. *)
Definition apr_pool_t := nat.
Definition apr_socket_t := nat.
Definition apr_sockaddr_t := nat.

Inductive apr_interface_e : Type := APR_LOCAL | APR_REMOTE.

(** ** The environment: platform constants, APR and the buffer engine *)

Record Env : Type := {
  (* platform headers *)
  APR_HAVE_IPV6 : bool;
  APR_INET : Z;
  APR_INET6 : Z;
  APR_UNSPEC : Z;
  APR_PROTO_TCP : Z;
  APR_PROTO_UDP : Z;
  SOCK_STREAM : Z;
  SOCK_DGRAM : Z;
  APR_ANYADDR : string;
  (* width of lua_Integer (ptrdiff_t) *)
  LUA_INTEGER : c_width;
  (* the C library behind lua_str2number and lua_number2str *)
  lua_str2number : string -> option lua_Number;
  lua_number2str : lua_Number -> string;
  apr_strerror : apr_status_t -> string;
  (* state of the native layer *)
  world : Type;
  lua_apr_readbuf : Type;
  lua_apr_writebuf : Type;
  (* APR *)
  apr_pool_create : world -> apr_status_t * option apr_pool_t * world;
  apr_pool_destroy : apr_pool_t -> world -> world;
  apr_socket_create :
    Z -> Z -> Z -> option apr_pool_t -> world ->
    apr_status_t * option apr_socket_t * world;
  apr_socket_close : apr_socket_t -> world -> apr_status_t * world;
  apr_sockaddr_info_get :
    string -> Z -> Z -> Z -> option apr_pool_t -> world ->
    apr_status_t * option apr_sockaddr_t * world;
  apr_sockaddr_ip_get :
    option apr_sockaddr_t -> world -> apr_status_t * string * world;
  apr_getnameinfo :
    option apr_sockaddr_t -> Z -> world -> apr_status_t * option string * world;
  apr_gethostname : option apr_pool_t -> world -> apr_status_t * string * world;
  apr_socket_connect :
    option apr_socket_t -> option apr_sockaddr_t -> world -> apr_status_t * world;
  apr_socket_bind :
    option apr_socket_t -> option apr_sockaddr_t -> world -> apr_status_t * world;
  apr_socket_listen : option apr_socket_t -> Z -> world -> apr_status_t * world;
  apr_socket_accept :
    option apr_socket_t -> option apr_pool_t -> world ->
    apr_status_t * option apr_socket_t * world;
  apr_socket_timeout_get : option apr_socket_t -> world -> apr_status_t * Z * world;
  apr_socket_timeout_set : option apr_socket_t -> Z -> world -> apr_status_t * world;
  apr_socket_addr_get :
    apr_interface_e -> option apr_socket_t -> world ->
    apr_status_t * option apr_sockaddr_t * world;
  sockaddr_hostname : apr_sockaddr_t -> world -> option string;
  (* the binding's global pool (to_pool in lua_apr.h) *)
  to_pool : world -> option apr_pool_t * world;
  (* the buffered I/O engine (buffer.c) *)
  init_buffers : option apr_socket_t -> Z -> lua_apr_readbuf * lua_apr_writebuf;
  read_buffer :
    list lua_value -> lua_apr_readbuf -> world ->
    (lua_error + list lua_value) * lua_apr_readbuf * world;
  read_lines :
    list lua_value -> lua_apr_readbuf -> world ->
    (lua_error + list lua_value) * lua_apr_readbuf * world;
  write_buffer :
    list lua_value -> lua_apr_writebuf -> world ->
    (lua_error + list lua_value) * lua_apr_writebuf * world;
  flush_buffer :
    lua_apr_writebuf -> Z -> world -> apr_status_t * lua_apr_writebuf * world
}.

(** ** Ghost trace of the calls that leave io_net.c

    Every call of an APR function or of the buffer engine appends one
    event; the trace is what "no native call was made" and "the flush came
    before the return" are stated on.  It is not read by the code. *)
Inductive event : Type :=
| EvPoolCreate (st : apr_status_t) (p : option apr_pool_t)
| EvPoolDestroy (p : apr_pool_t)
| EvSocketCreate (family type protocol : Z) (p : option apr_pool_t)
    (st : apr_status_t) (h : option apr_socket_t)
| EvSocketClose (h : apr_socket_t) (st : apr_status_t)
| EvSockaddrInfoGet (host : string) (family port flags : Z)
    (p : option apr_pool_t) (st : apr_status_t)
| EvSockaddrIpGet (a : option apr_sockaddr_t) (st : apr_status_t)
| EvGetNameInfo (a : option apr_sockaddr_t) (st : apr_status_t)
| EvGetHostname (st : apr_status_t)
| EvConnect (h : option apr_socket_t) (a : option apr_sockaddr_t) (st : apr_status_t)
| EvBind (h : option apr_socket_t) (a : option apr_sockaddr_t) (st : apr_status_t)
| EvListen (h : option apr_socket_t) (backlog : Z) (st : apr_status_t)
| EvAccept (server : option apr_socket_t) (p : option apr_pool_t)
    (st : apr_status_t) (client : option apr_socket_t)
| EvTimeoutGet (h : option apr_socket_t) (st : apr_status_t) (t : Z)
| EvTimeoutSet (h : option apr_socket_t) (t : Z) (st : apr_status_t)
| EvAddrGet (which : apr_interface_e) (h : option apr_socket_t) (st : apr_status_t)
| EvToPool
| EvInitBuffers (h : option apr_socket_t)
| EvReadBuffer
| EvReadLines
| EvWriteBuffer
| EvFlushBuffer (st : apr_status_t).

(** ** Outcome of a C function *)

(** [Raise]: a Lua error unwound the C function (longjmp).
    [Undefined]: the C code did something the language leaves undefined
    (it used an uninitialised pointer, or converted a double that does not
    fit the integer type). *)
Inductive outcome (S A : Type) : Type :=
| Ok (a : A) (s : S)
| Raise (e : lua_error) (s : S)
| Undefined.

Arguments Ok {S A} a s.
Arguments Raise {S A} e s.
Arguments Undefined {S A}.

Section WithEnv.

Context (E : Env).

(** Socket object structure declaration (io_net.c, lines 15-21).  The two
    buffers are [None] until [init_buffers] has set them. *)
Record lua_apr_socket : Type := mk_socket {
  input : option (lua_apr_readbuf E);
  output : option (lua_apr_writebuf E);
  pool : option apr_pool_t;
  handle : option apr_socket_t;
  family : Z;
  protocol : Z
}.

Record lua_State : Type := mk_state {
  stack : list lua_value;
  heap : list lua_apr_socket;
  lworld : world E;
  trace : list event
}.

Definition set_stack (L : lua_State) (st : list lua_value) : lua_State :=
  mk_state st (heap L) (lworld L) (trace L).

Definition set_heap (L : lua_State) (h : list lua_apr_socket) : lua_State :=
  mk_state (stack L) h (lworld L) (trace L).

Definition M (A : Type) : Type := lua_State -> outcome lua_State A.

Definition ret {A} (a : A) : M A := fun L => Ok a L.

Definition bind {A B} (m : M A) (k : A -> M B) : M B :=
  fun L =>
    match m L with
    | Ok a L' => k a L'
    | Raise e L' => Raise e L'
    | Undefined => Undefined
    end.

Definition raise {A} (e : lua_error) : M A := fun L => Raise e L.

Definition undefined {A} : M A := fun _ => Undefined.

Definition get : M lua_State := fun L => Ok L L.

End WithEnv.

Arguments mk_socket {E}.
Arguments input {E}.
Arguments output {E}.
Arguments pool {E}.
Arguments handle {E}.
Arguments family {E}.
Arguments protocol {E}.
Arguments mk_state {E}.
Arguments stack {E}.
Arguments heap {E}.
Arguments lworld {E}.
Arguments trace {E}.
Arguments set_stack {E}.
Arguments set_heap {E}.
Arguments ret {E A}.
Arguments bind {E A B}.
Arguments raise {E A}.
Arguments undefined {E A}.
Arguments get {E}.

Declare Scope lua_scope.
Delimit Scope lua_scope with lua.

Notation "x <- c1 ;; c2" := (bind c1 (fun x => c2))
  (at level 100, c1 at next level, right associativity) : lua_scope.
Notation "c1 ;; c2" := (bind c1 (fun _ => c2))
  (at level 100, right associativity) : lua_scope.

Local Open Scope lua_scope.

(** ** The Lua 5.1 C API, as far as io_net.c uses it *)

Section LuaAPI.

Context (E : Env).

Local Abbreviation state := (lua_State E).
Local Abbreviation cmd := (M E).

(** Stack index [i], 1-based from the bottom of the frame; [None] is
    LUA_TNONE. *)
Definition index2adr (L : state) (i : nat) : option lua_value :=
  match i with
  | O => None
  | S j => stack L !! j
  end.

Definition lua_push (v : lua_value) : cmd unit :=
  fun L => Ok tt (set_stack L (stack L ++ [v])).

Definition lua_pushnil : cmd unit := lua_push LNil.
Definition lua_pushboolean (b : bool) : cmd unit := lua_push (LBoolean b).

(** [lua_pushinteger] converts to [lua_Number], a double. *)
Definition lua_pushinteger (n : Z) : cmd unit :=
  lua_push (LNumber (inject_Z (double_of_Z n))).

(** [lua_pushstring] pushes nil for a NULL string. *)
Definition lua_pushstring (s : option string) : cmd unit :=
  match s with
  | Some s => lua_push (LString s)
  | None => lua_push LNil
  end.

Definition lua_typename (v : option lua_value) : string :=
  match v with
  | None => "no value"
  | Some LNil => "nil"
  | Some (LBoolean _) => "boolean"
  | Some (LNumber _) => "number"
  | Some (LString _) => "string"
  | Some (LTable _) => "table"
  | Some (LFunction _) => "function"
  | Some (LSocket _) => "userdata"
  | Some (LUserdata _) => "userdata"
  | Some (LThread _) => "thread"
  end.

Definition luaL_error {A} (msg : string) : cmd A := raise (ErrRuntime msg).

Definition luaL_argerror {A} (narg : nat) (extramsg : string) : cmd A :=
  raise (ErrArg narg extramsg).

Definition luaL_typerror {A} (narg : nat) (tname : string) : cmd A :=
  fun L =>
    luaL_argerror narg
      (tname ++ " expected, got " ++ lua_typename (index2adr L narg))%string L.

(** [tonumber] of lvm.h: a number, or a string that converts to one. *)
Definition tonumber (v : option lua_value) : option lua_Number :=
  match v with
  | Some (LNumber n) => Some n
  | Some (LString s) => lua_str2number E s
  | _ => None
  end.

Definition lua_isnumber (i : nat) : cmd bool :=
  fun L =>
    Ok (match tonumber (index2adr L i) with Some _ => true | None => false end) L.

Definition lua_isnoneornil (i : nat) : cmd bool :=
  fun L =>
    Ok (match index2adr L i with None | Some LNil => true | _ => false end) L.

Definition lua_toboolean (i : nat) : cmd bool :=
  fun L =>
    Ok (match index2adr L i with
        | None | Some LNil | Some (LBoolean false) => false
        | _ => true
        end) L.

(** [lua_number2integer]: the C cast [(lua_Integer) d] truncates toward
    zero, and is undefined when the result does not fit. *)
Definition lua_number2integer (d : lua_Number) : option Z :=
  let z := Z.quot (Qnum d) (Z.pos (Qden d)) in
  if fits_signed (bits (LUA_INTEGER E)) z then Some z else None.

Definition lua_tointeger (i : nat) : cmd Z :=
  fun L =>
    match tonumber (index2adr L i) with
    | Some d =>
        match lua_number2integer d with
        | Some z => Ok z L
        | None => Undefined
        end
    | None => Ok 0 L
    end.

Definition luaL_checkinteger (narg : nat) : cmd Z :=
  d <- lua_tointeger narg ;;
  isnum <- lua_isnumber narg ;;
  if (d =? 0) && negb isnum then luaL_typerror narg "number" else ret d.

(** [lua_tolstring] turns a number on the stack into its string, in place. *)
Definition lua_tolstring (i : nat) : cmd (option string) :=
  fun L =>
    match index2adr L i with
    | Some (LString s) => Ok (Some s) L
    | Some (LNumber n) =>
        let s := lua_number2str E n in
        Ok (Some s) (set_stack L (<[Nat.pred i := LString s]> (stack L)))
    | _ => Ok None L
    end.

Definition luaL_checkstring (narg : nat) : cmd string :=
  s <- lua_tolstring narg ;;
  match s with
  | Some s => ret s
  | None => luaL_typerror narg "string"
  end.

Definition luaL_optstring (narg : nat) (def : string) : cmd string :=
  none <- lua_isnoneornil narg ;;
  if none then ret def else luaL_checkstring narg.

(** The loop of [luaL_checkoption]: the first entry of the table that
    [strcmp] finds equal to the name. *)
Fixpoint find_option (name : string) (lst : list string) (i : nat) : option nat :=
  match lst with
  | [] => None
  | o :: rest => if strcmp_eq o name then Some i else find_option name rest (S i)
  end.

Definition luaL_checkoption (narg : nat) (def : option string) (lst : list string)
  : cmd nat :=
  name <- match def with
          | Some d => luaL_optstring narg d
          | None => luaL_checkstring narg
          end ;;
  match find_option name lst 0 with
  | Some i => ret i
  | None => luaL_argerror narg ("invalid option '" ++ c_str name ++ "'")%string
  end.

(** A C array indexed by the result of [luaL_checkoption]. *)
Definition array_get {A} (values : list A) (i : nat) : cmd A :=
  match values !! i with
  | Some v => ret v
  | None => undefined
  end.

(** A call from the world: log the event and thread the world. *)
Definition native {A} (f : world E -> A * world E) (ev : A -> event) : cmd A :=
  fun L =>
    let (a, w) := f (lworld L) in
    Ok a (mk_state (stack L) (heap L) w (trace L ++ [ev a])).

End LuaAPI.

Arguments index2adr {E}.
Arguments lua_push {E}.
Arguments lua_pushnil {E}.
Arguments lua_pushboolean {E}.
Arguments lua_pushinteger {E}.
Arguments lua_pushstring {E}.
Arguments luaL_error {E A}.
Arguments luaL_argerror {E A}.
Arguments luaL_typerror {E A}.
Arguments lua_isnoneornil {E}.
Arguments lua_toboolean {E}.
Arguments array_get {E A}.
Arguments lua_isnumber {E}.
Arguments lua_tointeger {E}.
Arguments luaL_checkinteger {E}.
Arguments lua_tolstring {E}.
Arguments luaL_checkstring {E}.
Arguments luaL_optstring {E}.
Arguments luaL_checkoption {E}.
Arguments native {E A}.

(** ** Helpers of the binding that io_net.c calls (lua_apr.h) *)

Section Helpers.

Context (E : Env).

Local Abbreviation state := (lua_State E).
Local Abbreviation cmd := (M E).

Definition set_buffers (i : option (lua_apr_readbuf E))
  (o : option (lua_apr_writebuf E)) (s : lua_apr_socket E) : lua_apr_socket E :=
  mk_socket i o (pool s) (handle s) (family s) (protocol s).

Definition set_input (i : lua_apr_readbuf E) (s : lua_apr_socket E) :=
  mk_socket (Some i) (output s) (pool s) (handle s) (family s) (protocol s).

Definition set_output (o : lua_apr_writebuf E) (s : lua_apr_socket E) :=
  mk_socket (input s) (Some o) (pool s) (handle s) (family s) (protocol s).

Definition set_pool (p : option apr_pool_t) (s : lua_apr_socket E) :=
  mk_socket (input s) (output s) p (handle s) (family s) (protocol s).

Definition set_handle (h : option apr_socket_t) (s : lua_apr_socket E) :=
  mk_socket (input s) (output s) (pool s) h (family s) (protocol s).

Definition set_family (f : Z) (s : lua_apr_socket E) :=
  mk_socket (input s) (output s) (pool s) (handle s) f (protocol s).

Definition set_protocol (p : Z) (s : lua_apr_socket E) :=
  mk_socket (input s) (output s) (pool s) (handle s) (family s) p.

(** Read the object a pointer refers to; a pointer to nothing is
    undefined behaviour. *)
Definition get_object (r : nat) : cmd (lua_apr_socket E) :=
  fun L =>
    match heap L !! r with
    | Some o => Ok o L
    | None => Undefined
    end.

(** A write through the pointer: [object->field = v]. *)
Definition modify_object (r : nat) (f : lua_apr_socket E -> lua_apr_socket E)
  : cmd unit :=
  o <- get_object r ;;
  fun L => Ok tt (set_heap L (<[r := f o]> (heap L))).

(** Use of a local pointer variable; [None] is the indeterminate value of
    a variable that was never assigned. *)
Definition deref (p : option nat) : cmd nat :=
  match p with
  | Some r => ret r
  | None => undefined
  end.

(** Modelled from the spec: [new_object] of the host object registration
    mechanism (not in src/).  It allocates a fresh handle object, zeroed,
    pushes the userdata on the stack and returns the pointer. *)
Definition new_object : cmd nat :=
  fun L =>
    let r := length (heap L) in
    Ok r (mk_state (stack L ++ [LSocket r])
            (heap L ++ [mk_socket None None None None 0 0])
            (lworld L) (trace L)).

(** The [typename] field of [lua_apr_socket_type] (io_net.c, line 525). *)
Definition socket_typename : string := "lua_apr_socket*".

(** Modelled from the spec: [check_object] of the type-tagging mechanism
    (not in src/).  It returns the object when the value at index [i] is a
    socket handle and raises a type error otherwise. *)
Definition check_object (i : nat) : cmd nat :=
  fun L =>
    match index2adr L i with
    | Some (LSocket r) => Ok r L
    | _ => luaL_typerror i socket_typename L
    end.

(** Modelled from the spec: [push_error_status] (not in src/).  The
    failure result is nil plus a message derived from the status code. *)
Definition push_error_status (status : apr_status_t) : cmd nat :=
  lua_pushnil ;;
  lua_pushstring (Some (apr_strerror E status)) ;;
  ret 2%nat.

(** Modelled from the spec: [push_status] (not in src/).  True on
    success, otherwise the failure result of [push_error_status]. *)
Definition push_status (status : apr_status_t) : cmd nat :=
  if status =? APR_SUCCESS then lua_pushboolean true ;; ret 1%nat
  else push_error_status status.

(** A call of the buffer engine on one of the two buffers of an object:
    the engine sees the stack, may push values, and returns their count,
    or raises. *)
Definition engine {B : Type}
  (f : list lua_value -> B -> world E -> (lua_error + list lua_value) * B * world E)
  (ev : event) (getb : lua_apr_socket E -> option B)
  (setb : B -> lua_apr_socket E -> lua_apr_socket E) (object : nat) : cmd nat :=
  o <- get_object object ;;
  match getb o with
  | None => undefined
  | Some b =>
      fun L =>
        let '(res, b', w) := f (stack L) b (lworld L) in
        let h := <[object := setb b' o]> (heap L) in
        match res with
        | inl e => Raise e (mk_state (stack L) h w (trace L ++ [ev]))
        | inr vs =>
            Ok (length vs) (mk_state (stack L ++ vs) h w (trace L ++ [ev]))
        end
  end.

(** A Lua call of a C function: the function runs on a frame that holds
    the arguments, its results are the top [n] values of that frame, and
    the caller's stack is what it was. *)
Definition lua_call (f : cmd nat) (args : list lua_value)
  : state -> outcome state (list lua_value) :=
  fun L =>
    match f (set_stack L args) with
    | Ok n L' =>
        Ok (drop (length (stack L') - n) (stack L')) (set_stack L' (stack L))
    | Raise e L' => Raise e (set_stack L' (stack L))
    | Undefined => Undefined
    end.

End Helpers.

Arguments get_object {E}.
Arguments modify_object {E}.
Arguments deref {E}.
Arguments new_object {E}.
Arguments check_object {E}.
Arguments push_error_status {E}.
Arguments push_status {E}.
Arguments engine {E B}.
Arguments set_buffers {E}.
Arguments set_input {E}.
Arguments set_output {E}.
Arguments set_pool {E}.
Arguments set_handle {E}.
Arguments set_family {E}.
Arguments set_protocol {E}.

(** ** io_net.c *)

Section IoNet.

Context (E : Env).

Local Abbreviation cmd := (M E).

(** socket_alloc(L) -- allocate and initialize socket object.
    [objptr] is the value the caller's variable has before the call; the
    second component of the result is its value after it. *)
Definition socket_alloc (family protocol : Z) (objptr : option nat)
  : cmd (apr_status_t * option nat) :=
  object <- new_object ;;
  modify_object object (set_family family) ;;
  modify_object object (set_protocol protocol) ;;
  r <- native (apr_pool_create E) (fun r => EvPoolCreate (fst r) (snd r)) ;;
  modify_object object (set_pool (snd r)) ;;
  let status := fst r in
  ret (status, if status =? APR_SUCCESS then Some object else objptr).

(** socket_init(L, object) -- initialize socket buffers *)
Definition socket_init (object : option nat) : cmd unit :=
  r <- deref object ;;
  o <- get_object r ;;
  let b := init_buffers E (handle o) 0 in
  native (fun w => (tt, w)) (fun _ => EvInitBuffers (handle o)) ;;
  modify_object r (set_buffers (Some (fst b)) (Some (snd b))).

(** socket_check(L, i, open) -- get socket object from Lua stack *)
Definition socket_check (i : nat) (open : bool) : cmd nat :=
  object <- check_object i ;;
  o <- get_object object ;;
  if open && (if handle o is None then true else false)
  then luaL_error "attempt to use a closed socket"
  else ret object.

(** family_check(L, i) -- check for address family on Lua stack *)
Definition family_options : list string :=
  if APR_HAVE_IPV6 E then ["inet"; "inet6"; "unspec"] else ["inet"; "unspec"].

Definition family_values : list Z :=
  if APR_HAVE_IPV6 E then [APR_INET E; APR_INET6 E; APR_UNSPEC E]
  else [APR_INET E; APR_UNSPEC E].

Definition family_check (i : nat) : cmd Z :=
  idx <- luaL_checkoption i (Some "inet") family_options ;;
  array_get family_values idx.

(** socket_close_impl(L, socket) -- destroy socket object *)
Definition socket_close_impl (object : nat) : cmd apr_status_t :=
  o <- get_object object ;;
  status <- match handle o with
            | Some h =>
                st <- native (apr_socket_close E h) (EvSocketClose h) ;;
                modify_object object (set_handle None) ;;
                ret st
            | None => ret APR_SUCCESS
            end ;;
  o <- get_object object ;;
  match pool o with
  | Some p =>
      native (fun w => (tt, apr_pool_destroy E p w)) (fun _ => EvPoolDestroy p) ;;
      modify_object object (set_pool None)
  | None => ret tt
  end ;;
  ret status.

(** apr.socket_create([protocol [, family]]) -> socket *)
Definition proto_options : list string := ["tcp"; "udp"].

Definition proto_values : list Z := [APR_PROTO_TCP E; APR_PROTO_UDP E].

Definition lua_apr_socket_create : cmd nat :=
  idx <- luaL_checkoption 1 (Some "tcp") proto_options ;;
  protocol <- array_get proto_values idx ;;
  family <- family_check 2 ;;
  let type := if protocol =? APR_PROTO_TCP E then SOCK_STREAM E else SOCK_DGRAM E in
  a <- socket_alloc family protocol None ;;
  let object := snd a in
  status <- (if fst a =? APR_SUCCESS then
               r <- deref object ;;
               o <- get_object r ;;
               c <- native (apr_socket_create E family type protocol (pool o))
                      (fun c => EvSocketCreate family type protocol (pool o)
                                  (fst c) (snd c)) ;;
               modify_object r (set_handle (snd c)) ;;
               ret (fst c)
             else ret (fst a)) ;;
  if negb (status =? APR_SUCCESS) then push_error_status status
  else socket_init object ;; ret 1%nat.

(** apr.hostname_get() -> name *)
Definition lua_apr_hostname_get : cmd nat :=
  pool <- native (to_pool E) (fun _ => EvToPool) ;;
  r <- native (apr_gethostname E pool) (fun r => EvGetHostname (fst r)) ;;
  if negb (fst r =? APR_SUCCESS) then push_error_status (fst r)
  else lua_pushstring (Some (snd r)) ;; ret 1%nat.

(** apr.host_to_addr(hostname [, family]) -> ip_address.
    [ip_address] is [None] while the variable is unassigned. *)
Definition lua_apr_host_to_addr : cmd nat :=
  pool <- native (to_pool E) (fun _ => EvToPool) ;;
  host <- luaL_checkstring 1 ;;
  family <- family_check 2 ;;
  i <- native (apr_sockaddr_info_get E host family (SOCK_STREAM E) 0 pool)
         (fun i => EvSockaddrInfoGet host family (SOCK_STREAM E) 0 pool (fst i)) ;;
  let address := snd i in
  r <- (if fst i =? APR_SUCCESS then
          g <- native (apr_sockaddr_ip_get E address)
                 (fun g => EvSockaddrIpGet address (fst g)) ;;
          ret (fst g, Some (snd g))
        else ret (fst i, None)) ;;
  if negb (fst r =? APR_SUCCESS) then push_error_status (fst r)
  else
    match snd r with
    | Some ip_address => lua_pushstring (Some ip_address) ;; ret 1%nat
    | None => undefined
    end.

(** apr.addr_to_host(ip_address [, family]) -> hostname *)
Definition lua_apr_addr_to_host : cmd nat :=
  pool <- native (to_pool E) (fun _ => EvToPool) ;;
  ip_address <- luaL_checkstring 1 ;;
  family <- family_check 2 ;;
  i <- native (apr_sockaddr_info_get E ip_address family (SOCK_STREAM E) 0 pool)
         (fun i => EvSockaddrInfoGet ip_address family (SOCK_STREAM E) 0 pool
                     (fst i)) ;;
  let address := snd i in
  r <- (if fst i =? APR_SUCCESS then
          g <- native (apr_getnameinfo E address 0)
                 (fun g => EvGetNameInfo address (fst g)) ;;
          ret (fst g, Some (snd g))
        else ret (fst i, None)) ;;
  if negb (fst r =? APR_SUCCESS) then push_error_status (fst r)
  else
    match snd r with
    | Some host => lua_pushstring host ;; ret 1%nat
    | None => undefined
    end.

(** The C conversions at the assignments of [luaL_checkinteger]'s result:
    apr_port_t is 16 bits unsigned, apr_int32_t 32 bits signed,
    apr_interval_time_t 64 bits signed. *)
Definition to_apr_port_t (n : Z) : Z := wrap_unsigned 16 n.
Definition to_apr_int32_t (n : Z) : Z := wrap_signed 32 n.
Definition to_apr_interval_time_t (n : Z) : Z := wrap_signed 64 n.
Definition to_lua_Integer (n : Z) : Z := wrap_signed (bits (LUA_INTEGER E)) n.

(** socket:connect(host, port) -> status *)
Definition socket_connect : cmd nat :=
  object <- socket_check 1 true ;;
  host <- luaL_checkstring 2 ;;
  n <- luaL_checkinteger 3 ;;
  let port := to_apr_port_t n in
  o <- get_object object ;;
  i <- native (apr_sockaddr_info_get E host (family o) port 0 (pool o))
         (fun i => EvSockaddrInfoGet host (family o) port 0 (pool o) (fst i)) ;;
  let address := snd i in
  status <- (if fst i =? APR_SUCCESS then
               native (apr_socket_connect E (handle o) address)
                 (EvConnect (handle o) address)
             else ret (fst i)) ;;
  push_status status.

(** socket:bind(host, port) -> status *)
Definition socket_bind : cmd nat :=
  object <- socket_check 1 true ;;
  host <- luaL_checkstring 2 ;;
  let host := if strcmp_eq host "*" then APR_ANYADDR E else host in
  n <- luaL_checkinteger 3 ;;
  let port := to_apr_port_t n in
  o <- get_object object ;;
  i <- native (apr_sockaddr_info_get E host (family o) port 0 (pool o))
         (fun i => EvSockaddrInfoGet host (family o) port 0 (pool o) (fst i)) ;;
  let address := snd i in
  status <- (if fst i =? APR_SUCCESS then
               native (apr_socket_bind E (handle o) address)
                 (EvBind (handle o) address)
             else ret (fst i)) ;;
  push_status status.

(** socket:listen(backlog) -> status *)
Definition socket_listen : cmd nat :=
  object <- socket_check 1 true ;;
  n <- luaL_checkinteger 2 ;;
  let backlog := to_apr_int32_t n in
  o <- get_object object ;;
  status <- native (apr_socket_listen E (handle o) backlog)
              (EvListen (handle o) backlog) ;;
  push_status status.

(** socket:accept() -> client_socket.
    [client] starts as [None]: the C variable is declared without a value
    and [socket_alloc] assigns it only on success. *)
Definition socket_accept : cmd nat :=
  server <- socket_check 1 true ;;
  srv <- get_object server ;;
  a <- socket_alloc (family srv) (protocol srv) None ;;
  let client := snd a in
  status <- (if fst a =? APR_SUCCESS then
               c <- deref client ;;
               srv <- get_object server ;;
               cl <- get_object c ;;
               r <- native (apr_socket_accept E (handle srv) (pool cl))
                      (fun r => EvAccept (handle srv) (pool cl) (fst r) (snd r)) ;;
               modify_object c (set_handle (snd r)) ;;
               ret (fst r)
             else ret (fst a)) ;;
  socket_init client ;;
  if negb (status =? APR_SUCCESS) then push_error_status status
  else ret 1%nat.

(** socket:read([format, ...]) -> mixed value, ... *)
Definition socket_read : cmd nat :=
  object <- socket_check 1 true ;;
  engine (read_buffer E) EvReadBuffer input set_input object.

(** socket:write(value [, ...]) -> status *)
Definition socket_write : cmd nat :=
  object <- socket_check 1 true ;;
  nresults <- engine (write_buffer E) EvWriteBuffer output set_output object ;;
  o <- get_object object ;;
  b <- (if output o is Some b then ret b else undefined) ;;
  r <- native (flush_buffer E b 1) (fun r => EvFlushBuffer (fst r)) ;;
  modify_object object (set_output (snd r)) ;;
  let status := fst r in
  if negb (status =? APR_SUCCESS) then push_error_status status
  else ret nresults.

(** socket:lines() -> iterator *)
Definition socket_lines : cmd nat :=
  object <- socket_check 1 true ;;
  engine (read_lines E) EvReadLines input set_input object.

(** socket:timeout_get() -> timeout *)
Definition socket_timeout_get : cmd nat :=
  object <- socket_check 1 true ;;
  o <- get_object object ;;
  r <- native (apr_socket_timeout_get E (handle o))
         (fun r => EvTimeoutGet (handle o) (fst r) (snd r)) ;;
  let status := fst r in
  let timeout := snd r in
  if negb (status =? APR_SUCCESS) then push_error_status status
  else
    (if timeout <=? 0 then lua_pushboolean (negb (timeout =? 0))
     else lua_pushinteger (to_lua_Integer timeout)) ;;
    ret 1%nat.

(** socket:timeout_set(timeout) -> status *)
Definition socket_timeout_set : cmd nat :=
  object <- socket_check 1 true ;;
  isnum <- lua_isnumber 2 ;;
  timeout <- (if isnum then
                n <- luaL_checkinteger 2 ;; ret (to_apr_interval_time_t n)
              else
                b <- lua_toboolean 2 ;; ret (if b then -1 else 0)) ;;
  o <- get_object object ;;
  status <- native (apr_socket_timeout_set E (handle o) timeout)
              (EvTimeoutSet (handle o) timeout) ;;
  push_status status.

(** socket:addr_get([type]) -> ip_address [, hostname] *)
Definition addr_options : list string := ["local"; "remote"].

Definition addr_values : list apr_interface_e := [APR_LOCAL; APR_REMOTE].

Definition socket_addr_get : cmd nat :=
  object <- socket_check 1 true ;;
  idx <- luaL_checkoption 2 (Some "remote") addr_options ;;
  which <- array_get addr_values idx ;;
  o <- get_object object ;;
  a <- native (apr_socket_addr_get E which (handle o))
         (fun a => EvAddrGet which (handle o) (fst a)) ;;
  let address := snd a in
  r <- (if fst a =? APR_SUCCESS then
          g <- native (apr_sockaddr_ip_get E address)
                 (fun g => EvSockaddrIpGet address (fst g)) ;;
          ret (fst g, Some (snd g))
        else ret (fst a, None)) ;;
  if negb (fst r =? APR_SUCCESS) then push_error_status (fst r)
  else
    match snd r, address with
    | Some ip_address, Some adr =>
        lua_pushstring (Some ip_address) ;;
        L <- get ;;
        lua_pushstring (sockaddr_hostname E adr (lworld L)) ;;
        ret 2%nat
    | _, _ => undefined
    end.

(** socket:close() -> status *)
Definition socket_close : cmd nat :=
  object <- socket_check 1 true ;;
  status <- socket_close_impl object ;;
  push_status status.

(** socket:__tostring() *)
Definition socket_tostring : cmd nat :=
  socket <- socket_check 1 false ;;
  o <- get_object socket ;;
  lua_push (LString ((if handle o is Some _ then "Open" else "Closed")
                       ++ " Lua/APR socket object")) ;;
  ret 1%nat.

(** socket:__gc() *)
Definition socket_gc : cmd nat :=
  socket <- socket_check 1 false ;;
  socket_close_impl socket ;;
  ret 0%nat.

Definition luaL_reg : Type := string * cmd nat.

Definition socket_methods : list luaL_reg := [
  ("bind", socket_bind);
  ("listen", socket_listen);
  ("accept", socket_accept);
  ("connect", socket_connect);
  ("read", socket_read);
  ("write", socket_write);
  ("lines", socket_lines);
  ("timeout_get", socket_timeout_get);
  ("timeout_set", socket_timeout_set);
  ("addr_get", socket_addr_get);
  ("close", socket_close)
].

Definition socket_metamethods : list luaL_reg := [
  ("__tostring", socket_tostring);
  ("__gc", socket_gc)
].

(** [object:name(args...)]: the method found in the table, called with
    the object as first argument. *)
Definition lookup_reg (name : string) (t : list luaL_reg) : option (cmd nat) :=
  snd <$> List.find (fun r => String.eqb (fst r) name) t.

End IoNet.

Arguments socket_check {E}.
Arguments socket_init {E}.
Arguments socket_close_impl {E}.
Arguments lookup_reg {E}.

(** ** A simulated native layer

    [sim] is one inhabitant of [Env], small enough to run: addresses are
    handed out by a counter, every fallible native call answers with the
    next status of a script (success once the script is empty), a socket
    keeps the timeout it was given, and flushed strings go to a wire. *)

Module Sim.

Record sim_world : Type := mk_world {
  next_addr : nat;
  script : list apr_status_t;
  timeouts : list (apr_socket_t * Z);
  wire : list string
}.

Definition world0 : sim_world := mk_world 1 [] [] [].

Definition answer (w : sim_world) : apr_status_t * sim_world :=
  match script w with
  | [] => (APR_SUCCESS, w)
  | st :: rest => (st, mk_world (next_addr w) rest (timeouts w) (wire w))
  end.

Definition fresh (w : sim_world) : nat * sim_world :=
  (next_addr w, mk_world (S (next_addr w)) (script w) (timeouts w) (wire w)).

Definition status_only (w : sim_world) : apr_status_t * sim_world := answer w.

(** A native call that hands out an object when it succeeds. *)
Definition allocating (w : sim_world) : apr_status_t * option nat * sim_world :=
  let (st, w1) := answer w in
  if st =? APR_SUCCESS then
    let (a, w2) := fresh w1 in (st, Some a, w2)
  else (st, None, w1).

(** APR allocates the client socket before it calls accept(2), so the
    pointer is set also when the call fails. *)
Definition accepting (w : sim_world) : apr_status_t * option nat * sim_world :=
  let (st, w1) := answer w in
  let (a, w2) := fresh w1 in (st, Some a, w2).

Fixpoint assoc (k : nat) (l : list (nat * Z)) : option Z :=
  match l with
  | [] => None
  | (k', v) :: rest => if Nat.eqb k k' then Some v else assoc k rest
  end.

(** Reading the timeout back is a field access in APR: it does not fail.
    A socket that was never given a timeout blocks (-1). *)
Definition timeout_get (h : option apr_socket_t) (w : sim_world)
  : apr_status_t * Z * sim_world :=
  match h with
  | Some s => (APR_SUCCESS, default (-1) (assoc s (timeouts w)), w)
  | None => (APR_SUCCESS, -1, w)
  end.

Definition timeout_set (h : option apr_socket_t) (t : Z) (w : sim_world)
  : apr_status_t * sim_world :=
  let (st, w1) := answer w in
  match h with
  | Some s =>
      if st =? APR_SUCCESS then
        (st, mk_world (next_addr w1) (script w1) ((s, t) :: timeouts w1) (wire w1))
      else (st, w1)
  | None => (st, w1)
  end.

Definition text (w : sim_world) (s : string) : apr_status_t * string * sim_world :=
  let (st, w1) := answer w in (st, s, w1).

(** Decimal numerals only; the C library also reads fractions, exponents
    and hexadecimal, which the simulation leaves out. *)
Definition str2number (s : string) : option lua_Number :=
  (fun i => inject_Z (Z.of_int i)) <$> NilZero.int_of_string s.

(** Integral numbers print in decimal, others as a quotient. *)
Definition number2str (n : lua_Number) : string :=
  if (Z.pos (Qden n) =? 1) then NilZero.string_of_int (Z.to_int (Qnum n))
  else (NilZero.string_of_int (Z.to_int (Qnum n)) ++ "/"
        ++ NilZero.string_of_int (Z.to_int (Z.pos (Qden n))))%string.

Definition strerror (st : apr_status_t) : string :=
  ("APR status " ++ NilZero.string_of_int (Z.to_int st))%string.

(** The engine of the simulation: the write buffer is the list of strings
    not yet flushed; reads find no data. *)
Definition as_text (v : lua_value) : option string :=
  match v with
  | LString s => Some s
  | LNumber n => Some (number2str n)
  | _ => None
  end.

Fixpoint write_all (i : nat) (vs : list lua_value) (b : list string)
  : (lua_error + list lua_value) * list string :=
  match vs with
  | [] => (inr [LBoolean true], b)
  | v :: rest =>
      match as_text v with
      | Some s => write_all (S i) rest (b ++ [s])
      | None =>
          (inl (ErrArg i ("string expected, got " ++ lua_typename (Some v))), b)
      end
  end.

Definition write (stk : list lua_value) (b : list string) (w : sim_world)
  : (lua_error + list lua_value) * list string * sim_world :=
  (write_all 2 (drop 1 stk) b, w).

Definition flush (b : list string) (_ : Z) (w : sim_world)
  : apr_status_t * list string * sim_world :=
  let (st, w1) := answer w in
  if st =? APR_SUCCESS then
    (st, [], mk_world (next_addr w1) (script w1) (timeouts w1) (wire w1 ++ b))
  else (st, b, w1).

Definition read (stk : list lua_value) (b : unit) (w : sim_world)
  : (lua_error + list lua_value) * unit * sim_world :=
  (inr [LNil], b, w).

Definition lines (stk : list lua_value) (b : unit) (w : sim_world)
  : (lua_error + list lua_value) * unit * sim_world :=
  (inr [LFunction 0], b, w).

(** The simulated platform: the constants of a Linux build of APR, with
    or without IPv6, and a 32 or 64 bit [lua_Integer]. *)
Definition env (ipv6 : bool) (width : c_width) : Env := {|
  APR_HAVE_IPV6 := ipv6;
  APR_INET := 2;
  APR_INET6 := 10;
  APR_UNSPEC := 0;
  APR_PROTO_TCP := 6;
  APR_PROTO_UDP := 17;
  SOCK_STREAM := 1;
  SOCK_DGRAM := 2;
  APR_ANYADDR := "0.0.0.0";
  LUA_INTEGER := width;
  lua_str2number := str2number;
  lua_number2str := number2str;
  apr_strerror := strerror;
  world := sim_world;
  lua_apr_readbuf := unit;
  lua_apr_writebuf := list string;
  apr_pool_create := allocating;
  apr_pool_destroy := fun _ w => w;
  apr_socket_create := fun _ _ _ _ => allocating;
  apr_socket_close := fun _ => status_only;
  apr_sockaddr_info_get := fun _ _ _ _ _ => allocating;
  apr_sockaddr_ip_get := fun _ w => text w "127.0.0.1";
  apr_getnameinfo :=
    fun _ _ w => let (st, w1) := answer w in (st, Some "localhost", w1);
  apr_gethostname := fun _ w => text w "localhost";
  apr_socket_connect := fun _ _ => status_only;
  apr_socket_bind := fun _ _ => status_only;
  apr_socket_listen := fun _ _ => status_only;
  apr_socket_accept := fun _ _ => accepting;
  apr_socket_timeout_get := timeout_get;
  apr_socket_timeout_set := timeout_set;
  apr_socket_addr_get := fun _ _ => allocating;
  sockaddr_hostname := fun _ _ => Some "localhost";
  to_pool := fun w => (Some 0%nat, w);
  init_buffers := fun _ _ => (tt, []);
  read_buffer := read;
  read_lines := lines;
  write_buffer := write;
  flush_buffer := flush
|}.

(** The usual platform, and the initial Lua state on a given world. *)
Definition linux64 : Env := env true Bits64.

Definition start (E : Env) (w : world E) : lua_State E := mk_state [] [] w [].

End Sim.

(** ** A native layer with listen queues

    The documentation of [listen] (io_net.c, lines 303-305) gives the
    contract of [apr_socket_listen]: the backlog is the length of the
    listen queue, and a backlog below zero gives a queue of length zero.
    [Queued.env E] is the native layer [E] together with the queue
    length of each listening socket, kept as that contract says. *)

Module Queued.

Definition queues : Type := list (apr_socket_t * Z).

Section Over.

Context (E : Env).

Definition qworld : Type := world E * queues.

Definition lift {A : Type} (f : world E -> A * world E) (wq : qworld)
  : A * qworld :=
  let (a, w) := f (fst wq) in (a, (w, snd wq)).

Definition listen (h : option apr_socket_t) (backlog : Z) (wq : qworld)
  : apr_status_t * qworld :=
  let (st, w) := apr_socket_listen E h backlog (fst wq) in
  (st, (w, match h with
           | Some s =>
               if st =? APR_SUCCESS then (s, Z.max 0 backlog) :: snd wq
               else snd wq
           | None => snd wq
           end)).

Definition env : Env := {|
  APR_HAVE_IPV6 := APR_HAVE_IPV6 E;
  APR_INET := APR_INET E;
  APR_INET6 := APR_INET6 E;
  APR_UNSPEC := APR_UNSPEC E;
  APR_PROTO_TCP := APR_PROTO_TCP E;
  APR_PROTO_UDP := APR_PROTO_UDP E;
  SOCK_STREAM := SOCK_STREAM E;
  SOCK_DGRAM := SOCK_DGRAM E;
  APR_ANYADDR := APR_ANYADDR E;
  LUA_INTEGER := LUA_INTEGER E;
  lua_str2number := lua_str2number E;
  lua_number2str := lua_number2str E;
  apr_strerror := apr_strerror E;
  world := qworld;
  lua_apr_readbuf := lua_apr_readbuf E;
  lua_apr_writebuf := lua_apr_writebuf E;
  apr_pool_create := lift (apr_pool_create E);
  apr_pool_destroy := fun p wq => (apr_pool_destroy E p (fst wq), snd wq);
  apr_socket_create := fun f t p pl => lift (apr_socket_create E f t p pl);
  apr_socket_close := fun h => lift (apr_socket_close E h);
  apr_sockaddr_info_get :=
    fun host f port flags pl => lift (apr_sockaddr_info_get E host f port flags pl);
  apr_sockaddr_ip_get := fun a => lift (apr_sockaddr_ip_get E a);
  apr_getnameinfo := fun a flags => lift (apr_getnameinfo E a flags);
  apr_gethostname := fun pl => lift (apr_gethostname E pl);
  apr_socket_connect := fun h a => lift (apr_socket_connect E h a);
  apr_socket_bind := fun h a => lift (apr_socket_bind E h a);
  apr_socket_listen := listen;
  apr_socket_accept := fun h pl => lift (apr_socket_accept E h pl);
  apr_socket_timeout_get := fun h => lift (apr_socket_timeout_get E h);
  apr_socket_timeout_set := fun h t => lift (apr_socket_timeout_set E h t);
  apr_socket_addr_get := fun which h => lift (apr_socket_addr_get E which h);
  sockaddr_hostname := fun a wq => sockaddr_hostname E a (fst wq);
  to_pool := lift (to_pool E);
  init_buffers := init_buffers E;
  read_buffer := fun stk b => lift (read_buffer E stk b);
  read_lines := fun stk b => lift (read_lines E stk b);
  write_buffer := fun stk b => lift (write_buffer E stk b);
  flush_buffer := fun b n => lift (flush_buffer E b n)
|}.


End Over.

End Queued.

(** ** Vocabulary of the specification *)

(** The closed-handle condition. *)
Definition closed_handle_error : lua_error :=
  ErrRuntime "attempt to use a closed socket".

(** The I/O and configuration operations of a handle. *)
Definition io_operations : list string :=
  ["connect"; "bind"; "listen"; "accept"; "read"; "write"; "lines";
   "timeout_get"; "timeout_set"; "addr_get"].

(** The text [describe] answers for an open and for a closed handle. *)
Definition describe_text (open : bool) : string :=
  if open then "Open Lua/APR socket object" else "Closed Lua/APR socket object".

(** The family tokens the platform supports, and the constant of each. *)
Definition supported_family (E : Env) (token : string) : Prop :=
  token = "inet" \/ token = "unspec" \/ (token = "inet6" /\ APR_HAVE_IPV6 E = true).

Definition family_constant (E : Env) (token : string) : Z :=
  if String.eqb token "inet6" then APR_INET6 E
  else if String.eqb token "unspec" then APR_UNSPEC E
  else APR_INET E.

(** Truthiness of a Lua argument; an absent argument counts as nil. *)
Definition truthy (v : option lua_value) : bool :=
  match v with
  | None | Some LNil | Some (LBoolean false) => false
  | _ => true
  end.

(** The family and protocol of every object of [L] are the same in [L']. *)
Definition kinds_kept {E : Env} (L L' : lua_State E) : Prop :=
  forall r o, heap L !! r = Some o ->
    exists o', heap L' !! r = Some o'
               /\ family o' = family o /\ protocol o' = protocol o.

(** Every function the module registers, with its Lua name. *)
Definition module_functions (E : Env) : list (luaL_reg E) :=
  [("socket_create", lua_apr_socket_create E);
   ("hostname_get", lua_apr_hostname_get E);
   ("host_to_addr", lua_apr_host_to_addr E);
   ("addr_to_host", lua_apr_addr_to_host E)]
  ++ socket_methods E ++ socket_metamethods E.

(** States of the simulation with one TCP socket, object 0: open, as
    [apr.socket_create()] leaves it, and closed, as [close] leaves it.
    [sts] scripts the answers of the next native calls. *)
Definition sim_socket (p : option apr_pool_t) (h : option apr_socket_t)
  : lua_apr_socket Sim.linux64 :=
  @mk_socket Sim.linux64 (Some tt) (Some []) p h 2 6.

Definition sim_state (objs : list (lua_apr_socket Sim.linux64))
  (sts : list apr_status_t) : lua_State Sim.linux64 :=
  @mk_state Sim.linux64 [] objs (Sim.mk_world 3 sts [] []) [].

Definition sim_open (sts : list apr_status_t) : lua_State Sim.linux64 :=
  sim_state [sim_socket (Some 1%nat) (Some 2%nat)] sts.

Definition sim_closed : lua_State Sim.linux64 :=
  sim_state [sim_socket None None] [].

(** [sim_open []] after a [close] of object 0. *)
Definition sim_after_close : lua_State Sim.linux64 :=
  @mk_state Sim.linux64 [] [sim_socket None None] (Sim.mk_world 3 [] [] [])
    [EvSocketClose 2%nat 0; EvPoolDestroy 1%nat].

(** ** A small program logic

    [wp m Q R L]: run from [L], the command [m] ends in a state that
    satisfies [Q] with its result, or raises into a state that satisfies
    [R].  Undefined behaviour promises nothing. *)
Definition wp {E : Env} {A : Type} (m : M E A)
  (Q : A -> lua_State E -> Prop) (R : lua_error -> lua_State E -> Prop)
  (L : lua_State E) : Prop :=
  match m L with
  | Ok a L' => Q a L'
  | Raise e L' => R e L'
  | Undefined => True
  end.

(** The heap, the world and the trace of [L'] are those of [L]: only the
    stack frame may differ. *)
Definition same_store {E : Env} (L L' : lua_State E) : Prop :=
  heap L' = heap L /\ lworld L' = lworld L /\ trace L' = trace L.

(** [m] touches the stack frame only. *)
Definition stack_only {E : Env} {A : Type} (m : M E A) : Prop :=
  forall L, wp m (fun _ => same_store L) (fun _ => same_store L) L.

(** [m] keeps the family and protocol of every object there is. *)
Definition keeps {E : Env} {A : Type} (m : M E A) : Prop :=
  forall L0 L, kinds_kept L0 L ->
    wp m (fun _ => kinds_kept L0) (fun _ => kinds_kept L0) L.

(** The contract of the native socket creation the binding relies on:
    a successful [apr_socket_create] has set the socket pointer. *)
Definition creates_socket (E : Env) : Prop :=
  forall f t p pl w st h w',
    apr_socket_create E f t p pl w = (st, h, w') -> st = APR_SUCCESS -> h <> None.

(** What [apr.socket_create] leaves on its frame: the new handle, open,
    or nil and a message. *)
Definition created (E : Env) (n : nat) (L' : lua_State E) : Prop :=
  (n = 1%nat /\ exists stk c o h,
      stack L' = stk ++ [LSocket c] /\ heap L' !! c = Some o /\ handle o = Some h)
  \/ (n = 2%nat /\ exists stk msg, stack L' = stk ++ [LNil; LString msg]).

(** The simulation after [apr.socket_create()] on its initial world. *)
Definition sim_created : lua_State Sim.linux64 :=
  @mk_state Sim.linux64 [] [sim_socket (Some 1%nat) (Some 2%nat)]
    (Sim.mk_world 3 [] [] [])
    [EvPoolCreate 0 (Some 1%nat);
     EvSocketCreate 2 1 6 (Some 1%nat) 0 (Some 2%nat);
     EvInitBuffers (Some 2%nat)].

(** [sim_open []] after an [accept] on object 0. *)
Definition sim_accepted : lua_State Sim.linux64 :=
  @mk_state Sim.linux64 []
    [sim_socket (Some 1%nat) (Some 2%nat); sim_socket (Some 3%nat) (Some 4%nat)]
    (Sim.mk_world 5 [] [] [])
    [EvPoolCreate 0 (Some 3%nat);
     EvAccept (Some 2%nat) (Some 3%nat) 0 (Some 4%nat);
     EvInitBuffers (Some 4%nat)].

(** The results [push_status] leaves for a native status. *)
Definition status_results (E : Env) (st : apr_status_t) : list lua_value :=
  if st =? APR_SUCCESS then [LBoolean true]
  else [LNil; LString (apr_strerror E st)].

(** The native timeout [timeout_set] derives from its argument: a number,
    or a string that converts to one, is converted to an integer; any
    other value counts by its truthiness.  [None]: the number does not
    fit [lua_Integer]. *)
Definition timeout_argument (E : Env) (v : option lua_value) : option Z :=
  match tonumber E v with
  | Some d => lua_number2integer E d
  | None => Some (if truthy v then -1 else 0)
  end.

(** The contract of the native timeout the round trip relies on: what a
    successful [apr_socket_timeout_set] stored is what
    [apr_socket_timeout_get] reads back. *)
Definition stores_timeout (E : Env) : Prop :=
  forall s t w w',
    apr_socket_timeout_set E (Some s) t w = (APR_SUCCESS, w') ->
    exists w'', apr_socket_timeout_get E (Some s) w' = (APR_SUCCESS, t, w'').

(** The values the round trip of the timeout is about, each with the
    native timeout it stands for: true and forever, false and immediate,
    and a positive integer.  A Lua number is a double, so the integer is
    one a double holds; and it fits [lua_Integer], the type
    [luaL_checkinteger] converts it to. *)
Inductive timeout_value (E : Env) : lua_value -> Z -> Prop :=
| timeout_forever : timeout_value E (LBoolean true) (-1)
| timeout_immediate : timeout_value E (LBoolean false) 0
| timeout_microseconds n :
    0 < n ->
    fits_signed (bits (LUA_INTEGER E)) n = true ->
    double_of_Z n = n ->
    timeout_value E (LNumber (inject_Z n)) n.



(** The functions that take a family token, as their second argument. *)
Definition family_entry_points (E : Env) : list (luaL_reg E) :=
  [("socket_create", lua_apr_socket_create E);
   ("host_to_addr", lua_apr_host_to_addr E);
   ("addr_to_host", lua_apr_addr_to_host E)].

(** The constant of a protocol token, and the socket type that
    [apr.socket_create] derives from the protocol. *)
Definition protocol_constant (E : Env) (token : string) : Z :=
  if String.eqb token "udp" then APR_PROTO_UDP E else APR_PROTO_TCP E.

Definition socket_type (E : Env) (protocol : Z) : Z :=
  if protocol =? APR_PROTO_TCP E then SOCK_STREAM E else SOCK_DGRAM E.

(** The parameter error of an invalid option token. *)
Definition invalid_option (narg : nat) (token : string) : lua_error :=
  ErrArg narg ("invalid option '" ++ token ++ "'").

(** ** Vocabulary of the further properties *)

(** The object after the teardown routine: descriptor and arena null,
    everything else as it was. *)
Definition closed_object {E : Env} (o : lua_apr_socket E) : lua_apr_socket E :=
  set_pool None (set_handle None o).

(** What the teardown routine asks of the native layer for an object:
    the close of its socket, if it has one, then the destruction of its
    pool, if it has one. *)
Definition teardown_close (E : Env) (o : lua_apr_socket E) (w : world E)
  : apr_status_t * world E :=
  match handle o with
  | Some h => apr_socket_close E h w
  | None => (APR_SUCCESS, w)
  end.

Definition teardown_world (E : Env) (o : lua_apr_socket E) (w : world E)
  : world E :=
  match pool o with
  | Some p => apr_pool_destroy E p (snd (teardown_close E o w))
  | None => snd (teardown_close E o w)
  end.

Definition teardown_events (E : Env) (o : lua_apr_socket E) (w : world E)
  : list event :=
  match handle o with
  | Some h => [EvSocketClose h (fst (apr_socket_close E h w))]
  | None => []
  end
  ++ match pool o with
     | Some p => [EvPoolDestroy p]
     | None => []
     end.

(** The state a call leaves when it changed object [r] to [o'], the
    world to [w] and added [events] to the trace. *)
Definition after_call {E : Env} (L : lua_State E) (r : nat)
  (o' : lua_apr_socket E) (w : world E) (events : list event) : lua_State E :=
  mk_state (stack L) (<[r := o']> (heap L)) w (trace L ++ events).

(** The value [timeout_get] shows for a native timeout that fits
    [lua_Integer]. *)
Definition timeout_shown (t : Z) : lua_value :=
  if t <? 0 then LBoolean true
  else if t =? 0 then LBoolean false
  else LNumber (inject_Z (double_of_Z t)).

(** Every object of [L] other than [r] is the same in [L'], and no
    object was added or dropped. *)
Definition others_kept {E : Env} (r : nat) (L L' : lua_State E) : Prop :=
  length (heap L') = length (heap L)
  /\ forall r', r' <> r -> heap L' !! r' = heap L !! r'.

(** [m] writes to no object but [r]. *)
Definition only {E : Env} {A : Type} (r : nat) (m : M E A) : Prop :=
  forall L, wp m (fun _ => others_kept r L) (fun _ => others_kept r L) L.

(** [m] leaves the heap of socket objects as it is. *)
Definition heap_fixed {E : Env} {A : Type} (m : M E A) : Prop :=
  forall L,
    wp m (fun _ L' => heap L' = heap L) (fun _ L' => heap L' = heap L) L.

(** The methods and metamethods that work on the handle they are called
    on; [accept] is the one method that makes another object. *)
Definition own_object_methods (E : Env) : list (luaL_reg E) :=
  List.filter (fun r => negb (String.eqb (fst r) "accept"))
    (socket_methods E ++ socket_metamethods E).

(** The functions of the module that take no handle. *)
Definition utility_functions (E : Env) : list (luaL_reg E) :=
  [("hostname_get", lua_apr_hostname_get E);
   ("host_to_addr", lua_apr_host_to_addr E);
   ("addr_to_host", lua_apr_addr_to_host E)].

(** What [apr.socket_create] comes to once its two tokens are checked,
    for the family and protocol constants they gave: the pool, then the
    socket when there is a pool, then the buffers when there is a socket. *)
Definition create_outcome (E : Env) (L : lua_State E) (fam proto : Z)
  : outcome (lua_State E) (list lua_value) :=
  let '(st, p, w) := apr_pool_create E (lworld L) in
  if st =? APR_SUCCESS then
    let '(st', h, w') :=
      apr_socket_create E fam (socket_type E proto) proto p w in
    if st' =? APR_SUCCESS then
      Ok [LSocket (length (heap L))]
        (mk_state (stack L)
           (heap L ++ [mk_socket (Some (fst (init_buffers E h 0)))
                         (Some (snd (init_buffers E h 0))) p h fam proto])
           w'
           (trace L ++ [EvPoolCreate st p;
                        EvSocketCreate fam (socket_type E proto) proto p st' h;
                        EvInitBuffers h]))
    else
      Ok [LNil; LString (apr_strerror E st')]
        (mk_state (stack L) (heap L ++ [mk_socket None None p h fam proto]) w'
           (trace L ++ [EvPoolCreate st p;
                        EvSocketCreate fam (socket_type E proto) proto p st' h]))
  else
    Ok [LNil; LString (apr_strerror E st)]
      (mk_state (stack L) (heap L ++ [mk_socket None None p None fam proto]) w
         (trace L ++ [EvPoolCreate st p])).

(** The interface the optional argument of [addr_get] stands for: the
    remote one when it is absent or nil, the named one for the two
    tokens.  [None]: not one of these. *)
Definition interface_argument (v : option lua_value) : option apr_interface_e :=
  match v with
  | None | Some LNil => Some APR_REMOTE
  | Some (LString s) =>
      if String.eqb s "local" then Some APR_LOCAL
      else if String.eqb s "remote" then Some APR_REMOTE
      else None
  | _ => None
  end.

(** The family an optional family argument stands for: [inet] when it is
    absent or nil, the constant of a supported token. *)
Inductive family_argument (E : Env) : option lua_value -> Z -> Prop :=
| family_absent : family_argument E None (APR_INET E)
| family_nil : family_argument E (Some LNil) (APR_INET E)
| family_token s :
    supported_family E s ->
    family_argument E (Some (LString s)) (family_constant E s).

(** The results of a call that formats what a native call answered:
    the value on success, nil and the message of the status otherwise. *)
Definition value_or_failure (E : Env) (st : apr_status_t) (v : lua_value)
  : list lua_value :=
  if st =? APR_SUCCESS then [v] else [LNil; LString (apr_strerror E st)].

(** The methods that configure or query a handle without writing to its
    object. *)
Definition configuration_methods (E : Env) : list (luaL_reg E) :=
  [("bind", socket_bind E);
   ("listen", socket_listen E);
   ("connect", socket_connect E);
   ("timeout_get", socket_timeout_get E);
   ("timeout_set", socket_timeout_set E);
   ("addr_get", socket_addr_get E);
   ("__tostring", socket_tostring E)].

(** * Properties *)

(** ** The monad and the stack frame *)

Lemma set_stack_restore (E : Env) (L : lua_State E) (a : list lua_value) :
  set_stack (set_stack L a) (stack L) = L.
Proof. destruct L; reflexivity. Qed.

Lemma index2adr_frame (E : Env) (L : lua_State E) (a : list lua_value) (i : nat) :
  index2adr (set_stack L a) (S i) = a !! i.
Proof. reflexivity. Qed.

(** ** socket_check *)

Section SocketCheck.

Context (E : Env).

Lemma socket_check_closed (L : lua_State E) i r o :
  index2adr L i = Some (LSocket r) ->
  heap L !! r = Some o -> handle o = None ->
  socket_check i true L = Raise closed_handle_error L.
Proof.
  intros Hi Hr Hh. unfold socket_check, bind, check_object, get_object.
  rewrite Hi, Hr, Hh. reflexivity.
Qed.

(** The check on a frame whose first argument is a socket handle. *)
Lemma socket_check_frame (L : lua_State E) r args open :
  socket_check 1 open (set_stack L (LSocket r :: args))
  = match heap L !! r with
    | Some o =>
        if open && (if handle o is None then true else false)
        then Raise closed_handle_error (set_stack L (LSocket r :: args))
        else Ok r (set_stack L (LSocket r :: args))
    | None => Undefined
    end.
Proof.
  unfold socket_check, bind, check_object, get_object. cbn.
  destruct (heap L !! r) as [o|]; [|reflexivity].
  destruct open, (handle o); reflexivity.
Qed.

(** Whatever follows the check of a closed handle is not run. *)
Lemma closed_check_stops {A} (k : nat -> M E A) (L : lua_State E) r o args :
  heap L !! r = Some o -> handle o = None ->
  bind (socket_check 1 true) k (set_stack L (LSocket r :: args))
  = Raise closed_handle_error (set_stack L (LSocket r :: args)).
Proof.
  intros Hr Hh. unfold bind at 1.
  rewrite (socket_check_closed _ 1 r o); auto.
Qed.

End SocketCheck.

(** C3. Once the native descriptor of a handle is null, each of connect,
    bind, listen, accept, read, write, lines, timeout_get, timeout_set and
    addr_get fails with the closed-handle condition.  The check comes
    first: the state after the call is the state before it, so nothing was
    asked of the native layer and nothing was freed. *)
Theorem closed_handle_rejected (E : Env) (name : string) (f : M E nat)
  (L : lua_State E) (r : nat) (o : lua_apr_socket E) (args : list lua_value) :
  In name io_operations ->
  lookup_reg name (socket_methods E) = Some f ->
  heap L !! r = Some o ->
  handle o = None ->
  lua_call E f (LSocket r :: args) L = Raise closed_handle_error L.
Proof.
  intros Hin Hf Hr Hh.
  assert (Hstop : f (set_stack L (LSocket r :: args))
                  = Raise closed_handle_error (set_stack L (LSocket r :: args))).
  { simpl in Hin.
    repeat (destruct Hin as [<- | Hin];
            [ injection Hf as <-; apply (closed_check_stops E _ L r o); assumption
            | ]).
    contradiction. }
  unfold lua_call. rewrite Hstop. now rewrite set_stack_restore.
Qed.

Lemma closed_handle_rejected_witness :
  lua_call Sim.linux64 (socket_listen Sim.linux64)
    [LSocket 0; LNumber (inject_Z 5)] sim_closed
  = Raise closed_handle_error sim_closed.
Proof.
  apply (closed_handle_rejected Sim.linux64 "listen" _ _ 0%nat
           (sim_socket None None)).
  - simpl. tauto.
  - reflexivity.
  - reflexivity.
  - reflexivity.
Defined.

(** ** Running commands *)

Ltac exec :=
  repeat progress
    (unfold modify_object, bind, ret, raise, undefined, get, get_object,
       native, deref, lua_pushnil, lua_pushboolean, lua_pushinteger,
       lua_pushstring, lua_push, luaL_error, set_heap, set_stack in *;
     cbn [stack heap lworld trace fst snd] in *).

Section Teardown.

Context (E : Env).

Lemma set_closed_id (o : lua_apr_socket E) :
  handle o = None -> pool o = None -> set_pool None (set_handle None o) = o.
Proof. destruct o; cbn; intros -> ->; reflexivity. Qed.

(** The teardown routine always returns, and leaves the object with a
    null descriptor and a null arena. *)
Lemma socket_close_impl_closes (L : lua_State E) r o :
  heap L !! r = Some o ->
  exists st w tr,
    socket_close_impl r L
    = Ok st (mk_state (stack L)
               (<[r := set_pool None (set_handle None o)]> (heap L)) w tr).
Proof.
  intros Hr. pose proof (lookup_lt_Some _ _ _ Hr) as Hlt.
  unfold socket_close_impl. exec. rewrite Hr.
  destruct (handle o) as [h|] eqn:Hh.
  - destruct (apr_socket_close E h (lworld L)) as [st w] eqn:Hc.
    exec. rewrite Hr. exec.
    rewrite list_lookup_insert_eq by exact Hlt.
    cbn [pool set_handle].
    destruct (pool o) as [p|] eqn:Hp; exec.
    + rewrite list_lookup_insert_eq by exact Hlt. exec.
      rewrite list_insert_insert_eq. eauto.
    + replace (set_pool None (set_handle None o)) with (set_handle None o); eauto.
      destruct o; cbn in *; subst; reflexivity.
  - rewrite Hr. destruct (pool o) as [p|] eqn:Hp; exec.
    + rewrite Hr.
      replace (set_pool None (set_handle None o)) with (set_pool None o); eauto.
      destruct o; cbn in *; subst; reflexivity.
    + rewrite set_closed_id by assumption. rewrite list_insert_id by assumption.
      destruct L; eauto.
Qed.

(** On an object that is already closed the teardown routine does
    nothing: no native close, no pool destroy, status success. *)
Lemma socket_close_impl_idle (L : lua_State E) r o :
  heap L !! r = Some o -> handle o = None -> pool o = None ->
  socket_close_impl r L = Ok APR_SUCCESS L.
Proof.
  intros Hr Hh Hp. unfold socket_close_impl. exec.
  rewrite Hr, Hh, Hr, Hp. reflexivity.
Qed.

(** After [close] has returned, the object is closed. *)
Lemma socket_close_closes (L L1 : lua_State E) r args res :
  lua_call E (socket_close E) (LSocket r :: args) L = Ok res L1 ->
  exists o1, heap L1 !! r = Some o1 /\ handle o1 = None /\ pool o1 = None.
Proof.
  unfold lua_call, socket_close. unfold bind at 1.
  rewrite socket_check_frame.
  destruct (heap L !! r) as [o|] eqn:Hr; [|discriminate].
  destruct (handle o) as [h|] eqn:Hh; cbn [andb]; [|discriminate].
  destruct (socket_close_impl_closes (set_stack L (LSocket r :: args)) r o Hr)
    as (st & w & tr & Himpl).
  unfold bind. rewrite Himpl.
  pose proof (lookup_lt_Some _ _ _ Hr) as Hlt.
  unfold push_status, push_error_status. exec.
  destruct (st =? APR_SUCCESS); exec; intros [= <- <-]; cbn [heap];
    rewrite list_lookup_insert_eq by exact Hlt; eauto.
Qed.

End Teardown.

(** C1, as stated, fails: on a socket that [close] has just closed with
    success, the second [close] raises the closed-handle error instead of
    returning true. *)
Lemma second_close_counterexample :
  exists L1,
    lua_call Sim.linux64 (socket_close Sim.linux64) [LSocket 0] (sim_open [])
    = Ok [LBoolean true] L1
    /\ lua_call Sim.linux64 (socket_close Sim.linux64) [LSocket 0] L1
       = Raise closed_handle_error L1
    /\ forall L2,
         lua_call Sim.linux64 (socket_close Sim.linux64) [LSocket 0] L1
         <> Ok [LBoolean true] L2.
Proof.
  eexists. split; [reflexivity|]. split; [reflexivity|]. intros L2; discriminate.
Qed.

(** C1 (amended). On a handle that [close] has closed, a second [close]
    raises the closed-handle error before the teardown routine is
    reached and leaves the state as it was: no native call, nothing freed
    twice.  The teardown routine itself is idempotent: the finalizer,
    which runs it without the check, returns on the closed handle without
    touching the native layer. *)
Theorem close_after_close (E : Env) (L L1 : lua_State E) (r : nat)
  (args res : list lua_value) :
  lua_call E (socket_close E) (LSocket r :: args) L = Ok res L1 ->
  (forall args',
     lua_call E (socket_close E) (LSocket r :: args') L1
     = Raise closed_handle_error L1)
  /\ lua_call E (socket_gc E) [LSocket r] L1 = Ok [] L1.
Proof.
  intros Hclose.
  destruct (socket_close_closes E L L1 r args res Hclose) as (o1 & Hr & Hh & Hp).
  split.
  - intros args'. unfold lua_call, socket_close.
    rewrite (closed_check_stops E _ L1 r o1) by assumption.
    now rewrite set_stack_restore.
  - unfold lua_call, socket_gc. unfold bind at 1.
    rewrite socket_check_frame, Hr. cbn [andb].
    unfold bind. rewrite (socket_close_impl_idle E _ r o1) by assumption.
    unfold ret. cbn [stack set_stack length Nat.sub drop].
    now destruct L1.
Qed.

Lemma close_after_close_witness :
  (forall args',
     lua_call Sim.linux64 (socket_close Sim.linux64) (LSocket 0 :: args')
       sim_after_close
     = Raise closed_handle_error sim_after_close)
  /\ lua_call Sim.linux64 (socket_gc Sim.linux64) [LSocket 0] sim_after_close
     = Ok [] sim_after_close.
Proof.
  apply (close_after_close Sim.linux64 (sim_open []) sim_after_close 0%nat []
           [LBoolean true]).
  reflexivity.
Defined.

(** ** Allocation *)

Section Allocation.

Context (E : Env).

Lemma lookup_fresh {A} (l : list A) (x : A) : (l ++ [x]) !! length l = Some x.
Proof. now apply list_lookup_middle. Qed.

Lemma insert_fresh {A} (l : list A) (x y : A) :
  <[length l := y]> (l ++ [x]) = l ++ [y].
Proof. rewrite insert_app_r_alt by lia. now rewrite Nat.sub_diag. Qed.

(** [socket_alloc] appends one object to the heap, with the family and
    protocol it was given and the pool the native layer answered. *)
Lemma socket_alloc_run (L : lua_State E) fam proto objptr st p w :
  apr_pool_create E (lworld L) = (st, p, w) ->
  socket_alloc E fam proto objptr L
  = Ok (st, if st =? APR_SUCCESS then Some (length (heap L)) else objptr)
      (mk_state (stack L ++ [LSocket (length (heap L))])
         (heap L ++ [mk_socket None None p None fam proto]) w
         (trace L ++ [EvPoolCreate st p])).
Proof.
  intros Hp. unfold socket_alloc, new_object. exec.
  rewrite lookup_fresh. exec. rewrite insert_fresh, lookup_fresh. exec.
  rewrite Hp. exec. rewrite insert_fresh, lookup_fresh. exec.
  rewrite insert_fresh. reflexivity.
Qed.

End Allocation.

(** ** accept *)

Section Accept.

Context (E : Env).

Lemma top_results {A} (l k : list A) (n : nat) :
  n = length k -> drop (length (l ++ k) - n) (l ++ k) = k.
Proof.
  intros ->. rewrite length_app, Nat.add_sub. apply drop_app_length.
Qed.

Lemma socket_init_unassigned (L : lua_State E) : socket_init None L = Undefined.
Proof. reflexivity. Qed.

(** [accept] when the client object could be allocated: the native accept
    is asked once, the buffers are set on the client object whatever it
    answered, and only then is its status looked at. *)
Lemma socket_accept_run (L : lua_State E) r o h args p w st c w' :
  heap L !! r = Some o -> handle o = Some h ->
  apr_pool_create E (lworld L) = (APR_SUCCESS, p, w) ->
  apr_socket_accept E (Some h) p w = (st, c, w') ->
  lua_call E (socket_accept E) (LSocket r :: args) L
  = Ok (if st =? APR_SUCCESS then [LSocket (length (heap L))]
        else [LNil; LString (apr_strerror E st)])
      (mk_state (stack L)
         (heap L ++ [mk_socket (Some (fst (init_buffers E c 0)))
                       (Some (snd (init_buffers E c 0)))
                       p c (family o) (protocol o)])
         w'
         (trace L ++ [EvPoolCreate APR_SUCCESS p; EvAccept (Some h) p st c;
                      EvInitBuffers c])).
Proof.
  intros Hr Hh Hp Ha.
  unfold lua_call, socket_accept. unfold bind at 1.
  rewrite socket_check_frame, Hr, Hh. cbn [andb].
  unfold bind at 1. unfold get_object at 1. cbn [heap set_stack]. rewrite Hr.
  unfold bind at 1.
  rewrite (socket_alloc_run E _ _ _ _ APR_SUCCESS p w) by exact Hp.
  cbn [fst snd Z.eqb APR_SUCCESS stack heap lworld trace].
  unfold socket_init. exec.
  rewrite (lookup_app_l_Some _ _ _ _ Hr). exec.
  rewrite lookup_fresh. exec. cbn [handle pool]. rewrite Hh, Ha. exec.
  rewrite lookup_fresh. exec. rewrite insert_fresh, lookup_fresh. exec.
  rewrite lookup_fresh. exec. rewrite insert_fresh. 
  unfold set_buffers, set_handle.
  cbn [handle pool input output family protocol].
  unfold push_error_status.
  destruct (st =? APR_SUCCESS); cbn [negb]; exec; f_equal.
  - now apply top_results.
  - f_equal. now rewrite <- !app_assoc.
  - rewrite <- app_assoc. now apply top_results.
  - f_equal. now rewrite <- !app_assoc.
Qed.

(** When the native accept fails, [accept] answers nil and the message of
    the status; the client object stays in the heap, with its buffers
    set, but is not among the results. *)
Lemma accept_native_failure (L : lua_State E) r o h args p w st c w' :
  heap L !! r = Some o -> handle o = Some h ->
  apr_pool_create E (lworld L) = (APR_SUCCESS, p, w) ->
  apr_socket_accept E (Some h) p w = (st, c, w') ->
  st <> APR_SUCCESS ->
  exists L',
    lua_call E (socket_accept E) (LSocket r :: args) L
    = Ok [LNil; LString (apr_strerror E st)] L'
    /\ trace L' = trace L ++ [EvPoolCreate APR_SUCCESS p;
                              EvAccept (Some h) p st c; EvInitBuffers c].
Proof.
  intros Hr Hh Hp Ha Hst.
  rewrite (socket_accept_run L r o h args p w st c w') by assumption.
  apply Z.eqb_neq in Hst. rewrite Hst. eauto.
Qed.

End Accept.

(** When the client object cannot be allocated, [client] is never
    assigned and [socket_init] uses it all the same. *)
Lemma socket_accept_unassigned (E : Env) (L : lua_State E) r o h args st p w :
  heap L !! r = Some o -> handle o = Some h ->
  apr_pool_create E (lworld L) = (st, p, w) -> st <> APR_SUCCESS ->
  lua_call E (socket_accept E) (LSocket r :: args) L = Undefined.
Proof.
  intros Hr Hh Hp Hst.
  unfold lua_call, socket_accept. unfold bind at 1.
  rewrite socket_check_frame, Hr, Hh. cbn [andb].
  unfold bind at 1. unfold get_object at 1. cbn [heap set_stack]. rewrite Hr.
  unfold bind at 1.
  rewrite (socket_alloc_run E _ _ _ _ st p w) by exact Hp.
  apply Z.eqb_neq in Hst. rewrite Hst. cbn [fst snd].
  rewrite Hst. reflexivity.
Qed.

(** C2. When the allocation of the client object fails in [socket_alloc],
    the variable [client] of [socket_accept] is never assigned, and the
    unconditional [socket_init] uses it: the call has no defined result,
    where the specification promises nil and a message. *)
Theorem accept_alloc_failure_undefined (E : Env) (L : lua_State E) (r : nat)
  (o : lua_apr_socket E) (h : apr_socket_t) (args : list lua_value)
  (st : apr_status_t) (p : option apr_pool_t) (w : world E) :
  heap L !! r = Some o ->
  handle o = Some h ->
  apr_pool_create E (lworld L) = (st, p, w) ->
  st <> APR_SUCCESS ->
  lua_call E (socket_accept E) (LSocket r :: args) L = Undefined.
Proof. apply socket_accept_unassigned. Qed.

Lemma accept_alloc_failure_undefined_witness :
  lua_call Sim.linux64 (socket_accept Sim.linux64) [LSocket 0] (sim_open [12])
  = Undefined.
Proof.
  apply (accept_alloc_failure_undefined Sim.linux64 (sim_open [12]) 0%nat
           (sim_socket (Some 1%nat) (Some 2%nat)) 2%nat [] 12 None
           (Sim.mk_world 3 [] [] [])).
  - reflexivity.
  - reflexivity.
  - reflexivity.
  - discriminate.
Defined.

(** ** Rules of the program logic *)

Section Logic.

Context {E : Env}.

Lemma wp_ret {A} (a : A) Q R (L : lua_State E) : Q a L -> wp (ret a) Q R L.
Proof. auto. Qed.

Lemma wp_bind {A B} (m : M E A) (k : A -> M E B) Q R (L : lua_State E) :
  wp m (fun a => wp (k a) Q R) R L -> wp (bind m k) Q R L.
Proof. unfold wp, bind. destruct (m L); auto. Qed.

Lemma wp_mono {A} (m : M E A) (Q Q' : A -> lua_State E -> Prop) R R' L :
  wp m Q R L ->
  (forall a L', Q a L' -> Q' a L') ->
  (forall e L', R e L' -> R' e L') ->
  wp m Q' R' L.
Proof. unfold wp. destruct (m L); auto. Qed.

Lemma wp_raise {A} e (Q : A -> lua_State E -> Prop) R L :
  R e L -> wp (raise e) Q R L.
Proof. auto. Qed.

Lemma wp_undefined {A} (Q : A -> lua_State E -> Prop) R L : wp undefined Q R L.
Proof. exact I. Qed.

Lemma wp_native {A} (f : world E -> A * world E) ev Q R (L : lua_State E) :
  (forall a w, f (lworld L) = (a, w) ->
     Q a (mk_state (stack L) (heap L) w (trace L ++ [ev a]))) ->
  wp (native f ev) Q R L.
Proof. unfold wp, native. destruct (f (lworld L)); auto. Qed.

Lemma wp_get_object r Q R (L : lua_State E) :
  (forall o, heap L !! r = Some o -> Q o L) -> wp (get_object r) Q R L.
Proof. unfold wp, get_object. destruct (heap L !! r); auto. Qed.

Lemma wp_modify_object r f Q R (L : lua_State E) :
  (forall o, heap L !! r = Some o -> Q tt (set_heap L (<[r := f o]> (heap L)))) ->
  wp (modify_object r f) Q R L.
Proof.
  intros H. unfold modify_object. apply wp_bind, wp_get_object.
  intros o Ho. now apply H.
Qed.

(** same_store is an equivalence, and kinds_kept a preorder that it
    refines. *)
Lemma same_store_refl (L : lua_State E) : same_store L L.
Proof. repeat split. Qed.

Lemma same_store_trans (L1 L2 L3 : lua_State E) :
  same_store L1 L2 -> same_store L2 L3 -> same_store L1 L3.
Proof. unfold same_store. intros (-> & -> & ->) (-> & -> & ->). auto. Qed.

Lemma same_store_set_stack (L : lua_State E) stk : same_store L (set_stack L stk).
Proof. repeat split. Qed.

Lemma kinds_kept_refl (L : lua_State E) : kinds_kept L L.
Proof. intros r o Hr. eauto. Qed.

Lemma kinds_kept_trans (L1 L2 L3 : lua_State E) :
  kinds_kept L1 L2 -> kinds_kept L2 L3 -> kinds_kept L1 L3.
Proof.
  intros H12 H23 r o Hr.
  destruct (H12 r o Hr) as (o2 & Hr2 & Hf2 & Hp2).
  destruct (H23 r o2 Hr2) as (o3 & Hr3 & Hf3 & Hp3).
  exists o3. repeat split; congruence.
Qed.

Lemma kinds_kept_heap (L L' : lua_State E) : heap L' = heap L -> kinds_kept L L'.
Proof. intros Hh r o Hr. rewrite Hh. eauto. Qed.

Lemma same_store_kinds (L L' : lua_State E) : same_store L L' -> kinds_kept L L'.
Proof. intros (Hh & _). now apply kinds_kept_heap. Qed.

(** A write through a pointer that leaves family and protocol alone. *)
Lemma kinds_kept_insert (L : lua_State E) r o f :
  heap L !! r = Some o ->
  family (f o) = family o -> protocol (f o) = protocol o ->
  kinds_kept L (set_heap L (<[r := f o]> (heap L))).
Proof.
  intros Hr Hf Hp r' o' Hr'. cbn [heap set_heap].
  destruct (decide (r = r')) as [<- | Hne].
  - rewrite list_lookup_insert_eq by (eapply lookup_lt_Some; eauto).
    exists (f o). repeat split; congruence.
  - rewrite list_lookup_insert_ne by exact Hne. eauto.
Qed.

(** A new object at the end of the heap. *)
Lemma kinds_kept_app (L L' : lua_State E) objs :
  heap L' = heap L ++ objs -> kinds_kept L L'.
Proof.
  intros Hh r o Hr. rewrite Hh, (lookup_app_l_Some _ _ _ _ Hr). eauto.
Qed.

End Logic.

(** ** Commands that touch the stack frame only *)

Section StackOnly.

Context {E : Env}.

Lemma stack_only_ret {A} (a : A) : stack_only (E:=E) (ret a).
Proof. intros L. apply same_store_refl. Qed.

Lemma stack_only_bind {A B} (m : M E A) (k : A -> M E B) :
  stack_only m -> (forall a, stack_only (k a)) -> stack_only (bind m k).
Proof.
  intros Hm Hk L. apply wp_bind. eapply wp_mono; [apply Hm | | auto].
  cbn beta. intros a L' HL. eapply wp_mono; [apply Hk | |];
    cbn beta; eauto using same_store_trans.
Qed.

Lemma stack_only_raise {A} e : stack_only (E:=E) (A:=A) (raise e).
Proof. intros L. apply same_store_refl. Qed.

Lemma stack_only_undefined {A} : stack_only (E:=E) (A:=A) undefined.
Proof. intros L. exact I. Qed.

Lemma stack_only_push v : stack_only (E:=E) (lua_push v).
Proof. intros L. apply same_store_set_stack. Qed.

Lemma stack_only_typerror {A} n t : stack_only (E:=E) (A:=A) (luaL_typerror n t).
Proof. intros L. apply same_store_refl. Qed.

Lemma stack_only_isnumber n : stack_only (E:=E) (lua_isnumber n).
Proof. intros L. apply same_store_refl. Qed.

Lemma stack_only_isnoneornil n : stack_only (E:=E) (lua_isnoneornil n).
Proof. intros L. apply same_store_refl. Qed.

Lemma stack_only_toboolean n : stack_only (E:=E) (lua_toboolean n).
Proof. intros L. apply same_store_refl. Qed.

Lemma stack_only_tointeger n : stack_only (E:=E) (lua_tointeger n).
Proof.
  intros L. unfold wp, lua_tointeger.
  destruct (tonumber E (index2adr L n)) as [d|]; [|apply same_store_refl].
  destruct (lua_number2integer E d); [apply same_store_refl | exact I].
Qed.

Lemma stack_only_tolstring n : stack_only (E:=E) (lua_tolstring n).
Proof.
  intros L. unfold wp, lua_tolstring.
  destruct (index2adr L n) as [[]|];
    first [apply same_store_refl | apply same_store_set_stack].
Qed.

Lemma stack_only_check_object n : stack_only (E:=E) (check_object n).
Proof.
  intros L. unfold wp, check_object.
  destruct (index2adr L n) as [[]|]; apply same_store_refl.
Qed.

Lemma stack_only_get_object r : stack_only (E:=E) (get_object r).
Proof. intros L. apply wp_get_object. intros; apply same_store_refl. Qed.

Lemma stack_only_array_get {A} (l : list A) i : stack_only (E:=E) (array_get l i).
Proof.
  unfold array_get. destruct (l !! i);
    [apply stack_only_ret | apply stack_only_undefined].
Qed.

End StackOnly.

Create HintDb frame discriminated.

#[export] Hint Resolve stack_only_ret stack_only_raise stack_only_undefined
  stack_only_push stack_only_typerror stack_only_isnumber
  stack_only_isnoneornil stack_only_toboolean stack_only_tointeger
  stack_only_tolstring stack_only_check_object stack_only_get_object
  stack_only_array_get : frame.

(** Walk a command along its binds and case distinctions. *)
Ltac frame_walk :=
  repeat first
    [ progress eauto with frame
    | apply stack_only_bind; [ | intros ? ]
    | match goal with
      | |- stack_only (if ?b then _ else _) => destruct b
      | |- stack_only (match ?x with _ => _ end) => destruct x
      end ].

Section StackOnlyAPI.

Context {E : Env}.

Lemma stack_only_checkinteger n : stack_only (E:=E) (luaL_checkinteger n).
Proof. unfold luaL_checkinteger. frame_walk. Qed.

Lemma stack_only_checkstring n : stack_only (E:=E) (luaL_checkstring n).
Proof. unfold luaL_checkstring. frame_walk. Qed.

Lemma stack_only_optstring n d : stack_only (E:=E) (luaL_optstring n d).
Proof.
  unfold luaL_optstring. frame_walk; try apply stack_only_checkstring.
Qed.

Lemma stack_only_checkoption n d l : stack_only (E:=E) (luaL_checkoption n d l).
Proof.
  unfold luaL_checkoption, luaL_argerror. frame_walk;
    auto using stack_only_optstring, stack_only_checkstring with frame.
Qed.

Lemma stack_only_family_check n : stack_only (family_check E n).
Proof.
  unfold family_check. frame_walk; try apply stack_only_checkoption.
Qed.

Lemma stack_only_socket_check n open : stack_only (E:=E) (socket_check n open).
Proof. unfold socket_check, luaL_error. frame_walk. Qed.

Lemma stack_only_push_error_status st : stack_only (E:=E) (push_error_status st).
Proof.
  unfold push_error_status, lua_pushnil, lua_pushstring. frame_walk.
Qed.

Lemma stack_only_push_status st : stack_only (E:=E) (push_status st).
Proof.
  unfold push_status, lua_pushboolean. frame_walk;
    try apply stack_only_push_error_status.
Qed.

End StackOnlyAPI.

#[export] Hint Resolve stack_only_checkinteger stack_only_checkstring
  stack_only_optstring stack_only_checkoption stack_only_family_check
  stack_only_socket_check stack_only_push_error_status
  stack_only_push_status : frame.

(** ** Family and protocol are never written after creation *)

Section Keeps.

Context {E : Env}.

Lemma keeps_stack_only {A} (m : M E A) : stack_only m -> keeps m.
Proof.
  intros Hm L0 L HL. eapply wp_mono; [apply Hm | |]; cbn beta;
    eauto using kinds_kept_trans, same_store_kinds.
Qed.

Lemma keeps_ret {A} (a : A) : keeps (E:=E) (ret a).
Proof. intros L0 L HL. exact HL. Qed.

Lemma keeps_bind {A B} (m : M E A) (k : A -> M E B) :
  keeps m -> (forall a, keeps (k a)) -> keeps (bind m k).
Proof.
  intros Hm Hk L0 L HL. apply wp_bind.
  eapply wp_mono; [apply (Hm L0 L HL) | | auto].
  cbn beta. intros a L' HL'. now apply Hk.
Qed.

Lemma keeps_undefined {A} : keeps (E:=E) (A:=A) undefined.
Proof. intros L0 L HL. exact I. Qed.

Lemma keeps_get : keeps (E:=E) get.
Proof. intros L0 L HL. exact HL. Qed.

Lemma keeps_native {A} (f : world E -> A * world E) ev : keeps (native f ev).
Proof.
  intros L0 L HL. apply wp_native. intros a w _.
  eapply kinds_kept_trans; [exact HL|]. now apply kinds_kept_heap.
Qed.

Lemma keeps_modify_object r (f : lua_apr_socket E -> lua_apr_socket E) :
  (forall o, family (f o) = family o /\ protocol (f o) = protocol o) ->
  keeps (modify_object r f).
Proof.
  intros Hf L0 L HL. apply wp_modify_object. intros o Ho.
  eapply kinds_kept_trans; [exact HL|].
  apply kinds_kept_insert; auto; apply Hf.
Qed.

Lemma keeps_deref p : keeps (E:=E) (deref p).
Proof. destruct p; [apply keeps_ret | apply keeps_undefined]. Qed.

Lemma keeps_engine {B} f ev (getb : lua_apr_socket E -> option B) setb object :
  (forall b o, family (setb b o) = family o /\ protocol (setb b o) = protocol o) ->
  keeps (engine f ev getb setb object).
Proof.
  intros Hs L0 L HL. unfold engine. apply wp_bind, wp_get_object. intros o Ho.
  destruct (getb o) as [b|]; [|exact I].
  unfold wp. destruct (f (stack L) b (lworld L)) as [[res b'] w].
  assert (Hk : forall stk tr,
             kinds_kept L0 (mk_state stk (<[object := setb b' o]> (heap L)) w tr)).
  { intros stk tr. eapply kinds_kept_trans; [exact HL|].
    intros r' o' Hr'. cbn [heap].
    destruct (decide (object = r')) as [<- | Hne].
    - rewrite list_lookup_insert_eq by (eapply lookup_lt_Some; eauto).
      exists (setb b' o). destruct (Hs b' o). repeat split; congruence.
    - rewrite list_lookup_insert_ne by exact Hne. eauto. }
  destruct res; apply Hk.
Qed.

(** Creation: the new object is appended, the others are not touched. *)
Lemma keeps_socket_alloc fam proto objptr : keeps (socket_alloc E fam proto objptr).
Proof.
  intros L0 L HL. unfold wp.
  destruct (apr_pool_create E (lworld L)) as [[st p] w] eqn:Hp.
  rewrite (socket_alloc_run E L fam proto objptr st p w Hp).
  eapply kinds_kept_trans; [exact HL|]. now eapply kinds_kept_app.
Qed.

End Keeps.

Create HintDb kinds discriminated.

#[export] Hint Resolve keeps_ret keeps_undefined keeps_get keeps_native
  keeps_deref keeps_socket_alloc : kinds.

#[export] Hint Extern 1 (keeps (get_object _)) =>
  apply keeps_stack_only, stack_only_get_object : kinds.
#[export] Hint Extern 1 (keeps (socket_check _ _)) =>
  apply keeps_stack_only, stack_only_socket_check : kinds.
#[export] Hint Extern 1 (keeps (push_status _)) =>
  apply keeps_stack_only, stack_only_push_status : kinds.
#[export] Hint Extern 1 (keeps (push_error_status _)) =>
  apply keeps_stack_only, stack_only_push_error_status : kinds.
#[export] Hint Extern 1 (keeps (luaL_checkstring _)) =>
  apply keeps_stack_only, stack_only_checkstring : kinds.
#[export] Hint Extern 1 (keeps (luaL_checkinteger _)) =>
  apply keeps_stack_only, stack_only_checkinteger : kinds.
#[export] Hint Extern 1 (keeps (luaL_checkoption _ _ _)) =>
  apply keeps_stack_only, stack_only_checkoption : kinds.
#[export] Hint Extern 1 (keeps (family_check _ _)) =>
  apply keeps_stack_only, stack_only_family_check : kinds.
#[export] Hint Extern 1 (keeps (array_get _ _)) =>
  apply keeps_stack_only, stack_only_array_get : kinds.
#[export] Hint Extern 1 (keeps (lua_isnumber _)) =>
  apply keeps_stack_only, stack_only_isnumber : kinds.
#[export] Hint Extern 1 (keeps (lua_toboolean _)) =>
  apply keeps_stack_only, stack_only_toboolean : kinds.
#[export] Hint Extern 1 (keeps (lua_push _)) =>
  apply keeps_stack_only, stack_only_push : kinds.
#[export] Hint Extern 1 (keeps (modify_object _ _)) =>
  apply keeps_modify_object; intros []; split; reflexivity : kinds.
#[export] Hint Extern 1 (keeps (engine _ _ _ _ _)) =>
  apply keeps_engine; intros ? []; split; reflexivity : kinds.

Ltac kinds_walk :=
  unfold lua_pushnil, lua_pushboolean, lua_pushinteger, lua_pushstring;
  repeat first
    [ progress eauto with kinds
    | apply keeps_bind; [ | intros ? ]
    | match goal with
      | |- keeps (if ?b then _ else _) => destruct b
      | |- keeps (match ?x with _ => _ end) => destruct x
      end ].

Section KeepsFunctions.

Context (E : Env).

Lemma keeps_socket_init p : keeps (socket_init (E:=E) p).
Proof. unfold socket_init. kinds_walk. Qed.

Lemma keeps_socket_close_impl r : keeps (socket_close_impl (E:=E) r).
Proof. unfold socket_close_impl. kinds_walk. Qed.

Lemma keeps_module_functions name f :
  In (name, f) (module_functions E) -> keeps f.
Proof.
  pose proof keeps_socket_init as Hinit.
  pose proof keeps_socket_close_impl as Himpl.
  intros Hin. cbn in Hin.
  repeat (destruct Hin as [[= <- <-] | Hin]; [ | ]); [ .. | contradiction ].
  - unfold lua_apr_socket_create. kinds_walk.
  - unfold lua_apr_hostname_get. kinds_walk.
  - unfold lua_apr_host_to_addr. kinds_walk.
  - unfold lua_apr_addr_to_host. kinds_walk.
  - unfold socket_bind. kinds_walk.
  - unfold socket_listen. kinds_walk.
  - unfold socket_accept. kinds_walk.
  - unfold socket_connect. kinds_walk.
  - unfold socket_read. kinds_walk.
  - unfold socket_write. kinds_walk.
  - unfold socket_lines. kinds_walk.
  - unfold socket_timeout_get. kinds_walk.
  - unfold socket_timeout_set. kinds_walk.
  - unfold socket_addr_get. kinds_walk.
  - unfold socket_close. kinds_walk.
  - unfold socket_tostring. kinds_walk.
  - unfold socket_gc. kinds_walk.
Qed.

End KeepsFunctions.

(** ** Handles made by accept *)

(** A call that returns a handle read it from an open server, allocated
    the client and had a successful native accept. *)
Lemma socket_accept_returns_handle (E : Env) (L L' : lua_State E) r o c args :
  heap L !! r = Some o ->
  lua_call E (socket_accept E) (LSocket r :: args) L = Ok [LSocket c] L' ->
  exists h p w hc w',
    handle o = Some h
    /\ apr_pool_create E (lworld L) = (APR_SUCCESS, p, w)
    /\ apr_socket_accept E (Some h) p w = (APR_SUCCESS, hc, w')
    /\ c = length (heap L)
    /\ L' = mk_state (stack L)
              (heap L ++ [mk_socket (Some (fst (init_buffers E hc 0)))
                            (Some (snd (init_buffers E hc 0)))
                            p hc (family o) (protocol o)])
              w'
              (trace L ++ [EvPoolCreate APR_SUCCESS p;
                           EvAccept (Some h) p APR_SUCCESS hc; EvInitBuffers hc]).
Proof.
  intros Hr Hcall.
  destruct (handle o) as [h|] eqn:Hh.
  2: { unfold lua_call, socket_accept in Hcall.
       rewrite (closed_check_stops E _ L r o) in Hcall by assumption.
       discriminate. }
  destruct (apr_pool_create E (lworld L)) as [[st p] w] eqn:Hp.
  destruct (Z.eq_dec st APR_SUCCESS) as [-> | Hst].
  2: { rewrite (socket_accept_unassigned E L r o h args st p w) in Hcall
         by assumption. discriminate. }
  destruct (apr_socket_accept E (Some h) p w) as [[st hc] w'] eqn:Ha.
  rewrite (socket_accept_run E L r o h args p w st hc w') in Hcall by assumption.
  destruct (st =? APR_SUCCESS) eqn:Hst; [|discriminate].
  apply Z.eqb_eq in Hst. subst st.
  injection Hcall as <- <-.
  exists h, p, w, hc, w'. auto.
Qed.

(** C5. A handle returned by [accept] is a new object, not the listening
    one; its arena is the pool created during this call; its family and
    protocol are those of the listening handle.  And no function of the
    module, however it ends, changes the family or the protocol of an
    object that exists. *)
Theorem family_and_protocol_fixed (E : Env) :
  (forall (L L' : lua_State E) r o c args,
     heap L !! r = Some o ->
     lua_call E (socket_accept E) (LSocket r :: args) L = Ok [LSocket c] L' ->
     c <> r /\ heap L !! c = None
     /\ exists co p events,
          heap L' !! c = Some co
          /\ family co = family o /\ protocol co = protocol o
          /\ pool co = p
          /\ trace L' = trace L ++ EvPoolCreate APR_SUCCESS p :: events)
  /\ (forall name f args (L : lua_State E),
        In (name, f) (module_functions E) ->
        match lua_call E f args L with
        | Ok _ L' | Raise _ L' => kinds_kept L L'
        | Undefined => True
        end).
Proof.
  split.
  - intros L L' r o c args Hr Hcall.
    destruct (socket_accept_returns_handle E L L' r o c args Hr Hcall)
      as (h & p & w & hc & w' & Hh & Hp & Ha & -> & ->).
    pose proof (lookup_lt_Some _ _ _ Hr) as Hlt.
    split; [lia|]. split; [now apply lookup_ge_None|].
    eexists _, p, _. cbn [heap trace]. rewrite lookup_fresh.
    repeat split; reflexivity.
  - intros name f args L Hin.
    pose proof (keeps_module_functions E name f Hin
                  (set_stack L args) (set_stack L args)
                  (kinds_kept_refl _)) as Hk.
    unfold wp in Hk. unfold lua_call.
    destruct (f (set_stack L args)) as [n L'|e L'|]; auto.
Qed.

Lemma family_and_protocol_fixed_witness :
  (1%nat <> 0%nat /\ heap (sim_open []) !! 1%nat = None
   /\ exists co p events,
        heap sim_accepted !! 1%nat = Some co
        /\ family co = 2 /\ protocol co = 6
        /\ pool co = p
        /\ trace sim_accepted
           = trace (sim_open []) ++ EvPoolCreate APR_SUCCESS p :: events)
  /\ kinds_kept (sim_open []) sim_accepted.
Proof.
  split.
  - exact (proj1 (family_and_protocol_fixed Sim.linux64) (sim_open [])
             sim_accepted 0%nat (sim_socket (Some 1%nat) (Some 2%nat)) 1%nat []
             eq_refl eq_refl).
  - exact (proj2 (family_and_protocol_fixed Sim.linux64) "accept"
             (socket_accept Sim.linux64) [LSocket 0] (sim_open [])
             ltac:(simpl; tauto)).
Defined.

(** ** describe *)

Section Describe.

Context (E : Env).

(** [__tostring] on any handle: no check of the descriptor, no native
    call, one string. *)
Lemma socket_tostring_run (L : lua_State E) r o args :
  heap L !! r = Some o ->
  lua_call E (socket_tostring E) (LSocket r :: args) L
  = Ok [LString (describe_text (if handle o is Some _ then true else false))] L.
Proof.
  intros Hr. unfold lua_call, socket_tostring. unfold bind at 1.
  rewrite socket_check_frame, Hr. cbn [andb]. exec. rewrite Hr. exec.
  rewrite (top_results (LSocket r :: args) [_] 1) by reflexivity.
  destruct L, (handle o); reflexivity.
Qed.

Lemma socket_create_created (L : lua_State E) :
  creates_socket E ->
  wp (lua_apr_socket_create E) (created E) (fun _ _ => True) L.
Proof.
  intros Hnative. unfold lua_apr_socket_create.
  apply wp_bind.
  eapply wp_mono; [apply stack_only_checkoption | | auto]. cbn beta.
  intros idx L1 _. apply wp_bind.
  eapply wp_mono; [apply stack_only_array_get | | auto]. cbn beta.
  intros proto L2 _. apply wp_bind.
  eapply wp_mono; [apply stack_only_family_check | | auto]. cbn beta.
  intros fam L3 _. unfold wp.
  destruct (apr_pool_create E (lworld L3)) as [[st p] w] eqn:Hp.
  unfold bind at 1. rewrite (socket_alloc_run E L3 fam proto None st p w Hp).
  cbn [fst snd].
  unfold push_error_status, socket_init.
  destruct (st =? APR_SUCCESS) eqn:Hst; exec.
  - rewrite lookup_fresh. exec. cbn [pool].
    destruct (apr_socket_create E fam _ proto p w) as [[st' h] w'] eqn:Hc.
    exec. rewrite lookup_fresh. exec. rewrite insert_fresh.
    destruct (st' =? APR_SUCCESS) eqn:Hst'; cbn [negb]; exec.
    + rewrite lookup_fresh. exec. rewrite lookup_fresh. exec.
      rewrite insert_fresh.
      apply Z.eqb_eq in Hst'.
      destruct h as [h|]; [|now destruct (Hnative _ _ _ _ _ _ _ _ Hc Hst')].
      left. split; [reflexivity|].
      eexists _, _, _, h. cbn [stack heap].
      split; [reflexivity|]. rewrite lookup_fresh. split; reflexivity.
    + right. split; [reflexivity|]. eexists _, _. cbn [stack].
      rewrite <- app_assoc. reflexivity.
  - rewrite Hst. cbn [negb]. exec.
    right. split; [reflexivity|]. eexists _, _. cbn [stack].
    rewrite <- app_assoc. reflexivity.
Qed.

(** A handle returned by [apr.socket_create] is open. *)
Lemma socket_create_opens (L L1 : lua_State E) args c :
  creates_socket E ->
  lua_call E (lua_apr_socket_create E) args L = Ok [LSocket c] L1 ->
  exists o h, heap L1 !! c = Some o /\ handle o = Some h.
Proof.
  intros Hnative. unfold lua_call.
  pose proof (socket_create_created (set_stack L args) Hnative) as Hwp.
  unfold wp in Hwp.
  destruct (lua_apr_socket_create E (set_stack L args)) as [n L'|e L'|];
    [|discriminate..].
  destruct Hwp as [(-> & stk & c' & o & h & Hstk & Hc & Hh)
                  |(-> & stk & msg & Hstk)]; rewrite Hstk.
  - rewrite (top_results stk [_] 1) by reflexivity.
    intros [= <- <-]. cbn [heap set_stack]. eauto.
  - rewrite (top_results stk [_; _] 2) by reflexivity. discriminate.
Qed.

End Describe.

(** C9. [describe] (the [__tostring] metamethod) returns a string for a
    handle in any state of its life, and does nothing else: the text says
    Open when the native descriptor is not null and Closed when it is.
    A handle just returned by [create] is described as open, a handle
    after [close] as closed. *)
Theorem describe_never_fails (E : Env) :
  (forall (L : lua_State E) r o,
     heap L !! r = Some o ->
     lua_call E (socket_tostring E) [LSocket r] L
     = Ok [LString (describe_text (if handle o is Some _ then true else false))] L)
  /\ (forall (L L1 : lua_State E) args c,
        creates_socket E ->
        lua_call E (lua_apr_socket_create E) args L = Ok [LSocket c] L1 ->
        lua_call E (socket_tostring E) [LSocket c] L1
        = Ok [LString "Open Lua/APR socket object"] L1)
  /\ (forall (L L1 : lua_State E) r args res,
        lua_call E (socket_close E) (LSocket r :: args) L = Ok res L1 ->
        lua_call E (socket_tostring E) [LSocket r] L1
        = Ok [LString "Closed Lua/APR socket object"] L1).
Proof.
  split; [|split].
  - intros L r o Hr. now apply socket_tostring_run.
  - intros L L1 args c Hnative Hcreate.
    destruct (socket_create_opens E L L1 args c Hnative Hcreate)
      as (o & h & Hc & Hh).
    rewrite (socket_tostring_run E L1 c o [] Hc), Hh. reflexivity.
  - intros L L1 r args res Hclose.
    destruct (socket_close_closes E L L1 r args res Hclose) as (o1 & Hr & Hh & _).
    rewrite (socket_tostring_run E L1 r o1 [] Hr), Hh. reflexivity.
Qed.

Lemma sim_creates_socket : creates_socket Sim.linux64.
Proof.
  intros f t p pl w st h w'. cbn. unfold Sim.allocating. destruct (Sim.answer w) as [st0 w0].
  destruct (st0 =? APR_SUCCESS) eqn:Hst0.
  - intros [= <- <- <-] _. discriminate.
  - intros [= <- <- <-] ->. discriminate.
Qed.

Lemma describe_never_fails_witness :
  lua_call Sim.linux64 (socket_tostring Sim.linux64) [LSocket 0] (sim_open [])
  = Ok [LString "Open Lua/APR socket object"] (sim_open [])
  /\ lua_call Sim.linux64 (socket_tostring Sim.linux64) [LSocket 0] sim_created
     = Ok [LString "Open Lua/APR socket object"] sim_created
  /\ lua_call Sim.linux64 (socket_tostring Sim.linux64) [LSocket 0] sim_after_close
     = Ok [LString "Closed Lua/APR socket object"] sim_after_close.
Proof.
  split; [|split].
  - exact (proj1 (describe_never_fails Sim.linux64) (sim_open []) 0%nat
             (sim_socket (Some 1%nat) (Some 2%nat)) eq_refl).
  - exact (proj1 (proj2 (describe_never_fails Sim.linux64))
             (Sim.start Sim.linux64 Sim.world0) sim_created [] 0%nat
             sim_creates_socket eq_refl).
  - exact (proj2 (proj2 (describe_never_fails Sim.linux64)) (sim_open [])
             sim_after_close 0%nat [] [LBoolean true] eq_refl).
Defined.

(** ** Integer conversions *)

Lemma fits_signed_range (b z : Z) :
  fits_signed b z = true <-> - 2 ^ (b - 1) <= z < 2 ^ (b - 1).
Proof. unfold fits_signed. rewrite andb_true_iff, Z.leb_le, Z.ltb_lt. tauto. Qed.

Lemma wrap_signed_fits (b z : Z) :
  0 < b -> fits_signed b z = true -> wrap_signed b z = z.
Proof.
  intros Hb Hf. apply fits_signed_range in Hf. unfold wrap_signed.
  assert (H2 : 2 ^ b = 2 * 2 ^ (b - 1)).
  { replace b with (Z.succ (b - 1)) at 1 by lia. apply Z.pow_succ_r. lia. }
  rewrite Z.mod_small by lia. lia.
Qed.

Lemma bits_pos (w : c_width) : 0 < bits w.
Proof. destruct w; reflexivity. Qed.

Lemma fits_lua_Integer_64 (w : c_width) (z : Z) :
  fits_signed (bits w) z = true -> fits_signed 64 z = true.
Proof.
  rewrite !fits_signed_range. destruct w; cbn [bits]; [|tauto].
  change (2 ^ (32 - 1)) with 2147483648.
  change (2 ^ (64 - 1)) with 9223372036854775808. lia.
Qed.

Lemma fits_32_lua_Integer (w : c_width) (z : Z) :
  fits_signed 32 z = true -> fits_signed (bits w) z = true.
Proof.
  rewrite !fits_signed_range. destruct w; cbn [bits]; [tauto|].
  change (2 ^ (32 - 1)) with 2147483648.
  change (2 ^ (64 - 1)) with 9223372036854775808. lia.
Qed.

Lemma lua_number2integer_inject (E : Env) (n : Z) :
  fits_signed (bits (LUA_INTEGER E)) n = true ->
  lua_number2integer E (inject_Z n) = Some n.
Proof.
  intros Hf. unfold lua_number2integer. cbn [inject_Z Qnum Qden].
  rewrite Z.quot_1_r, Hf. reflexivity.
Qed.

(** ** timeout_set and timeout_get *)

Section Timeout.

Context (E : Env).

(** The value [luaL_checkinteger] returns on an argument that
    [lua_isnumber] accepts. *)
Lemma luaL_checkinteger_number (L : lua_State E) i d n :
  tonumber E (index2adr L i) = Some d ->
  lua_number2integer E d = Some n ->
  luaL_checkinteger i L = Ok n L.
Proof.
  intros Hd Hn. unfold luaL_checkinteger, lua_tointeger, lua_isnumber. exec.
  rewrite Hd, Hn. cbn. rewrite Hd. cbn. now rewrite andb_false_r.
Qed.

Lemma luaL_checkinteger_overflow (L : lua_State E) i d :
  tonumber E (index2adr L i) = Some d ->
  lua_number2integer E d = None ->
  luaL_checkinteger i L = Undefined.
Proof.
  intros Hd Hn. unfold luaL_checkinteger, lua_tointeger. exec.
  now rewrite Hd, Hn.
Qed.

Lemma timeout_argument_fits v t :
  timeout_argument E v = Some t -> fits_signed 64 t = true.
Proof.
  unfold timeout_argument. destruct (tonumber E v) as [d|].
  - unfold lua_number2integer.
    destruct (fits_signed _ _) eqn:Hf; [|discriminate].
    intros [= <-]. eapply fits_lua_Integer_64; eauto.
  - intros [= <-]. now destruct (truthy v).
Qed.

(** [timeout_set] on an open handle: one native call, with the timeout
    derived from the argument, and the results of its status. *)
Lemma socket_timeout_set_run (L : lua_State E) r o h rest t st w :
  heap L !! r = Some o -> handle o = Some h ->
  timeout_argument E (rest !! 0%nat) = Some t ->
  apr_socket_timeout_set E (Some h) t (lworld L) = (st, w) ->
  lua_call E (socket_timeout_set E) (LSocket r :: rest) L
  = Ok (status_results E st)
      (mk_state (stack L) (heap L) w (trace L ++ [EvTimeoutSet (Some h) t st])).
Proof.
  intros Hr Hh Ht Hset.
  pose proof (timeout_argument_fits _ _ Ht) as Hfit.
  unfold lua_call, socket_timeout_set. unfold bind at 1.
  rewrite socket_check_frame, Hr, Hh. cbn [andb].
  unfold bind at 1. unfold lua_isnumber at 1.
  rewrite index2adr_frame. cbn [lookup list_lookup].
  unfold timeout_argument in Ht.
  assert (Hcoerce :
    (if tonumber E (rest !! 0%nat) is Some _
     then (n <- luaL_checkinteger 2;; ret (to_apr_interval_time_t n))
     else (b <- lua_toboolean 2;; ret (if b then -1 else 0)))
      (set_stack L (LSocket r :: rest))
    = Ok t (set_stack L (LSocket r :: rest))).
  { destruct (tonumber E (rest !! 0%nat)) as [d|] eqn:Hd.
    - unfold bind. rewrite (luaL_checkinteger_number _ 2 d t); auto.
      unfold ret, to_apr_interval_time_t.
      now rewrite wrap_signed_fits.
    - injection Ht as <-. unfold bind, lua_toboolean, ret, truthy.
      rewrite index2adr_frame. cbn [lookup list_lookup].
      destruct (rest !! 0%nat) as [[| [] | | | | | | |]|]; reflexivity. }
  destruct (tonumber E (rest !! 0%nat)) as [d|] eqn:Hd;
    unfold bind at 1; rewrite Hcoerce;
    exec; rewrite Hr; exec; cbn [handle]; rewrite Hh, Hset; exec;
    unfold push_status, push_error_status, status_results;
    destruct (st =? APR_SUCCESS); exec; f_equal;
    first [ now apply top_results
          | rewrite <- app_assoc; now apply top_results
          | now destruct L ].
Qed.

(** When the argument is a number that does not fit [lua_Integer], the
    conversion in [luaL_checkinteger] has no defined result. *)
Lemma socket_timeout_set_overflow (L : lua_State E) r o h rest :
  heap L !! r = Some o -> handle o = Some h ->
  timeout_argument E (rest !! 0%nat) = None ->
  lua_call E (socket_timeout_set E) (LSocket r :: rest) L = Undefined.
Proof.
  intros Hr Hh Ht.
  unfold lua_call, socket_timeout_set. unfold bind at 1.
  rewrite socket_check_frame, Hr, Hh. cbn [andb].
  unfold bind at 1. unfold lua_isnumber at 1.
  rewrite index2adr_frame. cbn [lookup list_lookup].
  unfold timeout_argument in Ht.
  destruct (tonumber E (rest !! 0%nat)) as [d|] eqn:Hd; [|discriminate].
  unfold bind. now rewrite (luaL_checkinteger_overflow _ 2 d).
Qed.

(** [timeout_get] on an open handle: one native call, and the three-way
    encoding of what it answered. *)
Lemma socket_timeout_get_run (L : lua_State E) r o h rest st t w :
  heap L !! r = Some o -> handle o = Some h ->
  apr_socket_timeout_get E (Some h) (lworld L) = (st, t, w) ->
  lua_call E (socket_timeout_get E) (LSocket r :: rest) L
  = Ok (if st =? APR_SUCCESS then
          [if t <=? 0 then LBoolean (negb (t =? 0))
           else LNumber (inject_Z (double_of_Z (to_lua_Integer E t)))]
        else [LNil; LString (apr_strerror E st)])
      (mk_state (stack L) (heap L) w (trace L ++ [EvTimeoutGet (Some h) st t])).
Proof.
  intros Hr Hh Hget.
  unfold lua_call, socket_timeout_get. unfold bind at 1.
  rewrite socket_check_frame, Hr, Hh. cbn [andb].
  exec. rewrite Hr. exec. cbn [handle]. rewrite Hh, Hget. exec.
  unfold push_error_status.
  destruct (st =? APR_SUCCESS); cbn [negb]; exec;
    [destruct (t <=? 0); exec|]; f_equal;
    first [ now apply top_results
          | rewrite <- app_assoc; now apply top_results
          | now destruct L ].
Qed.

(** The round trip through the native layer, for any timeout the
    argument stands for: when the native call stores the timeout,
    [timeout_set] returns true, and [timeout_get] then shows what the
    native layer reads back. *)
Lemma timeout_set_then_get (L : lua_State E) r o h rest t w :
  stores_timeout E ->
  heap L !! r = Some o -> handle o = Some h ->
  timeout_argument E (rest !! 0%nat) = Some t ->
  apr_socket_timeout_set E (Some h) t (lworld L) = (APR_SUCCESS, w) ->
  lua_call E (socket_timeout_set E) (LSocket r :: rest) L
  = Ok [LBoolean true]
      (mk_state (stack L) (heap L) w
         (trace L ++ [EvTimeoutSet (Some h) t APR_SUCCESS]))
  /\ exists L2,
       lua_call E (socket_timeout_get E) [LSocket r]
         (mk_state (stack L) (heap L) w
            (trace L ++ [EvTimeoutSet (Some h) t APR_SUCCESS]))
       = Ok [if t <=? 0 then LBoolean (negb (t =? 0))
             else LNumber (inject_Z (double_of_Z (to_lua_Integer E t)))] L2.
Proof.
  intros Hnative Hr Hh Ht Hset.
  rewrite (socket_timeout_set_run L r o h rest t APR_SUCCESS w) by assumption.
  split; [reflexivity|].
  destruct (Hnative h t _ _ Hset) as (w2 & Hget).
  eexists.
  rewrite (socket_timeout_get_run _ r o h [] APR_SUCCESS t w2) by assumption.
  reflexivity.
Qed.

(** The four ways [timeout_set] can go on an open handle. *)
Lemma socket_timeout_set_cases (L : lua_State E) r o h rest :
  heap L !! r = Some o -> handle o = Some h ->
  (tonumber E (rest !! 0%nat) = None ->
   forall st w,
     apr_socket_timeout_set E (Some h)
       (if truthy (rest !! 0%nat) then -1 else 0) (lworld L) = (st, w) ->
     lua_call E (socket_timeout_set E) (LSocket r :: rest) L
     = Ok (status_results E st)
         (mk_state (stack L) (heap L) w
            (trace L ++ [EvTimeoutSet (Some h)
                           (if truthy (rest !! 0%nat) then -1 else 0) st])))
  /\ (forall d n,
        tonumber E (rest !! 0%nat) = Some d ->
        lua_number2integer E d = Some n ->
        forall st w,
          apr_socket_timeout_set E (Some h) n (lworld L) = (st, w) ->
          lua_call E (socket_timeout_set E) (LSocket r :: rest) L
          = Ok (status_results E st)
              (mk_state (stack L) (heap L) w
                 (trace L ++ [EvTimeoutSet (Some h) n st])))
  /\ (forall d,
        tonumber E (rest !! 0%nat) = Some d ->
        lua_number2integer E d = None ->
        lua_call E (socket_timeout_set E) (LSocket r :: rest) L = Undefined)
  /\ (forall e L',
        lua_call E (socket_timeout_set E) (LSocket r :: rest) L <> Raise e L').
Proof.
  intros Hr Hh. repeat split.
  - intros Hd st w Hs.
    apply (socket_timeout_set_run L r o h rest); auto.
    unfold timeout_argument. now rewrite Hd.
  - intros d n Hd Hn st w Hs.
    apply (socket_timeout_set_run L r o h rest); auto.
    unfold timeout_argument. now rewrite Hd.
  - intros d Hd Hn.
    apply (socket_timeout_set_overflow L r o h rest); auto.
    unfold timeout_argument. now rewrite Hd.
  - intros e L'.
    destruct (timeout_argument E (rest !! 0%nat)) as [t|] eqn:Ht.
    + destruct (apr_socket_timeout_set E (Some h) t (lworld L)) as [st w] eqn:Hs.
      rewrite (socket_timeout_set_run L r o h rest t st w) by assumption.
      discriminate.
    + rewrite (socket_timeout_set_overflow L r o h rest) by assumption.
      discriminate.
Qed.

End Timeout.

(** An integer of at most 53 bits is a double. *)
Lemma double_of_Z_small (n : Z) : Z.abs n <= 2 ^ 53 -> double_of_Z n = n.
Proof.
  intros Hn. unfold double_of_Z.
  destruct (Z.leb_spec (Z.log2 (Z.abs n) - 52) 0) as [|He]; [reflexivity|].
  assert (Hpos : 0 < Z.abs n).
  { destruct (Z.eq_dec (Z.abs n) 0) as [H0|]; [|lia].
    rewrite H0 in He. cbn in He. lia. }
  pose proof (Z.log2_spec _ Hpos) as [Hlo _].
  assert (H53 : 2 ^ 53 <= 2 ^ Z.log2 (Z.abs n))
    by (apply Z.pow_le_mono_r; lia).
  assert (Ha : Z.abs n = 2 ^ 53) by lia.
  assert (Hcase : n = 2 ^ 53 \/ n = - 2 ^ 53) by lia.
  destruct Hcase as [-> | ->]; reflexivity.
Qed.

(** C4, as stated, fails on the positive integers that do not fit
    [lua_Integer]: the conversion in [luaL_checkinteger] then has no
    defined result, so [timeout_set] does not store n.  With a 64-bit
    [lua_Integer] that is so from 2^63 on, with a 32-bit one from 2^31
    on, for instance at 3000000000.  (Where the conversion yields the
    smallest integer, as the x86-64 instruction does, the timeout stored
    is negative and [timeout_get] returns true.) *)
Lemma timeout_out_of_range_counterexample :
  0 < 2 ^ 63
  /\ double_of_Z (2 ^ 63) = 2 ^ 63
  /\ lua_call Sim.linux64 (socket_timeout_set Sim.linux64)
       [LSocket 0; LNumber (inject_Z (2 ^ 63))] (sim_open [])
     = Undefined
  /\ lua_call (Sim.env true Bits32) (socket_timeout_set (Sim.env true Bits32))
       [LSocket 0; LNumber (inject_Z 3000000000)]
       (@mk_state (Sim.env true Bits32) []
          [@mk_socket (Sim.env true Bits32) (Some tt) (Some [])
             (Some 1%nat) (Some 2%nat) 2 6]
          (Sim.mk_world 3 [] [] []) [])
     = Undefined.
Proof. repeat split. Qed.

(** C4 (amended). On an open handle, when the native layer stores the
    timeout, what [timeout_set] was given is what [timeout_get] returns
    next: true for true (forever), false for false (immediate), and n
    for a positive integer n that is a Lua number and fits
    [lua_Integer].  [timeout_set] itself returns true and makes the one
    native call that stores the timeout. *)
Theorem timeout_round_trip (E : Env) (L : lua_State E) (r : nat)
  (o : lua_apr_socket E) (h : apr_socket_t) (v : lua_value) (t : Z)
  (w : world E) :
  stores_timeout E ->
  heap L !! r = Some o ->
  handle o = Some h ->
  timeout_value E v t ->
  apr_socket_timeout_set E (Some h) t (lworld L) = (APR_SUCCESS, w) ->
  lua_call E (socket_timeout_set E) [LSocket r; v] L
  = Ok [LBoolean true]
      (mk_state (stack L) (heap L) w
         (trace L ++ [EvTimeoutSet (Some h) t APR_SUCCESS]))
  /\ exists L2,
       lua_call E (socket_timeout_get E) [LSocket r]
         (mk_state (stack L) (heap L) w
            (trace L ++ [EvTimeoutSet (Some h) t APR_SUCCESS]))
       = Ok [v] L2.
Proof.
  intros Hnative Hr Hh Hv Hset.
  assert (Ht : timeout_argument E ([v] !! 0%nat) = Some t).
  { destruct Hv as [ | | n Hpos Hfit Hdbl]; try reflexivity.
    unfold timeout_argument. cbn. now apply lua_number2integer_inject. }
  destruct (timeout_set_then_get E L r o h [v] t w Hnative Hr Hh Ht Hset)
    as (Hcall & L2 & Hget).
  split; [exact Hcall|]. exists L2. rewrite Hget.
  destruct Hv as [ | | n Hpos Hfit Hdbl]; try reflexivity.
  destruct (n <=? 0) eqn:Hle; [apply Z.leb_le in Hle; lia|].
  unfold to_lua_Integer. rewrite wrap_signed_fits by (auto using bits_pos).
  now rewrite Hdbl.
Qed.

Lemma sim_stores_timeout : stores_timeout Sim.linux64.
Proof.
  intros s t w w'. cbn. unfold Sim.timeout_set, Sim.timeout_get.
  destruct (Sim.answer w) as [st w1].
  destruct (st =? APR_SUCCESS) eqn:Hst.
  - intros [= -> <-]. eexists. cbn. rewrite Nat.eqb_refl. reflexivity.
  - intros [= -> <-]. discriminate.
Qed.

Lemma timeout_round_trip_witness :
  lua_call Sim.linux64 (socket_timeout_set Sim.linux64)
    [LSocket 0; LNumber (inject_Z 1500000)] (sim_open [])
  = Ok [LBoolean true]
      (@mk_state Sim.linux64 [] [sim_socket (Some 1%nat) (Some 2%nat)]
         (Sim.mk_world 3 [] [(2%nat, 1500000)] [])
         [EvTimeoutSet (Some 2%nat) 1500000 0])
  /\ exists L2,
       lua_call Sim.linux64 (socket_timeout_get Sim.linux64) [LSocket 0]
         (@mk_state Sim.linux64 [] [sim_socket (Some 1%nat) (Some 2%nat)]
            (Sim.mk_world 3 [] [(2%nat, 1500000)] [])
            [EvTimeoutSet (Some 2%nat) 1500000 0])
       = Ok [LNumber (inject_Z 1500000)] L2.
Proof.
  apply (timeout_round_trip Sim.linux64 (sim_open []) 0%nat
           (sim_socket (Some 1%nat) (Some 2%nat)) 2%nat
           (LNumber (inject_Z 1500000)) 1500000
           (Sim.mk_world 3 [] [(2%nat, 1500000)] [])
           sim_stores_timeout eq_refl eq_refl).
  - apply (timeout_microseconds Sim.linux64 1500000); [lia | reflexivity..].
  - reflexivity.
Defined.

(** C10, as stated, fails on strings that convert to a number: the
    string "10" is truthy, yet [timeout_set] hands 10 to the native layer,
    not -1, and [timeout_get] then returns 10, not true. *)
Lemma numeric_string_counterexample :
  truthy (Some (LString "10")) = true
  /\ exists L1,
       lua_call Sim.linux64 (socket_timeout_set Sim.linux64)
         [LSocket 0; LString "10"] (sim_open [])
       = Ok [LBoolean true] L1
       /\ trace L1 = [EvTimeoutSet (Some 2%nat) 10 0]
       /\ exists L2,
            lua_call Sim.linux64 (socket_timeout_get Sim.linux64) [LSocket 0] L1
            = Ok [LNumber (inject_Z 10)] L2.
Proof.
  split; [reflexivity|]. eexists. split; [reflexivity|].
  split; [reflexivity|]. eexists. reflexivity.
Qed.

(** C10 (amended). On an open handle [timeout_set] never raises,
    whatever its argument, and its result is this.  An argument that
    [lua_isnumber] does not accept, also an absent one, counts by its
    truthiness: [timeout_set] hands -1 (forever) to the native layer
    when it is truthy and 0 (immediate) for nil and false, and returns
    the status of that call.  An argument that [lua_isnumber] accepts, a
    number or a string that converts to one, is cut to an integer: when
    that integer fits [lua_Integer] it is handed unchanged to the native
    layer; when it does not, the C conversion has no defined result, and
    neither has the call.  So when the native layer stores a negative
    integer of [lua_Integer], [timeout_set] returns true and
    [timeout_get] then returns true. *)
Theorem timeout_set_coercion (E : Env) (L : lua_State E) (r : nat)
  (o : lua_apr_socket E) (h : apr_socket_t) (rest : list lua_value) :
  heap L !! r = Some o ->
  handle o = Some h ->
  (tonumber E (rest !! 0%nat) = None ->
   forall st w,
     apr_socket_timeout_set E (Some h)
       (if truthy (rest !! 0%nat) then -1 else 0) (lworld L) = (st, w) ->
     lua_call E (socket_timeout_set E) (LSocket r :: rest) L
     = Ok (status_results E st)
         (mk_state (stack L) (heap L) w
            (trace L ++ [EvTimeoutSet (Some h)
                           (if truthy (rest !! 0%nat) then -1 else 0) st])))
  /\ (forall d n,
        tonumber E (rest !! 0%nat) = Some d ->
        lua_number2integer E d = Some n ->
        forall st w,
          apr_socket_timeout_set E (Some h) n (lworld L) = (st, w) ->
          lua_call E (socket_timeout_set E) (LSocket r :: rest) L
          = Ok (status_results E st)
              (mk_state (stack L) (heap L) w
                 (trace L ++ [EvTimeoutSet (Some h) n st])))
  /\ (forall d,
        tonumber E (rest !! 0%nat) = Some d ->
        lua_number2integer E d = None ->
        lua_call E (socket_timeout_set E) (LSocket r :: rest) L = Undefined)
  /\ (forall e L',
        lua_call E (socket_timeout_set E) (LSocket r :: rest) L <> Raise e L')
  /\ (forall n w,
        n < 0 -> fits_signed (bits (LUA_INTEGER E)) n = true ->
        rest = [LNumber (inject_Z n)] ->
        stores_timeout E ->
        apr_socket_timeout_set E (Some h) n (lworld L) = (APR_SUCCESS, w) ->
        lua_call E (socket_timeout_set E) (LSocket r :: rest) L
        = Ok [LBoolean true]
            (mk_state (stack L) (heap L) w
               (trace L ++ [EvTimeoutSet (Some h) n APR_SUCCESS]))
        /\ exists L2,
             lua_call E (socket_timeout_get E) [LSocket r]
               (mk_state (stack L) (heap L) w
                  (trace L ++ [EvTimeoutSet (Some h) n APR_SUCCESS]))
             = Ok [LBoolean true] L2).
Proof.
  intros Hr Hh.
  destruct (socket_timeout_set_cases E L r o h rest Hr Hh)
    as (Hbool & Hnum & Hover & Hnever).
  split; [exact Hbool|]. split; [exact Hnum|]. split; [exact Hover|].
  split; [exact Hnever|].
  intros n w Hneg Hfit -> Hnative Hset.
  assert (Ht : timeout_argument E ([LNumber (inject_Z n)] !! 0%nat) = Some n).
  { unfold timeout_argument. cbn. now apply lua_number2integer_inject. }
  destruct (timeout_set_then_get E L r o h [LNumber (inject_Z n)] n w
              Hnative Hr Hh Ht Hset) as (Hcall & L2 & Hget).
  split; [exact Hcall|]. exists L2. rewrite Hget.
  destruct (n <=? 0) eqn:Hle; [|apply Z.leb_gt in Hle; lia].
  destruct (n =? 0) eqn:Hz; [apply Z.eqb_eq in Hz; lia|]. reflexivity.
Qed.

Lemma timeout_set_coercion_witness :
  lua_call Sim.linux64 (socket_timeout_set Sim.linux64)
    [LSocket 0; LTable 7] (sim_open [])
  = Ok [LBoolean true]
      (@mk_state Sim.linux64 [] [sim_socket (Some 1%nat) (Some 2%nat)]
         (Sim.mk_world 3 [] [(2%nat, -1)] [])
         [EvTimeoutSet (Some 2%nat) (-1) 0])
  /\ lua_call Sim.linux64 (socket_timeout_set Sim.linux64)
       [LSocket 0; LNumber (inject_Z (2 ^ 70))] (sim_open [])
     = Undefined.
Proof.
  pose proof (timeout_set_coercion Sim.linux64 (sim_open []) 0%nat
                (sim_socket (Some 1%nat) (Some 2%nat)) 2%nat [LTable 7]
                eq_refl eq_refl) as (Hbool & _).
  pose proof (timeout_set_coercion Sim.linux64 (sim_open []) 0%nat
                (sim_socket (Some 1%nat) (Some 2%nat)) 2%nat
                [LNumber (inject_Z (2 ^ 70))]
                eq_refl eq_refl) as (_ & _ & Hover & _).
  split.
  - apply (Hbool eq_refl 0 (Sim.mk_world 3 [] [(2%nat, -1)] [])). reflexivity.
  - apply (Hover (inject_Z (2 ^ 70))); reflexivity.
Defined.

(** ** listen *)






(** ** write *)

Lemma set_output_twice (E : Env) (o : lua_apr_socket E) b1 b2 :
  set_output b2 (set_output b1 o) = set_output b2 o.
Proof. reflexivity. Qed.

(** C6. On an open handle, [write] runs the engine's write and then,
    always and before it returns, the engine's flush, once.  It reports
    what the write pushed only when the flush succeeded; when the flush
    failed it returns nil and the message of its status.  When the
    engine's write raises, [write] does not return at all. *)
Theorem write_flushes_before_return (E : Env) (L : lua_State E) (r : nat)
  (o : lua_apr_socket E) (h : apr_socket_t) (args : list lua_value)
  (b b1 b2 : lua_apr_writebuf E) (res : lua_error + list lua_value)
  (w1 w2 : world E) (st : apr_status_t) :
  heap L !! r = Some o ->
  handle o = Some h ->
  output o = Some b ->
  write_buffer E (LSocket r :: args) b (lworld L) = (res, b1, w1) ->
  flush_buffer E b1 1 w1 = (st, b2, w2) ->
  lua_call E (socket_write E) (LSocket r :: args) L
  = match res with
    | inl e =>
        Raise e (mk_state (stack L) (<[r := set_output b1 o]> (heap L)) w1
                   (trace L ++ [EvWriteBuffer]))
    | inr vs =>
        Ok (if st =? APR_SUCCESS then vs
            else [LNil; LString (apr_strerror E st)])
          (mk_state (stack L) (<[r := set_output b2 o]> (heap L)) w2
             (trace L ++ [EvWriteBuffer; EvFlushBuffer st]))
    end.
Proof.
  intros Hr Hh Hb Hw Hf. pose proof (lookup_lt_Some _ _ _ Hr) as Hlt.
  unfold lua_call, socket_write. unfold bind at 1.
  rewrite socket_check_frame, Hr, Hh. cbn [andb].
  unfold bind at 1. unfold engine. exec. rewrite Hr. exec. rewrite Hb. exec.
  rewrite Hw.
  destruct res as [e|vs]; [reflexivity|].
  exec. rewrite list_lookup_insert_eq by exact Hlt. exec.
  cbn [output set_output]. exec. rewrite Hf. exec.
  rewrite list_lookup_insert_eq by exact Hlt. exec.
  rewrite list_insert_insert_eq, set_output_twice.
  unfold push_error_status.
  destruct (st =? APR_SUCCESS); cbn [negb]; exec; f_equal;
    first [ now apply top_results
          | rewrite <- app_assoc; now apply top_results
          | f_equal; now rewrite <- app_assoc ].
Qed.

Lemma write_flushes_before_return_witness :
  lua_call Sim.linux64 (socket_write Sim.linux64)
    [LSocket 0; LString "abc"; LString "def"] (sim_open [32])
  = Ok [LNil; LString "APR status 32"]
      (@mk_state Sim.linux64 []
         [@mk_socket Sim.linux64 (Some tt) (Some ["abc"; "def"])
            (Some 1%nat) (Some 2%nat) 2 6]
         (Sim.mk_world 3 [] [] []) [EvWriteBuffer; EvFlushBuffer 32]).
Proof.
  apply (write_flushes_before_return Sim.linux64 (sim_open [32]) 0%nat
           (sim_socket (Some 1%nat) (Some 2%nat)) 2%nat
           [LString "abc"; LString "def"] [] ["abc"; "def"] ["abc"; "def"]
           (inr [LBoolean true]) (Sim.mk_world 3 [32] [] [])
           (Sim.mk_world 3 [] [] []) 32); reflexivity.
Defined.

(** ** Option tokens *)

Lemma find_option_bound name lst i j :
  find_option name lst i = Some j -> (i <= j < i + length lst)%nat.
Proof.
  revert i. induction lst as [|o lst IH]; intros i; cbn [find_option length];
    [discriminate|].
  destruct (strcmp_eq o name).
  - intros [= <-]. lia.
  - intros H. apply IH in H. lia.
Qed.

(** [strcmp] with a literal of the code: the literal is compared with
    the C string of the other argument. *)
Ltac strcmp_literals :=
  repeat match goal with
         | |- context [strcmp_eq (String ?a ?r) ?s] =>
             change (strcmp_eq (String a r) s)
               with (String.eqb (String a r) (c_str s))
         end.

(** A supported token has no NUL: it is its own C string. *)
Lemma supported_family_c_str (E : Env) (s : string) :
  supported_family E s -> c_str s = s.
Proof. intros [-> | [-> | [-> _]]]; reflexivity. Qed.

Section Options.

Context (E : Env).

(** [luaL_checkoption] on a string argument. *)
Lemma luaL_checkoption_string (L : lua_State E) i s d lst :
  index2adr L i = Some (LString s) ->
  luaL_checkoption i (Some d) lst L
  = match find_option s lst 0 with
    | Some j => Ok j L
    | None => Raise (invalid_option i (c_str s)) L
    end.
Proof.
  intros Hi. unfold luaL_checkoption, luaL_optstring, luaL_checkstring,
    lua_isnoneornil, lua_tolstring, luaL_argerror. exec.
  rewrite Hi. cbn. rewrite Hi. cbn.
  destruct (find_option s lst 0); reflexivity.
Qed.

(** [luaL_checkoption] on an absent or nil argument takes the default. *)
Lemma luaL_checkoption_default (L : lua_State E) i d lst :
  index2adr L i = None \/ index2adr L i = Some LNil ->
  luaL_checkoption i (Some d) lst L
  = match find_option d lst 0 with
    | Some j => Ok j L
    | None => Raise (invalid_option i (c_str d)) L
    end.
Proof.
  intros Hi. unfold luaL_checkoption, luaL_optstring, lua_isnoneornil,
    luaL_argerror. exec.
  destruct Hi as [-> | ->]; cbn; destruct (find_option d lst 0); reflexivity.
Qed.

Lemma family_check_default (L : lua_State E) i :
  index2adr L i = None \/ index2adr L i = Some LNil ->
  family_check E i L = Ok (APR_INET E) L.
Proof.
  intros Hi. unfold family_check, bind.
  rewrite luaL_checkoption_default by exact Hi.
  unfold family_options, family_values.
  destruct (APR_HAVE_IPV6 E); reflexivity.
Qed.

(** A token is read as a C string: when that is a supported token, the
    check gives its constant. *)
Lemma family_check_token (L : lua_State E) i s :
  index2adr L i = Some (LString s) -> supported_family E (c_str s) ->
  family_check E i L = Ok (family_constant E (c_str s)) L.
Proof.
  intros Hi Hs. unfold family_check, bind.
  rewrite (luaL_checkoption_string L i s) by exact Hi.
  unfold family_options, family_values, family_constant.
  destruct Hs as [Hc | [Hc | [Hc Hv6]]].
  - destruct (APR_HAVE_IPV6 E); cbn [find_option]; strcmp_literals;
      rewrite Hc; reflexivity.
  - destruct (APR_HAVE_IPV6 E); cbn [find_option]; strcmp_literals;
      rewrite Hc; reflexivity.
  - rewrite Hv6. cbn [find_option]. strcmp_literals. rewrite Hc. reflexivity.
Qed.

Lemma family_check_supported (L : lua_State E) i s :
  index2adr L i = Some (LString s) -> supported_family E s ->
  family_check E i L = Ok (family_constant E s) L.
Proof.
  intros Hi Hs. pose proof (supported_family_c_str E s Hs) as Hc.
  rewrite (family_check_token L i s Hi); rewrite Hc; auto.
Qed.

Lemma family_check_invalid (L : lua_State E) i s :
  index2adr L i = Some (LString s) -> ~ supported_family E (c_str s) ->
  family_check E i L = Raise (invalid_option i (c_str s)) L.
Proof.
  intros Hi Hs. unfold family_check, bind.
  rewrite (luaL_checkoption_string L i s) by exact Hi.
  unfold supported_family in Hs.
  assert (H4 : String.eqb "inet" (c_str s) = false)
    by (apply String.eqb_neq; intros Heq; rewrite <- Heq in Hs; tauto).
  assert (Hu : String.eqb "unspec" (c_str s) = false)
    by (apply String.eqb_neq; intros Heq; rewrite <- Heq in Hs; tauto).
  unfold family_options. destruct (APR_HAVE_IPV6 E) eqn:Hv6;
    cbn [find_option]; strcmp_literals.
  - assert (H6 : String.eqb "inet6" (c_str s) = false)
      by (apply String.eqb_neq; intros Heq; rewrite <- Heq in Hs; tauto).
    rewrite H4, H6, Hu. reflexivity.
  - rewrite H4, Hu. reflexivity.
Qed.

(** The check of the first argument, on a frame: it returns, having at
    most rewritten that argument, or raises a parameter error for it. *)
Lemma checkoption_first (L : lua_State E) a1 rest d lst :
  (exists j a1',
      luaL_checkoption 1 (Some d) lst (set_stack L (a1 :: rest))
      = Ok j (set_stack L (a1' :: rest))
      /\ (j < length lst)%nat)
  \/ (exists msg a1',
        luaL_checkoption 1 (Some d) lst (set_stack L (a1 :: rest))
        = Raise (ErrArg 1 msg) (set_stack L (a1' :: rest))).
Proof.
  assert (Hfind : forall name,
    (exists j, find_option name lst 0 = Some j /\ (j < length lst)%nat)
    \/ find_option name lst 0 = None).
  { intros name. destruct (find_option name lst 0) as [j|] eqn:Hj; auto.
    left. exists j. split; auto. apply find_option_bound in Hj. lia. }
  unfold luaL_checkoption, luaL_optstring, luaL_checkstring, lua_isnoneornil,
    lua_tolstring, luaL_argerror, luaL_typerror. exec.
  destruct a1; cbn [index2adr stack lookup list_lookup Nat.pred insert
                      list_insert];
    try (right; eexists _, _; reflexivity).
  - destruct (Hfind d) as [(j & -> & Hj) | ->];
      [left; exists j, LNil; auto | right; eexists _, _; reflexivity].
  - destruct (Hfind (lua_number2str E n)) as [(j & -> & Hj) | ->];
      [left; exists j, (LString (lua_number2str E n)); auto
      | right; eexists _, _; reflexivity].
  - destruct (Hfind s) as [(j & -> & Hj) | ->];
      [left; exists j, (LString s); auto | right; eexists _, _; reflexivity].
Qed.

Lemma checkstring_first (L : lua_State E) a1 rest :
  (exists s a1',
      luaL_checkstring 1 (set_stack L (a1 :: rest))
      = Ok s (set_stack L (a1' :: rest)))
  \/ (exists msg a1',
        luaL_checkstring 1 (set_stack L (a1 :: rest))
        = Raise (ErrArg 1 msg) (set_stack L (a1' :: rest))).
Proof.
  unfold luaL_checkstring, lua_tolstring, luaL_argerror, luaL_typerror. exec.
  destruct a1; cbn [index2adr stack lookup list_lookup Nat.pred insert
                      list_insert];
    try (right; eexists _, _; reflexivity); left; eauto.
Qed.

(** An invalid family token stops [apr.socket_create] before anything
    is allocated: the state is the one before the call. *)
Lemma socket_create_invalid_family (L : lua_State E) a1 s rest :
  ~ supported_family E (c_str s) ->
  exists n msg,
    lua_call E (lua_apr_socket_create E) (a1 :: LString s :: rest) L
    = Raise (ErrArg n msg) L
    /\ (n = 1%nat \/ ErrArg n msg = invalid_option 2 (c_str s)).
Proof.
  intros Hs. unfold lua_call, lua_apr_socket_create. unfold bind at 1.
  destruct (checkoption_first L a1 (LString s :: rest) "tcp" proto_options)
    as [(j & a1' & -> & Hj) | (msg & a1' & ->)].
  - unfold bind at 1.
    assert (Hget : exists v, array_get (E:=E) (proto_values E) j = ret v).
    { unfold array_get, proto_values.
      destruct j as [|[|j]]; cbn; eauto. cbn in Hj. lia. }
    destruct Hget as (v & ->). unfold ret at 1. unfold bind at 1.
    rewrite (family_check_invalid _ 2 s) by (reflexivity || assumption).
    exists 2%nat, ("invalid option '" ++ c_str s ++ "'")%string.
    split; [|now right]. now destruct L.
  - exists 1%nat, msg. split; [|now left]. now destruct L.
Qed.

(** The two resolvers fetch the global pool and then check their
    arguments; an invalid family token stops them before any lookup. *)
Lemma resolver_invalid_family (f : M E nat) (L : lua_State E) a1 s rest :
  f = lua_apr_host_to_addr E \/ f = lua_apr_addr_to_host E ->
  ~ supported_family E (c_str s) ->
  exists n msg w,
    lua_call E f (a1 :: LString s :: rest) L
    = Raise (ErrArg n msg)
        (mk_state (stack L) (heap L) w (trace L ++ [EvToPool]))
    /\ (n = 1%nat \/ ErrArg n msg = invalid_option 2 (c_str s)).
Proof.
  intros Hf Hs. unfold lua_call.
  destruct (to_pool E (lworld L)) as [pl w] eqn:Hpool.
  set (L1 := mk_state (stack L) (heap L) w (trace L ++ [EvToPool])).
  destruct (checkstring_first L1 a1 (LString s :: rest))
    as [(x & a1' & Hx) | (msg & a1' & Hx)].
  - exists 2%nat, ("invalid option '" ++ c_str s ++ "'")%string, w.
    split; [|now right].
    destruct Hf as [-> | ->];
      unfold lua_apr_host_to_addr, lua_apr_addr_to_host;
      unfold bind at 1; unfold native at 1;
      cbn [set_stack stack heap lworld trace];
      rewrite Hpool; cbn [set_stack stack heap lworld trace];
      change (mk_state (a1 :: LString s :: rest) (heap L) w
                (trace L ++ [EvToPool]))
        with (set_stack L1 (a1 :: LString s :: rest));
      unfold bind at 1; rewrite Hx; unfold bind at 1;
      rewrite (family_check_invalid _ 2 s) by (reflexivity || assumption);
      reflexivity.
  - exists 1%nat, msg, w. split; [|now left].
    destruct Hf as [-> | ->];
      unfold lua_apr_host_to_addr, lua_apr_addr_to_host;
      unfold bind at 1; unfold native at 1;
      cbn [set_stack stack heap lworld trace];
      rewrite Hpool; cbn [set_stack stack heap lworld trace];
      change (mk_state (a1 :: LString s :: rest) (heap L) w
                (trace L ++ [EvToPool]))
        with (set_stack L1 (a1 :: LString s :: rest));
      unfold bind at 1; rewrite Hx; reflexivity.
Qed.

(** [apr.socket_create(p, s)] with two valid tokens, when the pool could
    be created: the native socket is asked for with the constants of the
    tokens. *)
Lemma socket_create_run (L : lua_State E) p s pl w st h w' :
  p = "tcp" \/ p = "udp" ->
  supported_family E s ->
  apr_pool_create E (lworld L) = (APR_SUCCESS, pl, w) ->
  apr_socket_create E (family_constant E s)
    (socket_type E (protocol_constant E p)) (protocol_constant E p) pl w
  = (st, h, w') ->
  exists res L',
    lua_call E (lua_apr_socket_create E) [LString p; LString s] L = Ok res L'
    /\ exists events,
         trace L' = trace L ++
           EvPoolCreate APR_SUCCESS pl
           :: EvSocketCreate (family_constant E s)
                (socket_type E (protocol_constant E p))
                (protocol_constant E p) pl st h
           :: events.
Proof.
  intros Hp Hs Hpool Hcreate.
  unfold lua_call, lua_apr_socket_create. unfold bind at 1.
  rewrite (luaL_checkoption_string _ 1 p) by reflexivity.
  assert (Hproto : exists j, find_option p proto_options 0 = Some j
                             /\ proto_values E !! j = Some (protocol_constant E p)).
  { destruct Hp as [-> | ->]; [exists 0%nat | exists 1%nat]; split; reflexivity. }
  destruct Hproto as (j & -> & Hj).
  unfold bind at 1. unfold array_get. rewrite Hj. unfold ret at 1.
  unfold bind at 1. rewrite (family_check_supported _ 2 s) by (reflexivity || assumption).
  unfold bind at 1.
  rewrite (socket_alloc_run E _ _ _ _ APR_SUCCESS pl w) by exact Hpool.
  cbn [fst snd Z.eqb APR_SUCCESS stack heap lworld trace set_stack].
  fold (socket_type E (protocol_constant E p)).
  unfold socket_init, push_error_status. exec.
  rewrite lookup_fresh. exec. cbn [pool]. rewrite Hcreate. exec.
  rewrite lookup_fresh. exec. rewrite insert_fresh.
  destruct (st =? APR_SUCCESS); cbn [negb]; exec.
  - rewrite lookup_fresh. exec. rewrite lookup_fresh. exec.
    eexists _, _. split; [reflexivity|]. cbn [trace].
    rewrite <- !app_assoc. cbn [app]. eauto.
  - eexists _, _. split; [reflexivity|]. cbn [trace].
    rewrite <- !app_assoc. cbn [app]. eauto.
Qed.

End Options.

(** C8, as stated, fails on a string with a NUL in it: the token is
    compared as a C string, so the string inet NUL x, which is none of
    the supported tokens, is taken for inet, and [apr.socket_create]
    returns a socket of that family instead of raising. *)
Lemma nul_family_token_counterexample :
  ~ supported_family Sim.linux64 ("inet" ++ String NUL "x")
  /\ c_str ("inet" ++ String NUL "x") = "inet"
  /\ lua_call Sim.linux64 (lua_apr_socket_create Sim.linux64)
       [LString "tcp"; LString ("inet" ++ String NUL "x")]
       (Sim.start Sim.linux64 Sim.world0)
     = Ok [LSocket 0] sim_created.
Proof.
  split; [|split; reflexivity].
  intros [H | [H | [H _]]]; discriminate.
Qed.

(** C8 (amended). The family token is checked by [family_check] before
    anything is done with it, and it is read as a C string: what counts
    is the part of the string before its first NUL.  An absent (or nil)
    token stands for inet; a string whose C string is a supported token
    gives the platform constant of that token; any other string, among
    them inet6 on a platform without IPv6, raises the parameter error
    for that argument.  In [apr.socket_create], [apr.host_to_addr] and
    [apr.addr_to_host] an invalid token ends the call with a parameter
    error: no object is allocated and nothing is resolved.  With valid
    tokens [apr.socket_create] asks the native layer for a socket of the
    family constant of its token. *)
Theorem family_token_checked (E : Env) :
  (forall (L : lua_State E) i,
     index2adr L i = None \/ index2adr L i = Some LNil ->
     family_check E i L = Ok (APR_INET E) L)
  /\ (forall (L : lua_State E) i s,
        index2adr L i = Some (LString s) ->
        supported_family E (c_str s) ->
        family_check E i L = Ok (family_constant E (c_str s)) L)
  /\ (forall (L : lua_State E) i s,
        index2adr L i = Some (LString s) ->
        ~ supported_family E (c_str s) ->
        family_check E i L = Raise (invalid_option i (c_str s)) L)
  /\ (forall name f (L : lua_State E) a1 s rest,
        In (name, f) (family_entry_points E) ->
        ~ supported_family E (c_str s) ->
        exists n msg L',
          lua_call E f (a1 :: LString s :: rest) L = Raise (ErrArg n msg) L'
          /\ (n = 1%nat \/ ErrArg n msg = invalid_option 2 (c_str s))
          /\ heap L' = heap L
          /\ (trace L' = trace L \/ trace L' = trace L ++ [EvToPool]))
  /\ (forall (L : lua_State E) p s pl w st h w',
        p = "tcp" \/ p = "udp" ->
        supported_family E s ->
        apr_pool_create E (lworld L) = (APR_SUCCESS, pl, w) ->
        apr_socket_create E (family_constant E s)
          (socket_type E (protocol_constant E p)) (protocol_constant E p) pl w
        = (st, h, w') ->
        exists res L',
          lua_call E (lua_apr_socket_create E) [LString p; LString s] L
          = Ok res L'
          /\ exists events,
               trace L' = trace L ++
                 EvPoolCreate APR_SUCCESS pl
                 :: EvSocketCreate (family_constant E s)
                      (socket_type E (protocol_constant E p))
                      (protocol_constant E p) pl st h
                 :: events).
Proof.
  split; [|split; [|split; [|split]]].
  - apply family_check_default.
  - apply family_check_token.
  - apply family_check_invalid.
  - intros name f L a1 s rest Hin Hs. cbn in Hin.
    destruct Hin as [[= <- <-] | [[= <- <-] | [[= <- <-] | []]]].
    + destruct (socket_create_invalid_family E L a1 s rest Hs)
        as (n & msg & Hcall & Hn).
      exists n, msg, L. auto.
    + destruct (resolver_invalid_family E _ L a1 s rest (or_introl eq_refl) Hs)
        as (n & msg & w & Hcall & Hn).
      exists n, msg. eexists. split; [exact Hcall|]. cbn. auto.
    + destruct (resolver_invalid_family E _ L a1 s rest (or_intror eq_refl) Hs)
        as (n & msg & w & Hcall & Hn).
      exists n, msg. eexists. split; [exact Hcall|]. cbn. auto.
  - apply socket_create_run.
Qed.

Lemma family_token_checked_witness :
  family_check (Sim.env false Bits64) 2
    (@mk_state (Sim.env false Bits64) [LString "tcp"; LString "inet6"] []
       Sim.world0 [])
  = Raise (invalid_option 2 "inet6")
      (@mk_state (Sim.env false Bits64) [LString "tcp"; LString "inet6"] []
         Sim.world0 [])
  /\ family_check Sim.linux64 2
       (@mk_state Sim.linux64
          [LString "tcp"; LString ("inet6" ++ String NUL "x")] []
          Sim.world0 [])
     = Ok 10
         (@mk_state Sim.linux64
            [LString "tcp"; LString ("inet6" ++ String NUL "x")] []
            Sim.world0 []).
Proof.
  split.
  - apply (proj1 (proj2 (proj2 (family_token_checked (Sim.env false Bits64))))
             (@mk_state (Sim.env false Bits64)
                [LString "tcp"; LString "inet6"] [] Sim.world0 [])
             2%nat "inet6").
    + reflexivity.
    + intros [H | [H | [_ H]]]; discriminate.
  - apply (proj1 (proj2 (family_token_checked Sim.linux64))
             (@mk_state Sim.linux64
                [LString "tcp"; LString ("inet6" ++ String NUL "x")] []
                Sim.world0 []) 2%nat ("inet6" ++ String NUL "x")%string).
    + reflexivity.
    + right. right. split; reflexivity.
Defined.

(** * Further properties of io_net.c *)

(** ** Teardown: close and the finalizer *)

Section Release.

Context (E : Env).

(** The teardown routine, in full: the status is that of the native
    close (success when there was nothing to close), the socket is
    closed before the pool is destroyed, and both pointers end up null. *)
Lemma socket_close_impl_run (L : lua_State E) r o :
  heap L !! r = Some o ->
  socket_close_impl r L
  = Ok (fst (teardown_close E o (lworld L)))
      (after_call L r (closed_object o) (teardown_world E o (lworld L))
         (teardown_events E o (lworld L))).
Proof.
  intros Hr. pose proof (lookup_lt_Some _ _ _ Hr) as Hlt.
  unfold socket_close_impl, after_call, teardown_close, teardown_world,
    teardown_events, teardown_close, closed_object.
  exec. rewrite Hr.
  destruct (handle o) as [h|] eqn:Hh.
  - destruct (apr_socket_close E h (lworld L)) as [st w] eqn:Hc.
    exec. rewrite Hr. exec.
    rewrite list_lookup_insert_eq by exact Hlt.
    cbn [pool set_handle].
    destruct (pool o) as [p|] eqn:Hp; exec.
    + rewrite list_lookup_insert_eq by exact Hlt. exec.
      rewrite list_insert_insert_eq, <- app_assoc. reflexivity.
    + replace (set_pool None (set_handle None o)) with (set_handle None o);
        [reflexivity|].
      destruct o; cbn in *; subst; reflexivity.
  - rewrite Hr. destruct (pool o) as [p|] eqn:Hp; exec.
    + rewrite Hr. exec.
      replace (set_pool None (set_handle None o)) with (set_pool None o);
        [reflexivity|].
      destruct o; cbn in *; subst; reflexivity.
    + rewrite set_closed_id by assumption. rewrite list_insert_id by assumption.
      rewrite app_nil_r. now destruct L.
Qed.

Lemma socket_close_run (L : lua_State E) r o h args :
  heap L !! r = Some o ->
  handle o = Some h ->
  lua_call E (socket_close E) (LSocket r :: args) L
  = Ok (status_results E (fst (apr_socket_close E h (lworld L))))
      (after_call L r (closed_object o) (teardown_world E o (lworld L))
         (EvSocketClose h (fst (apr_socket_close E h (lworld L)))
          :: match pool o with
             | Some p => [EvPoolDestroy p]
             | None => []
             end)).
Proof.
  intros Hr Hh. unfold lua_call, socket_close. unfold bind at 1.
  rewrite socket_check_frame, Hr, Hh. cbn [andb].
  unfold bind at 1.
  rewrite (socket_close_impl_run _ r o) by exact Hr.
  unfold teardown_close, teardown_events. rewrite Hh.
  unfold push_status, push_error_status, status_results, after_call.
  destruct (fst (apr_socket_close E h _) =? APR_SUCCESS); exec; f_equal;
    first [ now apply top_results
          | rewrite <- app_assoc; now apply top_results ].
Qed.

Lemma socket_gc_run (L : lua_State E) r o args :
  heap L !! r = Some o ->
  lua_call E (socket_gc E) (LSocket r :: args) L
  = Ok []
      (after_call L r (closed_object o) (teardown_world E o (lworld L))
         (teardown_events E o (lworld L))).
Proof.
  intros Hr. unfold lua_call, socket_gc. unfold bind at 1.
  rewrite socket_check_frame, Hr. cbn [andb].
  unfold bind at 1.
  rewrite (socket_close_impl_run _ r o) by exact Hr.
  unfold after_call. exec. rewrite Nat.sub_0_r, drop_all. reflexivity.
Qed.

End Release.

(** X1. [close] on an open handle releases what the handle owns, once
    and in this order: the native socket is closed, then the pool is
    destroyed.  Whatever the native close answered, the handle ends up
    closed, with both pointers null and its other fields as they were;
    the result is true for a successful close and nil with the message of
    its status otherwise. *)
Theorem close_releases_socket_then_pool (E : Env) (L : lua_State E) (r : nat)
  (o : lua_apr_socket E) (h : apr_socket_t) (args : list lua_value) :
  heap L !! r = Some o ->
  handle o = Some h ->
  lua_call E (socket_close E) (LSocket r :: args) L
  = Ok (status_results E (fst (apr_socket_close E h (lworld L))))
      (after_call L r (closed_object o) (teardown_world E o (lworld L))
         (EvSocketClose h (fst (apr_socket_close E h (lworld L)))
          :: match pool o with
             | Some p => [EvPoolDestroy p]
             | None => []
             end)).
Proof. apply socket_close_run. Qed.

Lemma close_releases_socket_then_pool_witness :
  lua_call Sim.linux64 (socket_close Sim.linux64) [LSocket 0] (sim_open [70])
  = Ok [LNil; LString "APR status 70"]
      (@mk_state Sim.linux64 [] [sim_socket None None] (Sim.mk_world 3 [] [] [])
         [EvSocketClose 2%nat 70; EvPoolDestroy 1%nat]).
Proof.
  apply (close_releases_socket_then_pool Sim.linux64 (sim_open [70]) 0%nat
           (sim_socket (Some 1%nat) (Some 2%nat)) 2%nat []); reflexivity.
Defined.

(** X2. The finalizer never raises and returns nothing, on an open
    handle as on a closed one: it runs the same teardown as [close] and
    drops the status of the native close. *)
Theorem finalizer_swallows_close_status (E : Env) (L : lua_State E) (r : nat)
  (o : lua_apr_socket E) (args : list lua_value) :
  heap L !! r = Some o ->
  lua_call E (socket_gc E) (LSocket r :: args) L
  = Ok []
      (after_call L r (closed_object o) (teardown_world E o (lworld L))
         (teardown_events E o (lworld L))).
Proof. apply socket_gc_run. Qed.

Lemma finalizer_swallows_close_status_witness :
  lua_call Sim.linux64 (socket_gc Sim.linux64) [LSocket 0] (sim_open [70])
  = Ok []
      (@mk_state Sim.linux64 [] [sim_socket None None] (Sim.mk_world 3 [] [] [])
         [EvSocketClose 2%nat 70; EvPoolDestroy 1%nat]).
Proof.
  apply (finalizer_swallows_close_status Sim.linux64 (sim_open [70]) 0%nat
           (sim_socket (Some 1%nat) (Some 2%nat)) []); reflexivity.
Defined.

(** ** Each handle owns its object *)

Section Ownership.

Context {E : Env}.

Lemma others_kept_refl r (L : lua_State E) : others_kept r L L.
Proof. split; auto. Qed.

Lemma others_kept_trans r (L1 L2 L3 : lua_State E) :
  others_kept r L1 L2 -> others_kept r L2 L3 -> others_kept r L1 L3.
Proof.
  intros [Hl12 H12] [Hl23 H23]. split; [congruence|].
  intros r' Hne. rewrite H23, H12; auto.
Qed.

Lemma others_kept_heap r (L L' : lua_State E) :
  heap L' = heap L -> others_kept r L L'.
Proof. intros Hh. split; now rewrite Hh. Qed.

Lemma others_kept_insert r (L : lua_State E) o' stk w tr :
  others_kept r L (mk_state stk (<[r := o']> (heap L)) w tr).
Proof.
  split; cbn [heap]; [apply length_insert|].
  intros r' Hne. now apply list_lookup_insert_ne.
Qed.

Lemma only_stack_only {A} r (m : M E A) : stack_only m -> only r m.
Proof.
  intros Hm L. eapply wp_mono; [apply Hm | |]; cbn beta;
    intros ? L' (Hh & _); now apply others_kept_heap.
Qed.

Lemma only_ret {A} r (a : A) : only (E:=E) r (ret a).
Proof. intros L. apply others_kept_refl. Qed.

Lemma only_bind {A B} r (m : M E A) (k : A -> M E B) :
  only r m -> (forall a, only r (k a)) -> only r (bind m k).
Proof.
  intros Hm Hk L. apply wp_bind. eapply wp_mono; [apply Hm | | auto].
  cbn beta. intros a L' HL. eapply wp_mono; [apply Hk | |];
    cbn beta; eauto using others_kept_trans.
Qed.

Lemma only_undefined {A} r : only (E:=E) (A:=A) r undefined.
Proof. intros L. exact I. Qed.

Lemma only_get r : only (E:=E) r get.
Proof. intros L. apply others_kept_refl. Qed.

Lemma only_native {A} r (f : world E -> A * world E) ev : only r (native f ev).
Proof.
  intros L. apply wp_native. intros a w _. now apply others_kept_heap.
Qed.

Lemma only_modify_object r f : only (E:=E) r (modify_object r f).
Proof.
  intros L. apply wp_modify_object. intros o _. apply others_kept_insert.
Qed.

Lemma only_engine {B} r f ev (getb : lua_apr_socket E -> option B) setb :
  only r (engine f ev getb setb r).
Proof.
  intros L. unfold engine. apply wp_bind, wp_get_object. intros o _.
  destruct (getb o) as [b|]; [|exact I].
  unfold wp. destruct (f (stack L) b (lworld L)) as [[res b'] w].
  destruct res; apply others_kept_insert.
Qed.

Lemma only_socket_close_impl r : only r (socket_close_impl (E:=E) r).
Proof.
  intros L. unfold wp.
  destruct (heap L !! r) as [o|] eqn:Hr.
  - rewrite (socket_close_impl_run E L r o Hr). apply others_kept_insert.
  - unfold socket_close_impl, bind, get_object. now rewrite Hr.
Qed.

(** A method is the check of its first argument followed by work on the
    object the check returned. *)
Lemma only_after_check {A} (k : nat -> M E A) open (L : lua_State E) r args :
  (forall object, only object (k object)) ->
  match bind (socket_check 1 open) k (set_stack L (LSocket r :: args)) with
  | Ok _ L' | Raise _ L' => others_kept r L L'
  | Undefined => True
  end.
Proof.
  intros Hk. unfold bind. rewrite socket_check_frame.
  destruct (heap L !! r) as [o|]; [|exact I].
  destruct (open && _); [now apply others_kept_heap|].
  pose proof (Hk r (set_stack L (LSocket r :: args))) as Hwp.
  unfold wp in Hwp. destruct (k r _); [exact Hwp | exact Hwp | exact I].
Qed.

End Ownership.

Create HintDb own discriminated.

#[export] Hint Resolve only_ret only_undefined only_get only_native
  only_modify_object only_engine only_socket_close_impl : own.

#[export] Hint Extern 1 (only _ (get_object _)) =>
  apply only_stack_only, stack_only_get_object : own.
#[export] Hint Extern 1 (only _ (push_status _)) =>
  apply only_stack_only, stack_only_push_status : own.
#[export] Hint Extern 1 (only _ (push_error_status _)) =>
  apply only_stack_only, stack_only_push_error_status : own.
#[export] Hint Extern 1 (only _ (luaL_checkstring _)) =>
  apply only_stack_only, stack_only_checkstring : own.
#[export] Hint Extern 1 (only _ (luaL_checkinteger _)) =>
  apply only_stack_only, stack_only_checkinteger : own.
#[export] Hint Extern 1 (only _ (luaL_checkoption _ _ _)) =>
  apply only_stack_only, stack_only_checkoption : own.
#[export] Hint Extern 1 (only _ (array_get _ _)) =>
  apply only_stack_only, stack_only_array_get : own.
#[export] Hint Extern 1 (only _ (lua_isnumber _)) =>
  apply only_stack_only, stack_only_isnumber : own.
#[export] Hint Extern 1 (only _ (lua_toboolean _)) =>
  apply only_stack_only, stack_only_toboolean : own.
#[export] Hint Extern 1 (only _ (lua_push _)) =>
  apply only_stack_only, stack_only_push : own.

Ltac own_walk :=
  unfold lua_pushnil, lua_pushboolean, lua_pushinteger, lua_pushstring;
  repeat first
    [ progress eauto with own
    | apply only_bind; [ | intros ? ]
    | match goal with
      | |- only _ (if ?b then _ else _) => destruct b
      | |- only _ (match ?x with _ => _ end) => destruct x
      end ].

(** X22. A method called on one handle writes to no other: after
    bind, listen, connect, read, write, lines, timeout_get, timeout_set,
    addr_get, close, __tostring or __gc on handle [r], however the call
    ends, every other object of the heap is what it was, descriptor,
    arena, buffers, family and protocol, and no object was added. *)
Theorem method_touches_own_object_only (E : Env) (name : string) (f : M E nat)
  (L : lua_State E) (r : nat) (args : list lua_value) :
  In (name, f) (own_object_methods E) ->
  match lua_call E f (LSocket r :: args) L with
  | Ok _ L' | Raise _ L' => others_kept r L L'
  | Undefined => True
  end.
Proof.
  intros Hin.
  assert (Hbody :
    match f (set_stack L (LSocket r :: args)) with
    | Ok _ L' | Raise _ L' => others_kept r L L'
    | Undefined => True
    end).
  { cbn in Hin.
    repeat (destruct Hin as [[= <- <-] | Hin]; [ | ]); [ .. | contradiction ];
      apply only_after_check; intros object; own_walk. }
  unfold lua_call. destruct (f (set_stack L (LSocket r :: args))); auto.
Qed.

Lemma method_touches_own_object_only_witness :
  others_kept 0
    (sim_state [sim_socket (Some 1%nat) (Some 2%nat);
                sim_socket (Some 3%nat) (Some 4%nat)] [])
    (@mk_state Sim.linux64 []
       [sim_socket None None; sim_socket (Some 3%nat) (Some 4%nat)]
       (Sim.mk_world 3 [] [] [])
       [EvSocketClose 2%nat 0; EvPoolDestroy 1%nat]).
Proof.
  exact (method_touches_own_object_only Sim.linux64 "close"
           (socket_close Sim.linux64)
           (sim_state [sim_socket (Some 1%nat) (Some 2%nat);
                       sim_socket (Some 3%nat) (Some 4%nat)] [])
           0%nat [] ltac:(cbn; tauto)).
Defined.

(** ** Creation *)

Section Creation.

Context (E : Env).

Lemma same_store_restore (L L1 : lua_State E) :
  same_store L L1 -> set_stack L1 (stack L) = L.
Proof.
  destruct L, L1. unfold same_store. cbn. intros (? & ? & ?). subst.
  reflexivity.
Qed.

Lemma same_store_frame (L L1 : lua_State E) :
  same_store L L1 -> L1 = set_stack L (stack L1).
Proof.
  destruct L, L1. unfold same_store. cbn. intros (? & ? & ?). subst.
  reflexivity.
Qed.

(** [luaL_checkoption] with a default always ends: with an index into
    the table, or with the parameter error of its argument. *)
Lemma luaL_checkoption_total (L : lua_State E) n d lst :
  (exists j L', luaL_checkoption n (Some d) lst L = Ok j L'
                /\ (j < length lst)%nat /\ same_store L L')
  \/ (exists msg L', luaL_checkoption n (Some d) lst L = Raise (ErrArg n msg) L'
                     /\ same_store L L').
Proof.
  assert (Hfind : forall name,
    (exists j, find_option name lst 0 = Some j /\ (j < length lst)%nat)
    \/ find_option name lst 0 = None).
  { intros name. destruct (find_option name lst 0) as [j|] eqn:Hj; auto.
    left. exists j. split; auto. apply find_option_bound in Hj. lia. }
  unfold luaL_checkoption, luaL_optstring, luaL_checkstring, lua_isnoneornil,
    lua_tolstring, luaL_argerror, luaL_typerror. exec.
  destruct (index2adr L n) as [[ | b | q | s | t | f | r | u | t ]|] eqn:Hi;
    cbn beta iota; rewrite ?Hi; cbn beta iota;
    try (right; eexists _, _; split; [reflexivity | apply same_store_refl]).
  - destruct (Hfind d) as [(j & -> & Hj) | ->]; [left|right];
      eexists _, _; repeat split; eauto.
  - destruct (Hfind (lua_number2str E q)) as [(j & -> & Hj) | ->];
      [left|right]; eexists _, _; repeat split; eauto.
  - destruct (Hfind s) as [(j & -> & Hj) | ->]; [left|right];
      eexists _, _; repeat split; eauto.
  - destruct (Hfind d) as [(j & -> & Hj) | ->]; [left|right];
      eexists _, _; repeat split; eauto.
Qed.

Lemma family_values_length : length (family_values E) = length (family_options E).
Proof. unfold family_values, family_options. now destruct (APR_HAVE_IPV6 E). Qed.

Lemma family_check_total (L : lua_State E) n :
  (exists fam L', family_check E n L = Ok fam L' /\ same_store L L')
  \/ (exists msg L', family_check E n L = Raise (ErrArg n msg) L'
                     /\ same_store L L').
Proof.
  unfold family_check, bind.
  destruct (luaL_checkoption_total L n "inet" (family_options E))
    as [(j & L' & -> & Hj & Hs) | (msg & L' & -> & Hs)]; [|right; eauto].
  left. unfold array_get. rewrite <- family_values_length in Hj.
  destruct (lookup_lt_is_Some_2 _ _ Hj) as [v ->]. eauto.
Qed.

(** The part of [apr.socket_create] after the checks of its tokens. *)
Lemma socket_create_tail (L : lua_State E) stk fam proto :
  lua_call E
    (a <- socket_alloc E fam proto None ;;
     status <- (if fst a =? APR_SUCCESS then
                  r <- deref (snd a) ;;
                  o <- get_object r ;;
                  c <- native (apr_socket_create E fam (socket_type E proto)
                                 proto (pool o))
                         (fun c => EvSocketCreate fam (socket_type E proto) proto
                                     (pool o) (fst c) (snd c)) ;;
                  modify_object r (set_handle (snd c)) ;;
                  ret (fst c)
                else ret (fst a)) ;;
     if negb (status =? APR_SUCCESS) then push_error_status status
     else socket_init (snd a) ;; ret 1%nat) stk L
  = create_outcome E L fam proto.
Proof.
  unfold lua_call, create_outcome.
  destruct (apr_pool_create E (lworld L)) as [[st p] w] eqn:Hp.
  unfold bind at 1.
  rewrite (socket_alloc_run E (set_stack L stk) fam proto None st p w Hp).
  cbn [fst snd].
  unfold push_error_status, socket_init.
  destruct (st =? APR_SUCCESS) eqn:Hst; exec.
  - rewrite lookup_fresh. exec. cbn [pool].
    destruct (apr_socket_create E fam _ proto p w) as [[st' h] w'] eqn:Hc.
    exec. rewrite lookup_fresh. exec. rewrite insert_fresh.
    destruct (st' =? APR_SUCCESS) eqn:Hst'; cbn [negb]; exec.
    + rewrite lookup_fresh. exec. rewrite lookup_fresh. exec.
      rewrite insert_fresh. f_equal.
      * now apply top_results.
      * unfold set_buffers, set_handle. cbn. f_equal.
        now rewrite <- !app_assoc.
    + f_equal.
      * rewrite <- app_assoc. now apply top_results.
      * unfold set_handle. cbn. f_equal. now rewrite <- !app_assoc.
  - rewrite Hst. cbn [negb]. exec. f_equal.
    rewrite <- app_assoc. now apply top_results.
Qed.

(** [apr.socket_create] on any arguments: a parameter error that leaves
    the state as it was, or the outcome for the constants of the tokens. *)
Lemma socket_create_cases (L : lua_State E) args :
  (exists n msg, lua_call E (lua_apr_socket_create E) args L
                 = Raise (ErrArg n msg) L)
  \/ (exists fam proto,
        lua_call E (lua_apr_socket_create E) args L
        = create_outcome E L fam proto).
Proof.
  destruct (luaL_checkoption_total (set_stack L args) 1 "tcp" proto_options)
    as [(j & L1 & H1 & Hj & Hs1) | (msg & L1 & H1 & Hs1)].
  2: { left. exists 1%nat, msg. unfold lua_call, lua_apr_socket_create.
       unfold bind at 1. rewrite H1. f_equal.
       now apply same_store_restore. }
  assert (Hproto : exists proto, array_get (E:=E) (proto_values E) j = ret proto).
  { unfold array_get. destruct (lookup_lt_is_Some_2 (proto_values E) j Hj)
      as [v ->]. eauto. }
  destruct Hproto as (proto & Hproto).
  destruct (family_check_total L1 2)
    as [(fam & L2 & H2 & Hs2) | (msg & L2 & H2 & Hs2)].
  2: { left. exists 2%nat, msg. unfold lua_call, lua_apr_socket_create.
       unfold bind at 1. rewrite H1. unfold bind at 1. rewrite Hproto.
       unfold ret at 1. unfold bind at 1. rewrite H2. f_equal.
       apply same_store_restore. eapply same_store_trans; eauto. }
  right. exists fam, proto.
  rewrite <- (socket_create_tail L (stack L2) fam proto).
  assert (HL2 : L2 = set_stack L (stack L2)).
  { apply same_store_frame. eapply same_store_trans; eauto. }
  unfold lua_call, lua_apr_socket_create.
  unfold bind at 1. rewrite H1. unfold bind at 1. rewrite Hproto.
  unfold ret at 1. unfold bind at 1. rewrite H2.
  fold (socket_type E proto). rewrite <- HL2. reflexivity.
Qed.

End Creation.

(** X3. When the pool of the new object cannot be created,
    [apr.socket_create] stops there: it asks for no native socket, sets
    no buffers, and returns nil and the message of the pool's status
    (unless one of its tokens was invalid, which is a parameter error
    before anything is allocated). *)
Theorem create_reports_pool_failure (E : Env) (L : lua_State E)
  (args : list lua_value) (st : apr_status_t) (p : option apr_pool_t)
  (w : world E) :
  apr_pool_create E (lworld L) = (st, p, w) ->
  st <> APR_SUCCESS ->
  (exists n msg,
      lua_call E (lua_apr_socket_create E) args L = Raise (ErrArg n msg) L)
  \/ (exists fam proto,
        lua_call E (lua_apr_socket_create E) args L
        = Ok [LNil; LString (apr_strerror E st)]
            (mk_state (stack L)
               (heap L ++ [mk_socket None None p None fam proto]) w
               (trace L ++ [EvPoolCreate st p]))).
Proof.
  intros Hp Hst.
  destruct (socket_create_cases E L args) as [Hraise | (fam & proto & Hcall)];
    [now left|].
  right. exists fam, proto. rewrite Hcall. unfold create_outcome.
  rewrite Hp. apply Z.eqb_neq in Hst. now rewrite Hst.
Qed.

Lemma create_reports_pool_failure_witness :
  (exists n msg,
      lua_call Sim.linux64 (lua_apr_socket_create Sim.linux64) [LString "udp"]
        (Sim.start Sim.linux64 (Sim.mk_world 1 [12] [] []))
      = Raise (ErrArg n msg) (Sim.start Sim.linux64 (Sim.mk_world 1 [12] [] [])))
  \/ (exists fam proto,
        lua_call Sim.linux64 (lua_apr_socket_create Sim.linux64) [LString "udp"]
          (Sim.start Sim.linux64 (Sim.mk_world 1 [12] [] []))
        = Ok [LNil; LString "APR status 12"]
            (@mk_state Sim.linux64 []
               [@mk_socket Sim.linux64 None None None None fam proto]
               (Sim.mk_world 1 [] [] []) [EvPoolCreate 12 None])).
Proof.
  apply (create_reports_pool_failure Sim.linux64
           (Sim.start Sim.linux64 (Sim.mk_world 1 [12] [] []))
           [LString "udp"] 12 None (Sim.mk_world 1 [] [] []));
    [reflexivity | discriminate].
Defined.

(** X4. [apr.socket_create] has a defined result on all arguments and
    whatever the native layer answers: it never uses its object pointer
    unassigned and never leaves its option tables.  When it raises, the
    error is a parameter error and the state is the one before the
    call. *)
Theorem create_is_always_defined (E : Env) (L : lua_State E)
  (args : list lua_value) :
  lua_call E (lua_apr_socket_create E) args L <> Undefined
  /\ forall e L',
       lua_call E (lua_apr_socket_create E) args L = Raise e L' ->
       L' = L /\ exists n msg, e = ErrArg n msg.
Proof.
  destruct (socket_create_cases E L args)
    as [(n & msg & ->) | (fam & proto & ->)].
  - split; [discriminate|]. intros e L' [= <- <-]. eauto.
  - unfold create_outcome.
    destruct (apr_pool_create E (lworld L)) as [[st p] w].
    destruct (st =? APR_SUCCESS);
      [destruct (apr_socket_create E fam _ proto p w) as [[st' h] w'];
       destruct (st' =? APR_SUCCESS)|];
      (split; [discriminate | intros e L' H; discriminate H]).
Qed.

Section Pairing.

Context (E : Env).

(** A call of [apr.socket_create] that returned a handle made a pool and
    a socket, in this order, and set the buffers on the socket. *)
Lemma socket_create_returns_handle (L L1 : lua_State E) args c :
  lua_call E (lua_apr_socket_create E) args L = Ok [LSocket c] L1 ->
  exists fam proto p w h w',
    apr_pool_create E (lworld L) = (APR_SUCCESS, p, w)
    /\ apr_socket_create E fam (socket_type E proto) proto p w
       = (APR_SUCCESS, h, w')
    /\ c = length (heap L)
    /\ L1 = mk_state (stack L)
              (heap L ++ [mk_socket (Some (fst (init_buffers E h 0)))
                            (Some (snd (init_buffers E h 0))) p h fam proto])
              w'
              (trace L ++ [EvPoolCreate APR_SUCCESS p;
                           EvSocketCreate fam (socket_type E proto) proto p
                             APR_SUCCESS h;
                           EvInitBuffers h]).
Proof.
  destruct (socket_create_cases E L args)
    as [(n & msg & ->) | (fam & proto & ->)]; [discriminate|].
  unfold create_outcome.
  destruct (apr_pool_create E (lworld L)) as [[st p] w] eqn:Hp.
  destruct (st =? APR_SUCCESS) eqn:Hst; [|discriminate].
  destruct (apr_socket_create E fam _ proto p w) as [[st' h] w'] eqn:Hc.
  destruct (st' =? APR_SUCCESS) eqn:Hst'; [|discriminate].
  apply Z.eqb_eq in Hst, Hst'. subst st st'.
  intros [= <- <-]. exists fam, proto, p, w, h, w'. repeat split; assumption.
Qed.

(** A call of [apr.socket_create] that made the pool but not the socket
    leaves an object that nothing refers to and that still owns the
    pool. *)
Lemma socket_create_orphan (L : lua_State E) args fam proto p w st h w' :
  lua_call E (lua_apr_socket_create E) args L = create_outcome E L fam proto ->
  apr_pool_create E (lworld L) = (APR_SUCCESS, p, w) ->
  apr_socket_create E fam (socket_type E proto) proto p w = (st, h, w') ->
  st <> APR_SUCCESS ->
  lua_call E (lua_apr_socket_create E) args L
  = Ok [LNil; LString (apr_strerror E st)]
      (mk_state (stack L) (heap L ++ [mk_socket None None p h fam proto]) w'
         (trace L ++ [EvPoolCreate APR_SUCCESS p;
                      EvSocketCreate fam (socket_type E proto) proto p st h])).
Proof.
  intros -> Hp Hc Hst. unfold create_outcome. rewrite Hp.
  cbn [Z.eqb APR_SUCCESS]. rewrite Hc.
  apply Z.eqb_neq in Hst. now rewrite Hst.
Qed.

(** [apr.socket_create(p, s)] with two valid tokens comes to the outcome
    for their constants. *)
Lemma socket_create_tokens (L : lua_State E) p s :
  p = "tcp" \/ p = "udp" ->
  supported_family E s ->
  lua_call E (lua_apr_socket_create E) [LString p; LString s] L
  = create_outcome E L (family_constant E s) (protocol_constant E p).
Proof.
  intros Hp Hs.
  rewrite <- (socket_create_tail E L [LString p; LString s]).
  unfold lua_call, lua_apr_socket_create. unfold bind at 1.
  rewrite (luaL_checkoption_string E _ 1 p) by reflexivity.
  assert (Hproto : exists j, find_option p proto_options 0 = Some j
                             /\ proto_values E !! j = Some (protocol_constant E p)).
  { destruct Hp as [-> | ->]; [exists 0%nat | exists 1%nat]; split; reflexivity. }
  destruct Hproto as (j & -> & Hj).
  unfold bind at 1. unfold array_get. rewrite Hj. unfold ret at 1.
  unfold bind at 1.
  rewrite (family_check_supported E _ 2 s) by (reflexivity || assumption).
  reflexivity.
Qed.

End Pairing.

(** X5. What [close] releases is what [apr.socket_create] acquired.  A
    call of create that returned a handle made one pool and then one
    socket in it; [close] on that handle closes that socket and then
    destroys that pool, and nothing else. *)
Theorem close_releases_what_create_acquired (E : Env) (L L1 : lua_State E)
  (args : list lua_value) (c : nat) :
  lua_call E (lua_apr_socket_create E) args L = Ok [LSocket c] L1 ->
  exists fam ty proto p h,
    trace L1 = trace L ++ [EvPoolCreate APR_SUCCESS p;
                           EvSocketCreate fam ty proto p APR_SUCCESS h;
                           EvInitBuffers h]
    /\ forall h' cargs,
         h = Some h' ->
         exists st L2,
           lua_call E (socket_close E) (LSocket c :: cargs) L1
           = Ok (status_results E st) L2
           /\ trace L2 = trace L1 ++ EvSocketClose h' st
                           :: match p with
                              | Some p' => [EvPoolDestroy p']
                              | None => []
                              end.
Proof.
  intros Hcreate.
  destruct (socket_create_returns_handle E L L1 args c Hcreate)
    as (fam & proto & p & w & h & w' & Hp & Hc & -> & ->).
  exists fam, (socket_type E proto), proto, p, h. split; [reflexivity|].
  intros h' cargs ->. eexists _, _.
  erewrite socket_close_run; [| cbn [heap]; apply lookup_fresh | reflexivity].
  split; reflexivity.
Qed.

Lemma close_releases_what_create_acquired_witness :
  exists fam ty proto p h,
    trace sim_created
    = trace (Sim.start Sim.linux64 Sim.world0)
      ++ [EvPoolCreate APR_SUCCESS p;
          EvSocketCreate fam ty proto p APR_SUCCESS h; EvInitBuffers h]
    /\ forall h' cargs,
         h = Some h' ->
         exists st L2,
           lua_call Sim.linux64 (socket_close Sim.linux64) (LSocket 0 :: cargs)
             sim_created
           = Ok (status_results Sim.linux64 st) L2
           /\ trace L2 = trace sim_created ++ EvSocketClose h' st
                           :: match p with
                              | Some p' => [EvPoolDestroy p']
                              | None => []
                              end.
Proof.
  apply (close_releases_what_create_acquired Sim.linux64
           (Sim.start Sim.linux64 Sim.world0) sim_created [] 0%nat).
  reflexivity.
Defined.

(** X6. When the native socket cannot be created, [apr.socket_create]
    returns nil and the message of that status and does not destroy the
    pool it made: the object it allocated keeps it, and the finalizer of
    that object is what releases it (after closing whatever socket
    pointer the native call left). *)
Theorem failed_create_is_released_by_finalizer (E : Env) (L : lua_State E)
  (ptok s : string) (p : option apr_pool_t)
  (w w' : world E) (st : apr_status_t) (h : option apr_socket_t) :
  let fam := family_constant E s in
  let proto := protocol_constant E ptok in
  ptok = "tcp" \/ ptok = "udp" ->
  supported_family E s ->
  apr_pool_create E (lworld L) = (APR_SUCCESS, p, w) ->
  apr_socket_create E fam (socket_type E proto) proto p w = (st, h, w') ->
  st <> APR_SUCCESS ->
  exists L1 L2,
    lua_call E (lua_apr_socket_create E) [LString ptok; LString s] L
    = Ok [LNil; LString (apr_strerror E st)] L1
    /\ heap L1 = heap L ++ [mk_socket None None p h fam proto]
    /\ trace L1 = trace L ++ [EvPoolCreate APR_SUCCESS p;
                              EvSocketCreate fam (socket_type E proto) proto p
                                st h]
    /\ lua_call E (socket_gc E) [LSocket (length (heap L))] L1 = Ok [] L2
    /\ heap L2 = heap L ++ [mk_socket None None None None fam proto]
    /\ trace L2 = trace L1
         ++ match h with
            | Some h' => [EvSocketClose h' (fst (apr_socket_close E h' w'))]
            | None => []
            end
         ++ match p with
            | Some p' => [EvPoolDestroy p']
            | None => []
            end.
Proof.
  intros fam proto Htok Hs Hp Hc Hst.
  eexists _, _.
  rewrite (socket_create_orphan E L _ fam proto p w st h w');
    [| now apply socket_create_tokens | assumption..].
  split; [reflexivity|]. split; [reflexivity|]. split; [reflexivity|].
  erewrite socket_gc_run; [| cbn [heap]; apply lookup_fresh].
  split; [reflexivity|].
  unfold after_call, closed_object, teardown_events. cbn [heap trace lworld].
  rewrite insert_fresh. split; reflexivity.
Qed.

Lemma failed_create_is_released_by_finalizer_witness :
  exists L1 L2,
    lua_call Sim.linux64 (lua_apr_socket_create Sim.linux64)
      [LString "tcp"; LString "inet"]
      (Sim.start Sim.linux64 (Sim.mk_world 1 [0; 24] [] []))
    = Ok [LNil; LString "APR status 24"] L1
    /\ heap L1 = [@mk_socket Sim.linux64 None None (Some 1%nat) None 2 6]
    /\ trace L1 = [EvPoolCreate 0 (Some 1%nat);
                   EvSocketCreate 2 1 6 (Some 1%nat) 24 None]
    /\ lua_call Sim.linux64 (socket_gc Sim.linux64) [LSocket 0] L1 = Ok [] L2
    /\ heap L2 = [@mk_socket Sim.linux64 None None None None 2 6]
    /\ trace L2 = trace L1 ++ [] ++ [EvPoolDestroy 1%nat].
Proof.
  apply (failed_create_is_released_by_finalizer Sim.linux64
           (Sim.start Sim.linux64 (Sim.mk_world 1 [0; 24] [] []))
           "tcp" "inet" (Some 1%nat) (Sim.mk_world 2 [24] [] [])
           (Sim.mk_world 2 [] [] []) 24 None).
  - now left.
  - now left.
  - reflexivity.
  - reflexivity.
  - discriminate.
Defined.

(** ** accept and the objects that exist *)

(** Whenever [accept] returns, with a handle or with nil and a message,
    it has appended one object to the heap and written to no other. *)
Lemma socket_accept_returns (E : Env) (L L' : lua_State E) r o args res :
  heap L !! r = Some o ->
  lua_call E (socket_accept E) (LSocket r :: args) L = Ok res L' ->
  exists h p w st hc w',
    handle o = Some h
    /\ apr_pool_create E (lworld L) = (APR_SUCCESS, p, w)
    /\ apr_socket_accept E (Some h) p w = (st, hc, w')
    /\ res = (if st =? APR_SUCCESS then [LSocket (length (heap L))]
              else [LNil; LString (apr_strerror E st)])
    /\ heap L' = heap L ++ [mk_socket (Some (fst (init_buffers E hc 0)))
                              (Some (snd (init_buffers E hc 0)))
                              p hc (family o) (protocol o)].
Proof.
  intros Hr Hcall.
  destruct (handle o) as [h|] eqn:Hh.
  2: { unfold lua_call, socket_accept in Hcall.
       rewrite (closed_check_stops E _ L r o) in Hcall by assumption.
       discriminate. }
  destruct (apr_pool_create E (lworld L)) as [[st p] w] eqn:Hp.
  destruct (Z.eq_dec st APR_SUCCESS) as [-> | Hst].
  2: { rewrite (socket_accept_unassigned E L r o h args st p w) in Hcall
         by assumption. discriminate. }
  destruct (apr_socket_accept E (Some h) p w) as [[st hc] w'] eqn:Ha.
  rewrite (socket_accept_run E L r o h args p w st hc w') in Hcall by assumption.
  injection Hcall as <- <-.
  exists h, p, w, st, hc, w'. repeat split; assumption.
Qed.

(** X7. [accept] does not change the listening handle, nor any other
    object that exists: whenever it returns, with a client handle or with
    nil and a message, the heap is the old heap followed by one new
    object, which has the family and protocol of the listening handle. *)
Theorem accept_leaves_existing_objects (E : Env) (L L' : lua_State E)
  (r : nat) (o : lua_apr_socket E) (args res : list lua_value) :
  heap L !! r = Some o ->
  lua_call E (socket_accept E) (LSocket r :: args) L = Ok res L' ->
  exists client,
    heap L' = heap L ++ [client]
    /\ family client = family o /\ protocol client = protocol o
    /\ heap L' !! r = Some o
    /\ (res = [LSocket (length (heap L))]
        \/ exists st, st <> APR_SUCCESS
                      /\ res = [LNil; LString (apr_strerror E st)]).
Proof.
  intros Hr Hcall.
  destruct (socket_accept_returns E L L' r o args res Hr Hcall)
    as (h & p & w & st & hc & w' & Hh & Hp & Ha & -> & Hheap).
  eexists. split; [exact Hheap|]. split; [reflexivity|]. split; [reflexivity|].
  split.
  - rewrite Hheap. now apply lookup_app_l_Some.
  - destruct (st =? APR_SUCCESS) eqn:Hst; [now left|].
    right. exists st. split; [now apply Z.eqb_neq | reflexivity].
Qed.

Lemma accept_leaves_existing_objects_witness :
  exists client,
    heap sim_accepted = heap (sim_open []) ++ [client]
    /\ family client = 2 /\ protocol client = 6
    /\ heap sim_accepted !! 0%nat = Some (sim_socket (Some 1%nat) (Some 2%nat))
    /\ ([LSocket 1] = [LSocket (length (heap (sim_open [])))]
        \/ exists st, st <> APR_SUCCESS
                      /\ [LSocket 1] = [LNil; LString (Sim.strerror st)]).
Proof.
  apply (accept_leaves_existing_objects Sim.linux64 (sim_open []) sim_accepted
           0%nat (sim_socket (Some 1%nat) (Some 2%nat)) [] [LSocket 1]);
    reflexivity.
Defined.

(** X8. When the native accept fails, the client object that [accept]
    allocated stays in the heap with the pool made for it and with
    whatever socket pointer the native call left; [accept] itself
    releases neither.  The finalizer of that object closes the socket,
    if the pointer is not null, and then destroys the pool. *)
Theorem failed_accept_is_released_by_finalizer (E : Env) (L : lua_State E)
  (r : nat) (o : lua_apr_socket E) (h : apr_socket_t) (args : list lua_value)
  (p : option apr_pool_t) (w w' : world E) (st : apr_status_t)
  (hc : option apr_socket_t) :
  heap L !! r = Some o ->
  handle o = Some h ->
  apr_pool_create E (lworld L) = (APR_SUCCESS, p, w) ->
  apr_socket_accept E (Some h) p w = (st, hc, w') ->
  st <> APR_SUCCESS ->
  exists L1 L2 client,
    lua_call E (socket_accept E) (LSocket r :: args) L
    = Ok [LNil; LString (apr_strerror E st)] L1
    /\ heap L1 = heap L ++ [client]
    /\ pool client = p /\ handle client = hc
    /\ trace L1 = trace L ++ [EvPoolCreate APR_SUCCESS p;
                              EvAccept (Some h) p st hc; EvInitBuffers hc]
    /\ lua_call E (socket_gc E) [LSocket (length (heap L))] L1 = Ok [] L2
    /\ heap L2 = heap L ++ [closed_object client]
    /\ trace L2 = trace L1
         ++ match hc with
            | Some h' => [EvSocketClose h' (fst (apr_socket_close E h' w'))]
            | None => []
            end
         ++ match p with
            | Some p' => [EvPoolDestroy p']
            | None => []
            end.
Proof.
  intros Hr Hh Hp Ha Hst.
  eexists _, _, _.
  rewrite (socket_accept_run E L r o h args p w st hc w') by assumption.
  apply Z.eqb_neq in Hst. rewrite Hst.
  split; [reflexivity|]. split; [reflexivity|]. split; [reflexivity|].
  split; [reflexivity|]. split; [reflexivity|].
  erewrite socket_gc_run; [| cbn [heap]; apply lookup_fresh].
  split; [reflexivity|].
  unfold after_call, teardown_events. cbn [heap trace lworld handle pool].
  rewrite insert_fresh. split; reflexivity.
Qed.

Lemma failed_accept_is_released_by_finalizer_witness :
  exists L1 L2 client,
    lua_call Sim.linux64 (socket_accept Sim.linux64) [LSocket 0]
      (sim_open [0; 11])
    = Ok [LNil; LString "APR status 11"] L1
    /\ heap L1 = heap (sim_open [0; 11]) ++ [client]
    /\ pool client = Some 3%nat /\ handle client = Some 4%nat
    /\ trace L1 = [EvPoolCreate 0 (Some 3%nat);
                   EvAccept (Some 2%nat) (Some 3%nat) 11 (Some 4%nat);
                   EvInitBuffers (Some 4%nat)]
    /\ lua_call Sim.linux64 (socket_gc Sim.linux64) [LSocket 1] L1 = Ok [] L2
    /\ heap L2 = heap (sim_open [0; 11]) ++ [closed_object client]
    /\ trace L2 = trace L1 ++ [EvSocketClose 4%nat 0] ++ [EvPoolDestroy 3%nat].
Proof.
  apply (failed_accept_is_released_by_finalizer Sim.linux64 (sim_open [0; 11])
           0%nat (sim_socket (Some 1%nat) (Some 2%nat)) 2%nat []
           (Some 3%nat) (Sim.mk_world 4 [11] [] []) (Sim.mk_world 5 [] [] [])
           11 (Some 4%nat)).
  - reflexivity.
  - reflexivity.
  - reflexivity.
  - reflexivity.
  - discriminate.
Defined.

(** ** connect and bind *)

Section ConnectBind.

Context (E : Env).

Lemma luaL_checkstring_string (L : lua_State E) i s :
  index2adr L i = Some (LString s) -> luaL_checkstring i L = Ok s L.
Proof.
  intros Hi. unfold luaL_checkstring, lua_tolstring. exec. now rewrite Hi.
Qed.

Lemma to_apr_port_t_mod n : to_apr_port_t n = n mod 65536.
Proof. reflexivity. Qed.

(** The results and the state after the status of a native call. *)
Lemma push_status_results (L : lua_State E) args st w tr :
  match push_status st (mk_state args (heap L) w tr) with
  | Ok n L' =>
      Ok (drop (length (stack L') - n) (stack L')) (set_stack L' (stack L))
  | Raise e L' => Raise e (set_stack L' (stack L))
  | Undefined => Undefined
  end
  = Ok (status_results E st) (mk_state (stack L) (heap L) w tr).
Proof.
  unfold push_status, push_error_status, status_results.
  destruct (st =? APR_SUCCESS); exec; f_equal;
    first [ now apply top_results
          | rewrite <- app_assoc; now apply top_results ].
Qed.

Lemma socket_connect_run (L : lua_State E) r o h host a3 rest d n st a w :
  heap L !! r = Some o -> handle o = Some h ->
  tonumber E (Some a3) = Some d ->
  lua_number2integer E d = Some n ->
  apr_sockaddr_info_get E host (family o) (n mod 65536) 0 (pool o) (lworld L)
  = (st, a, w) ->
  lua_call E (socket_connect E) (LSocket r :: LString host :: a3 :: rest) L
  = if st =? APR_SUCCESS then
      Ok (status_results E (fst (apr_socket_connect E (Some h) a w)))
        (mk_state (stack L) (heap L) (snd (apr_socket_connect E (Some h) a w))
           (trace L ++ [EvSockaddrInfoGet host (family o) (n mod 65536) 0
                          (pool o) st;
                        EvConnect (Some h) a
                          (fst (apr_socket_connect E (Some h) a w))]))
    else
      Ok [LNil; LString (apr_strerror E st)]
        (mk_state (stack L) (heap L) w
           (trace L ++ [EvSockaddrInfoGet host (family o) (n mod 65536) 0
                          (pool o) st])).
Proof.
  intros Hr Hh Hd Hn Hi.
  unfold lua_call, socket_connect. unfold bind at 1.
  rewrite socket_check_frame, Hr, Hh. cbn [andb].
  unfold bind at 1. rewrite (luaL_checkstring_string _ 2 host) by reflexivity.
  unfold bind at 1. rewrite (luaL_checkinteger_number E _ 3 d n) by assumption.
  rewrite to_apr_port_t_mod.
  unfold bind at 1. unfold get_object at 1. cbn [heap set_stack]. rewrite Hr.
  unfold bind at 1. unfold native at 1.
  cbn [lworld set_stack stack heap trace]. rewrite Hi.
  cbn [fst snd stack heap lworld trace].
  destruct (st =? APR_SUCCESS) eqn:Hst.
  - unfold bind at 1. unfold native at 1.
    cbn [lworld set_stack stack heap trace]. rewrite Hh.
    destruct (apr_socket_connect E (Some h) a w) as [st2 w2].
    cbn [fst snd stack heap lworld trace].
    rewrite <- app_assoc. apply push_status_results.
  - unfold bind, ret.
    rewrite (push_status_results L _ st w). unfold status_results.
    now rewrite Hst.
Qed.

Lemma socket_bind_run (L : lua_State E) r o h host a3 rest d n st a w :
  let name := if strcmp_eq host "*" then APR_ANYADDR E else host in
  heap L !! r = Some o -> handle o = Some h ->
  tonumber E (Some a3) = Some d ->
  lua_number2integer E d = Some n ->
  apr_sockaddr_info_get E name (family o) (n mod 65536) 0 (pool o) (lworld L)
  = (st, a, w) ->
  lua_call E (socket_bind E) (LSocket r :: LString host :: a3 :: rest) L
  = if st =? APR_SUCCESS then
      Ok (status_results E (fst (apr_socket_bind E (Some h) a w)))
        (mk_state (stack L) (heap L) (snd (apr_socket_bind E (Some h) a w))
           (trace L ++ [EvSockaddrInfoGet name (family o) (n mod 65536) 0
                          (pool o) st;
                        EvBind (Some h) a
                          (fst (apr_socket_bind E (Some h) a w))]))
    else
      Ok [LNil; LString (apr_strerror E st)]
        (mk_state (stack L) (heap L) w
           (trace L ++ [EvSockaddrInfoGet name (family o) (n mod 65536) 0
                          (pool o) st])).
Proof.
  intros name Hr Hh Hd Hn Hi.
  unfold lua_call, socket_bind. unfold bind at 1.
  rewrite socket_check_frame, Hr, Hh. cbn [andb].
  unfold bind at 1. rewrite (luaL_checkstring_string _ 2 host) by reflexivity.
  fold name.
  unfold bind at 1. rewrite (luaL_checkinteger_number E _ 3 d n) by assumption.
  rewrite to_apr_port_t_mod.
  unfold bind at 1. unfold get_object at 1. cbn [heap set_stack]. rewrite Hr.
  unfold bind at 1. unfold native at 1.
  cbn [lworld set_stack stack heap trace]. rewrite Hi.
  cbn [fst snd stack heap lworld trace].
  destruct (st =? APR_SUCCESS) eqn:Hst.
  - unfold bind at 1. unfold native at 1.
    cbn [lworld set_stack stack heap trace]. rewrite Hh.
    destruct (apr_socket_bind E (Some h) a w) as [st2 w2].
    cbn [fst snd stack heap lworld trace].
    rewrite <- app_assoc. apply push_status_results.
  - unfold bind, ret.
    rewrite (push_status_results L _ st w). unfold status_results.
    now rewrite Hst.
Qed.

End ConnectBind.

(** X9. [connect] resolves, then connects.  The port is not range
    checked: the native lookup gets the integer modulo 65536, together
    with the host string as it is, the family and the pool of the handle.
    The native connect is made only after a successful lookup, once,
    with the address the lookup gave; a failed lookup is returned as nil
    and its message. *)
Theorem connect_resolves_then_connects (E : Env) (L : lua_State E) (r : nat)
  (o : lua_apr_socket E) (h : apr_socket_t) (host : string) (a3 : lua_value)
  (rest : list lua_value) (d : lua_Number) (n : Z) (st : apr_status_t)
  (a : option apr_sockaddr_t) (w : world E) :
  heap L !! r = Some o ->
  handle o = Some h ->
  tonumber E (Some a3) = Some d ->
  lua_number2integer E d = Some n ->
  apr_sockaddr_info_get E host (family o) (n mod 65536) 0 (pool o) (lworld L)
  = (st, a, w) ->
  0 <= n mod 65536 < 65536
  /\ lua_call E (socket_connect E) (LSocket r :: LString host :: a3 :: rest) L
     = if st =? APR_SUCCESS then
         Ok (status_results E (fst (apr_socket_connect E (Some h) a w)))
           (mk_state (stack L) (heap L)
              (snd (apr_socket_connect E (Some h) a w))
              (trace L ++ [EvSockaddrInfoGet host (family o) (n mod 65536) 0
                             (pool o) st;
                           EvConnect (Some h) a
                             (fst (apr_socket_connect E (Some h) a w))]))
       else
         Ok [LNil; LString (apr_strerror E st)]
           (mk_state (stack L) (heap L) w
              (trace L ++ [EvSockaddrInfoGet host (family o) (n mod 65536) 0
                             (pool o) st])).
Proof.
  intros Hr Hh Hd Hn Hi. split; [apply Z.mod_pos_bound; lia|].
  now apply (socket_connect_run E L r o h host a3 rest d n st a w).
Qed.

Lemma connect_resolves_then_connects_witness :
  0 <= 65616 mod 65536 < 65536
  /\ lua_call Sim.linux64 (socket_connect Sim.linux64)
       [LSocket 0; LString "example.org"; LNumber (inject_Z 65616)] (sim_open [])
     = Ok [LBoolean true]
         (@mk_state Sim.linux64 [] [sim_socket (Some 1%nat) (Some 2%nat)]
            (Sim.mk_world 4 [] [] [])
            [EvSockaddrInfoGet "example.org" 2 80 0 (Some 1%nat) 0;
             EvConnect (Some 2%nat) (Some 3%nat) 0]).
Proof.
  apply (connect_resolves_then_connects Sim.linux64 (sim_open []) 0%nat
           (sim_socket (Some 1%nat) (Some 2%nat)) 2%nat "example.org"
           (LNumber (inject_Z 65616)) [] (inject_Z 65616) 65616 0
           (Some 3%nat) (Sim.mk_world 4 [] [] [])); reflexivity.
Defined.

(** X10. [bind] does the same with its own native call, and with one
    difference in the host: a host that [strcmp] finds equal to "*",
    that is a string that is "*" up to its first NUL, is replaced by the
    any-address constant before the lookup; every other host is looked
    up as it is. *)
Theorem bind_resolves_then_binds (E : Env) (L : lua_State E) (r : nat)
  (o : lua_apr_socket E) (h : apr_socket_t) (host : string) (a3 : lua_value)
  (rest : list lua_value) (d : lua_Number) (n : Z) (st : apr_status_t)
  (a : option apr_sockaddr_t) (w : world E) :
  let name := if strcmp_eq host "*" then APR_ANYADDR E else host in
  heap L !! r = Some o ->
  handle o = Some h ->
  tonumber E (Some a3) = Some d ->
  lua_number2integer E d = Some n ->
  apr_sockaddr_info_get E name (family o) (n mod 65536) 0 (pool o) (lworld L)
  = (st, a, w) ->
  lua_call E (socket_bind E) (LSocket r :: LString host :: a3 :: rest) L
  = if st =? APR_SUCCESS then
      Ok (status_results E (fst (apr_socket_bind E (Some h) a w)))
        (mk_state (stack L) (heap L) (snd (apr_socket_bind E (Some h) a w))
           (trace L ++ [EvSockaddrInfoGet name (family o) (n mod 65536) 0
                          (pool o) st;
                        EvBind (Some h) a
                          (fst (apr_socket_bind E (Some h) a w))]))
    else
      Ok [LNil; LString (apr_strerror E st)]
        (mk_state (stack L) (heap L) w
           (trace L ++ [EvSockaddrInfoGet name (family o) (n mod 65536) 0
                          (pool o) st])).
Proof. apply socket_bind_run. Qed.

Lemma bind_resolves_then_binds_witness :
  lua_call Sim.linux64 (socket_bind Sim.linux64)
    [LSocket 0; LString ("*" ++ String NUL "x"); LNumber (inject_Z (-1))]
    (sim_open [0; 98])
  = Ok [LNil; LString "APR status 98"]
      (@mk_state Sim.linux64 [] [sim_socket (Some 1%nat) (Some 2%nat)]
         (Sim.mk_world 4 [] [] [])
         [EvSockaddrInfoGet "0.0.0.0" 2 65535 0 (Some 1%nat) 0;
          EvBind (Some 2%nat) (Some 3%nat) 98]).
Proof.
  apply (bind_resolves_then_binds Sim.linux64 (sim_open [0; 98]) 0%nat
           (sim_socket (Some 1%nat) (Some 2%nat)) 2%nat
           ("*" ++ String NUL "x")%string
           (LNumber (inject_Z (-1))) [] (inject_Z (-1)) (-1) 0
           (Some 3%nat) (Sim.mk_world 4 [98] [] [])); reflexivity.
Defined.

Lemma luaL_checkinteger_not_number (E : Env) (L : lua_State E) i :
  tonumber E (index2adr L i) = None ->
  luaL_checkinteger i L
  = Raise (ErrArg i ("number expected, got " ++ lua_typename (index2adr L i))) L.
Proof.
  intros Hd. unfold luaL_checkinteger, lua_tointeger, lua_isnumber,
    luaL_typerror, luaL_argerror. exec. rewrite Hd. cbn. now rewrite Hd.
Qed.

(** X11. The integer arguments are mandatory and are checked before
    anything is asked of the native layer: with a backlog, or a port,
    that is absent or is neither a number nor a string that converts to
    one, [listen], [connect] and [bind] raise the parameter error
    "number expected" for that argument and leave the state as it was. *)
Theorem integer_arguments_are_checked (E : Env) (L : lua_State E) (r : nat)
  (o : lua_apr_socket E) (h : apr_socket_t) (host : string)
  (rest : list lua_value) :
  heap L !! r = Some o ->
  handle o = Some h ->
  tonumber E (rest !! 0%nat) = None ->
  let expected :=
    ("number expected, got " ++ lua_typename (rest !! 0%nat))%string in
  lua_call E (socket_listen E) (LSocket r :: rest) L
  = Raise (ErrArg 2 expected) L
  /\ lua_call E (socket_connect E) (LSocket r :: LString host :: rest) L
     = Raise (ErrArg 3 expected) L
  /\ lua_call E (socket_bind E) (LSocket r :: LString host :: rest) L
     = Raise (ErrArg 3 expected) L.
Proof.
  intros Hr Hh Hd expected. repeat split.
  - unfold lua_call, socket_listen. unfold bind at 1.
    rewrite socket_check_frame, Hr, Hh. cbn [andb].
    unfold bind at 1. rewrite luaL_checkinteger_not_number by exact Hd.
    now rewrite set_stack_restore.
  - unfold lua_call, socket_connect. unfold bind at 1.
    rewrite socket_check_frame, Hr, Hh. cbn [andb].
    unfold bind at 1.
    rewrite (luaL_checkstring_string E _ 2 host) by reflexivity.
    unfold bind at 1. rewrite luaL_checkinteger_not_number by exact Hd.
    now rewrite set_stack_restore.
  - unfold lua_call, socket_bind. unfold bind at 1.
    rewrite socket_check_frame, Hr, Hh. cbn [andb].
    unfold bind at 1.
    rewrite (luaL_checkstring_string E _ 2 host) by reflexivity.
    unfold bind at 1. rewrite luaL_checkinteger_not_number by exact Hd.
    now rewrite set_stack_restore.
Qed.

Lemma integer_arguments_are_checked_witness :
  lua_call Sim.linux64 (socket_listen Sim.linux64) [LSocket 0] (sim_open [])
  = Raise (ErrArg 2 "number expected, got no value") (sim_open [])
  /\ lua_call Sim.linux64 (socket_connect Sim.linux64)
       [LSocket 0; LString "example.org"] (sim_open [])
     = Raise (ErrArg 3 "number expected, got no value") (sim_open [])
  /\ lua_call Sim.linux64 (socket_bind Sim.linux64)
       [LSocket 0; LString "example.org"] (sim_open [])
     = Raise (ErrArg 3 "number expected, got no value") (sim_open []).
Proof.
  apply (integer_arguments_are_checked Sim.linux64 (sim_open []) 0%nat
           (sim_socket (Some 1%nat) (Some 2%nat)) 2%nat "example.org" []);
    reflexivity.
Defined.

(** ** addr_get *)

Section AddrGet.

Context (E : Env).

Lemma interface_check (L : lua_State E) r rest which :
  interface_argument (rest !! 0%nat) = Some which ->
  (idx <- luaL_checkoption 2 (Some "remote") addr_options ;;
   array_get addr_values idx) (set_stack L (LSocket r :: rest))
  = Ok which (set_stack L (LSocket r :: rest)).
Proof.
  intros Hw. unfold bind.
  destruct (rest !! 0%nat) as [[ | b | q | s | t | f | r' | u | t ]|] eqn:Hv;
    cbn in Hw; try discriminate.
  - injection Hw as <-.
    rewrite luaL_checkoption_default
      by (right; rewrite index2adr_frame; exact Hv).
    reflexivity.
  - rewrite (luaL_checkoption_string E _ 2 s)
      by (rewrite index2adr_frame; exact Hv).
    unfold addr_options. cbn [find_option].
    destruct (String.eqb_spec s "local") as [-> | Hl].
    + injection Hw as <-. reflexivity.
    + destruct (String.eqb_spec s "remote") as [-> | Hr]; [|discriminate].
      injection Hw as <-. reflexivity.
  - injection Hw as <-.
    rewrite luaL_checkoption_default
      by (left; rewrite index2adr_frame; exact Hv).
    reflexivity.
Qed.

Lemma socket_addr_get_run (L : lua_State E) r o h rest which st a w :
  heap L !! r = Some o -> handle o = Some h ->
  interface_argument (rest !! 0%nat) = Some which ->
  apr_socket_addr_get E which (Some h) (lworld L) = (st, a, w) ->
  lua_call E (socket_addr_get E) (LSocket r :: rest) L
  = if st =? APR_SUCCESS then
      let '(st2, ip, w2) := apr_sockaddr_ip_get E a w in
      let L2 := mk_state (stack L) (heap L) w2
                  (trace L ++ [EvAddrGet which (Some h) st;
                               EvSockaddrIpGet a st2]) in
      if st2 =? APR_SUCCESS then
        match a with
        | Some adr =>
            Ok [LString ip;
                if sockaddr_hostname E adr w2 is Some name then LString name
                else LNil] L2
        | None => Undefined
        end
      else Ok [LNil; LString (apr_strerror E st2)] L2
    else
      Ok [LNil; LString (apr_strerror E st)]
        (mk_state (stack L) (heap L) w
           (trace L ++ [EvAddrGet which (Some h) st])).
Proof.
  intros Hr Hh Hw Ha.
  pose proof (interface_check L r rest which Hw) as Hc. unfold bind in Hc.
  unfold lua_call, socket_addr_get. unfold bind at 1.
  rewrite socket_check_frame, Hr, Hh. cbn [andb].
  unfold bind at 1.
  destruct (luaL_checkoption 2 (Some "remote") addr_options
              (set_stack L (LSocket r :: rest))) as [idx L1| |];
    [|discriminate..].
  unfold bind at 1. rewrite Hc.
  unfold bind at 1. unfold get_object at 1. cbn [heap set_stack]. rewrite Hr.
  unfold bind at 1. unfold native at 1. cbn [lworld set_stack stack heap trace].
  rewrite Hh, Ha. cbn [fst snd].
  destruct (st =? APR_SUCCESS) eqn:Hst.
  - unfold bind at 1. unfold bind at 1. unfold native at 1.
    cbn [lworld set_stack stack heap trace].
    destruct (apr_sockaddr_ip_get E a w) as [[st2 ip] w2].
    unfold ret at 1. cbn [fst snd].
    destruct (st2 =? APR_SUCCESS); cbn [negb].
    + destruct a as [adr|]; [|reflexivity].
      exec. destruct (sockaddr_hostname E adr w2); exec; f_equal;
        first [ rewrite <- app_assoc; now apply top_results
              | now rewrite <- app_assoc ].
    + unfold push_error_status. exec. f_equal;
        first [ rewrite <- app_assoc; now apply top_results
              | now rewrite <- app_assoc ].
  - unfold bind at 1. unfold ret at 1. cbn [fst snd]. rewrite Hst. cbn [negb].
    unfold push_error_status. exec. f_equal.
    rewrite <- app_assoc; now apply top_results.
Qed.

End AddrGet.

(** X12. [addr_get] asks for the address of the interface its optional
    argument names, the remote one by default, and formats it only when
    that succeeded: a failure of either native call is returned as nil
    and its message, and after a failed address lookup the address is
    not formatted.  On success it returns two values, the IP address and
    the host name of the address, nil when the address has none. *)
Theorem addr_get_reports_ip_and_hostname (E : Env) (L : lua_State E) (r : nat)
  (o : lua_apr_socket E) (h : apr_socket_t) (rest : list lua_value)
  (which : apr_interface_e) (st : apr_status_t) (a : option apr_sockaddr_t)
  (w : world E) :
  heap L !! r = Some o ->
  handle o = Some h ->
  interface_argument (rest !! 0%nat) = Some which ->
  apr_socket_addr_get E which (Some h) (lworld L) = (st, a, w) ->
  lua_call E (socket_addr_get E) (LSocket r :: rest) L
  = if st =? APR_SUCCESS then
      let '(st2, ip, w2) := apr_sockaddr_ip_get E a w in
      let L2 := mk_state (stack L) (heap L) w2
                  (trace L ++ [EvAddrGet which (Some h) st;
                               EvSockaddrIpGet a st2]) in
      if st2 =? APR_SUCCESS then
        match a with
        | Some adr =>
            Ok [LString ip;
                if sockaddr_hostname E adr w2 is Some name then LString name
                else LNil] L2
        | None => Undefined
        end
      else Ok [LNil; LString (apr_strerror E st2)] L2
    else
      Ok [LNil; LString (apr_strerror E st)]
        (mk_state (stack L) (heap L) w
           (trace L ++ [EvAddrGet which (Some h) st])).
Proof. apply socket_addr_get_run. Qed.

Lemma addr_get_reports_ip_and_hostname_witness :
  lua_call Sim.linux64 (socket_addr_get Sim.linux64) [LSocket 0] (sim_open [])
  = Ok [LString "127.0.0.1"; LString "localhost"]
      (@mk_state Sim.linux64 [] [sim_socket (Some 1%nat) (Some 2%nat)]
         (Sim.mk_world 4 [] [] [])
         [EvAddrGet APR_REMOTE (Some 2%nat) 0;
          EvSockaddrIpGet (Some 3%nat) 0]).
Proof.
  apply (addr_get_reports_ip_and_hostname Sim.linux64 (sim_open []) 0%nat
           (sim_socket (Some 1%nat) (Some 2%nat)) 2%nat [] APR_REMOTE 0
           (Some 3%nat) (Sim.mk_world 4 [] [] [])); reflexivity.
Defined.

(** X13. The interface argument of [addr_get] is a token, read as a C
    string: a string that is neither "local" nor "remote" up to its
    first NUL raises the parameter error of an invalid option for
    argument 2, before any native call, and the state is what it was.
    The message quotes the C string. *)
Theorem addr_get_rejects_other_tokens (E : Env) (L : lua_State E) (r : nat)
  (o : lua_apr_socket E) (h : apr_socket_t) (s : string)
  (rest : list lua_value) :
  heap L !! r = Some o ->
  handle o = Some h ->
  c_str s <> "local" -> c_str s <> "remote" ->
  lua_call E (socket_addr_get E) (LSocket r :: LString s :: rest) L
  = Raise (invalid_option 2 (c_str s)) L.
Proof.
  intros Hr Hh Hl Hm.
  unfold lua_call, socket_addr_get. unfold bind at 1.
  rewrite socket_check_frame, Hr, Hh. cbn [andb].
  unfold bind at 1.
  rewrite (luaL_checkoption_string E _ 2 s) by reflexivity.
  unfold addr_options. cbn [find_option]. strcmp_literals.
  assert (H1 : String.eqb "local" (c_str s) = false)
    by (apply String.eqb_neq; congruence).
  assert (H2 : String.eqb "remote" (c_str s) = false)
    by (apply String.eqb_neq; congruence).
  rewrite H1, H2. now rewrite set_stack_restore.
Qed.

Lemma addr_get_rejects_other_tokens_witness :
  lua_call Sim.linux64 (socket_addr_get Sim.linux64)
    [LSocket 0; LString ("peer" ++ String NUL "local")] (sim_open [])
  = Raise (ErrArg 2 "invalid option 'peer'") (sim_open []).
Proof.
  apply (addr_get_rejects_other_tokens Sim.linux64 (sim_open []) 0%nat
           (sim_socket (Some 1%nat) (Some 2%nat)) 2%nat
           ("peer" ++ String NUL "local")%string []);
    [reflexivity | reflexivity | discriminate | discriminate].
Defined.

(** ** read and lines *)

Section Reading.

Context (E : Env).

Lemma engine_input_run (f : list lua_value -> lua_apr_readbuf E -> world E ->
                            (lua_error + list lua_value) * lua_apr_readbuf E
                            * world E)
  ev (L : lua_State E) r o h args b res b1 w1 :
  heap L !! r = Some o -> handle o = Some h -> input o = Some b ->
  f (LSocket r :: args) b (lworld L) = (res, b1, w1) ->
  lua_call E (object <- socket_check 1 true ;;
              engine f ev input set_input object) (LSocket r :: args) L
  = match res with
    | inl e => Raise e (after_call L r (set_input b1 o) w1 [ev])
    | inr vs => Ok vs (after_call L r (set_input b1 o) w1 [ev])
    end.
Proof.
  intros Hr Hh Hb Hf.
  unfold lua_call. unfold bind at 1.
  rewrite socket_check_frame, Hr, Hh. cbn [andb].
  unfold engine. exec. rewrite Hr. exec. rewrite Hb. exec. rewrite Hf.
  destruct res as [e|vs]; [reflexivity|].
  unfold after_call. exec. f_equal. now apply top_results.
Qed.

End Reading.

(** X14. [read] and [lines] on an open handle are one call of the
    buffer engine on the input buffer of that handle, with the whole
    argument frame: what the engine pushed is what the method returns,
    an error of the engine is raised as it is, and in both cases the
    input buffer of the object is the one the engine left.  The output
    buffer is not touched and nothing is flushed. *)
Theorem read_and_lines_use_input_buffer (E : Env) (L : lua_State E) (r : nat)
  (o : lua_apr_socket E) (h : apr_socket_t) (args : list lua_value)
  (b : lua_apr_readbuf E) :
  heap L !! r = Some o ->
  handle o = Some h ->
  input o = Some b ->
  (forall res b1 w1,
      read_buffer E (LSocket r :: args) b (lworld L) = (res, b1, w1) ->
      output (set_input b1 o) = output o
      /\ lua_call E (socket_read E) (LSocket r :: args) L
         = match res with
           | inl e =>
               Raise e (after_call L r (set_input b1 o) w1 [EvReadBuffer])
           | inr vs =>
               Ok vs (after_call L r (set_input b1 o) w1 [EvReadBuffer])
           end)
  /\ (forall res b1 w1,
        read_lines E (LSocket r :: args) b (lworld L) = (res, b1, w1) ->
        output (set_input b1 o) = output o
        /\ lua_call E (socket_lines E) (LSocket r :: args) L
           = match res with
             | inl e =>
                 Raise e (after_call L r (set_input b1 o) w1 [EvReadLines])
             | inr vs =>
                 Ok vs (after_call L r (set_input b1 o) w1 [EvReadLines])
             end).
Proof.
  intros Hr Hh Hb. split; intros res b1 w1 Hf; (split; [now destruct o|]).
  - now apply (engine_input_run E (read_buffer E) EvReadBuffer L r o h args b).
  - now apply (engine_input_run E (read_lines E) EvReadLines L r o h args b).
Qed.

Lemma read_and_lines_use_input_buffer_witness :
  lua_call Sim.linux64 (socket_read Sim.linux64) [LSocket 0; LString "*l"]
    (sim_open [])
  = Ok [LNil]
      (@mk_state Sim.linux64 [] [sim_socket (Some 1%nat) (Some 2%nat)]
         (Sim.mk_world 3 [] [] []) [EvReadBuffer]).
Proof.
  exact (proj2 (proj1 (read_and_lines_use_input_buffer Sim.linux64
                         (sim_open []) 0%nat
                         (sim_socket (Some 1%nat) (Some 2%nat)) 2%nat
                         [LString "*l"] tt eq_refl eq_refl eq_refl)
                  (inr [LNil]) tt (Sim.mk_world 3 [] [] []) eq_refl)).
Defined.

(** ** Calls that leave the objects alone *)

Section HeapFixed.

Context {E : Env}.

Lemma heap_fixed_stack_only {A} (m : M E A) : stack_only m -> heap_fixed m.
Proof.
  intros Hm L. eapply wp_mono; [apply Hm | |]; cbn beta;
    now intros ? L' (Hh & _).
Qed.

Lemma heap_fixed_ret {A} (a : A) : heap_fixed (E:=E) (ret a).
Proof. intros L. reflexivity. Qed.

Lemma heap_fixed_undefined {A} : heap_fixed (E:=E) (A:=A) undefined.
Proof. intros L. exact I. Qed.

Lemma heap_fixed_get : heap_fixed (E:=E) get.
Proof. intros L. reflexivity. Qed.

Lemma heap_fixed_bind {A B} (m : M E A) (k : A -> M E B) :
  heap_fixed m -> (forall a, heap_fixed (k a)) -> heap_fixed (bind m k).
Proof.
  intros Hm Hk L. apply wp_bind. eapply wp_mono; [apply Hm | | auto].
  cbn beta. intros a L' HL. eapply wp_mono; [apply Hk | |];
    cbn beta; intros; congruence.
Qed.

Lemma heap_fixed_native {A} (f : world E -> A * world E) ev :
  heap_fixed (native f ev).
Proof. intros L. apply wp_native. reflexivity. Qed.

End HeapFixed.

Create HintDb fixed discriminated.

#[export] Hint Resolve heap_fixed_ret heap_fixed_undefined heap_fixed_get
  heap_fixed_native : fixed.

#[export] Hint Extern 1 (heap_fixed (socket_check _ _)) =>
  apply heap_fixed_stack_only, stack_only_socket_check : fixed.
#[export] Hint Extern 1 (heap_fixed (get_object _)) =>
  apply heap_fixed_stack_only, stack_only_get_object : fixed.
#[export] Hint Extern 1 (heap_fixed (push_status _)) =>
  apply heap_fixed_stack_only, stack_only_push_status : fixed.
#[export] Hint Extern 1 (heap_fixed (push_error_status _)) =>
  apply heap_fixed_stack_only, stack_only_push_error_status : fixed.
#[export] Hint Extern 1 (heap_fixed (luaL_checkstring _)) =>
  apply heap_fixed_stack_only, stack_only_checkstring : fixed.
#[export] Hint Extern 1 (heap_fixed (luaL_checkinteger _)) =>
  apply heap_fixed_stack_only, stack_only_checkinteger : fixed.
#[export] Hint Extern 1 (heap_fixed (luaL_checkoption _ _ _)) =>
  apply heap_fixed_stack_only, stack_only_checkoption : fixed.
#[export] Hint Extern 1 (heap_fixed (family_check _ _)) =>
  apply heap_fixed_stack_only, stack_only_family_check : fixed.
#[export] Hint Extern 1 (heap_fixed (array_get _ _)) =>
  apply heap_fixed_stack_only, stack_only_array_get : fixed.
#[export] Hint Extern 1 (heap_fixed (lua_isnumber _)) =>
  apply heap_fixed_stack_only, stack_only_isnumber : fixed.
#[export] Hint Extern 1 (heap_fixed (lua_toboolean _)) =>
  apply heap_fixed_stack_only, stack_only_toboolean : fixed.
#[export] Hint Extern 1 (heap_fixed (lua_push _)) =>
  apply heap_fixed_stack_only, stack_only_push : fixed.

Ltac fixed_walk :=
  repeat first
    [ progress eauto with fixed
    | progress (cbv zeta;
                unfold lua_pushnil, lua_pushboolean, lua_pushinteger,
                  lua_pushstring)
    | apply heap_fixed_bind; [ | intros ? ]
    | match goal with
      | |- heap_fixed (if ?b then _ else _) => destruct b
      | |- heap_fixed (match ?x with _ => _ end) => destruct x
      end ].

(** X15. The three functions of the module that take no handle, and the
    methods bind, listen, connect, timeout_get, timeout_set, addr_get
    and __tostring, write to no socket object: whatever the arguments
    and however the call ends, the heap of objects after the call is the
    heap before it. *)
Theorem queries_leave_objects_alone (E : Env) (name : string) (f : M E nat)
  (L : lua_State E) (args : list lua_value) :
  In (name, f) (utility_functions E ++ configuration_methods E) ->
  match lua_call E f args L with
  | Ok _ L' | Raise _ L' => heap L' = heap L
  | Undefined => True
  end.
Proof.
  intros Hin.
  assert (Hf : heap_fixed f).
  { cbn in Hin.
    repeat (destruct Hin as [[= <- <-] | Hin]; [ | ]); [ .. | contradiction ];
      first [ unfold lua_apr_hostname_get | unfold lua_apr_host_to_addr
            | unfold lua_apr_addr_to_host | unfold socket_bind
            | unfold socket_listen | unfold socket_connect
            | unfold socket_timeout_get | unfold socket_timeout_set
            | unfold socket_addr_get | unfold socket_tostring ];
      fixed_walk. }
  pose proof (Hf (set_stack L args)) as Hwp. unfold wp in Hwp.
  unfold lua_call. destruct (f (set_stack L args)); auto.
Qed.

Lemma queries_leave_objects_alone_witness :
  heap (@mk_state Sim.linux64 [] [sim_socket (Some 1%nat) (Some 2%nat)]
          (Sim.mk_world 3 [] [] []) [EvToPool; EvGetHostname 0])
  = heap (sim_open []).
Proof.
  exact (queries_leave_objects_alone Sim.linux64 "hostname_get"
           (lua_apr_hostname_get Sim.linux64) (sim_open []) []
           ltac:(cbn; tauto)).
Defined.

(** ** The resolver functions *)

Section Resolvers.

Context (E : Env).

Lemma family_check_argument (L : lua_State E) i fam :
  family_argument E (index2adr L i) fam -> family_check E i L = Ok fam L.
Proof.
  intros Hf. inversion Hf as [Hv | Hv | s Hs Hv]; subst.
  - apply family_check_default. now left.
  - apply family_check_default. now right.
  - now apply family_check_supported.
Qed.

Lemma lua_apr_host_to_addr_run (L : lua_State E) host rest fam p w0 st a w :
  family_argument E (rest !! 0%nat) fam ->
  to_pool E (lworld L) = (p, w0) ->
  apr_sockaddr_info_get E host fam (SOCK_STREAM E) 0 p w0 = (st, a, w) ->
  lua_call E (lua_apr_host_to_addr E) (LString host :: rest) L
  = if st =? APR_SUCCESS then
      let '(st2, ip, w2) := apr_sockaddr_ip_get E a w in
      Ok (value_or_failure E st2 (LString ip))
        (mk_state (stack L) (heap L) w2
           (trace L ++ [EvToPool;
                        EvSockaddrInfoGet host fam (SOCK_STREAM E) 0 p st;
                        EvSockaddrIpGet a st2]))
    else
      Ok [LNil; LString (apr_strerror E st)]
        (mk_state (stack L) (heap L) w
           (trace L ++ [EvToPool;
                        EvSockaddrInfoGet host fam (SOCK_STREAM E) 0 p st])).
Proof.
  intros Hf Hp Hi.
  unfold lua_call, lua_apr_host_to_addr. unfold bind at 1. unfold native at 1.
  cbn [lworld set_stack stack heap trace]. rewrite Hp.
  unfold bind at 1. rewrite (luaL_checkstring_string E _ 1 host) by reflexivity.
  unfold bind at 1. rewrite (family_check_argument _ 2 fam) by exact Hf.
  unfold bind at 1. unfold native at 1.
  cbn [lworld set_stack stack heap trace]. rewrite Hi. cbn [fst snd].
  unfold value_or_failure.
  destruct (st =? APR_SUCCESS) eqn:Hst.
  - unfold bind at 1. unfold bind at 1. unfold native at 1.
    cbn [lworld set_stack stack heap trace].
    destruct (apr_sockaddr_ip_get E a w) as [[st2 ip] w2].
    unfold ret at 1. cbn [fst snd].
    unfold push_error_status.
    destruct (st2 =? APR_SUCCESS); cbn [negb]; exec; f_equal;
      first [ now apply top_results
            | rewrite <- app_assoc; now apply top_results
            | now rewrite <- !app_assoc ].
  - unfold bind at 1. unfold ret at 1. cbn [fst snd]. rewrite Hst. cbn [negb].
    unfold push_error_status. exec. f_equal;
      first [ rewrite <- app_assoc; now apply top_results
            | now rewrite <- !app_assoc ].
Qed.

Lemma lua_apr_addr_to_host_run (L : lua_State E) ip rest fam p w0 st a w :
  family_argument E (rest !! 0%nat) fam ->
  to_pool E (lworld L) = (p, w0) ->
  apr_sockaddr_info_get E ip fam (SOCK_STREAM E) 0 p w0 = (st, a, w) ->
  lua_call E (lua_apr_addr_to_host E) (LString ip :: rest) L
  = if st =? APR_SUCCESS then
      let '(st2, host, w2) := apr_getnameinfo E a 0 w in
      Ok (value_or_failure E st2
            (if host is Some name then LString name else LNil))
        (mk_state (stack L) (heap L) w2
           (trace L ++ [EvToPool;
                        EvSockaddrInfoGet ip fam (SOCK_STREAM E) 0 p st;
                        EvGetNameInfo a st2]))
    else
      Ok [LNil; LString (apr_strerror E st)]
        (mk_state (stack L) (heap L) w
           (trace L ++ [EvToPool;
                        EvSockaddrInfoGet ip fam (SOCK_STREAM E) 0 p st])).
Proof.
  intros Hf Hp Hi.
  unfold lua_call, lua_apr_addr_to_host. unfold bind at 1. unfold native at 1.
  cbn [lworld set_stack stack heap trace]. rewrite Hp.
  unfold bind at 1. rewrite (luaL_checkstring_string E _ 1 ip) by reflexivity.
  unfold bind at 1. rewrite (family_check_argument _ 2 fam) by exact Hf.
  unfold bind at 1. unfold native at 1.
  cbn [lworld set_stack stack heap trace]. rewrite Hi. cbn [fst snd].
  unfold value_or_failure.
  destruct (st =? APR_SUCCESS) eqn:Hst.
  - unfold bind at 1. unfold bind at 1. unfold native at 1.
    cbn [lworld set_stack stack heap trace].
    destruct (apr_getnameinfo E a 0 w) as [[st2 host] w2].
    unfold ret at 1. cbn [fst snd].
    unfold push_error_status.
    destruct (st2 =? APR_SUCCESS); cbn [negb]; [destruct host|]; exec; f_equal;
      first [ now apply top_results
            | rewrite <- app_assoc; now apply top_results
            | now rewrite <- !app_assoc ].
  - unfold bind at 1. unfold ret at 1. cbn [fst snd]. rewrite Hst. cbn [negb].
    unfold push_error_status. exec. f_equal;
      first [ rewrite <- app_assoc; now apply top_results
            | now rewrite <- !app_assoc ].
Qed.

End Resolvers.

(** X16. [apr.host_to_addr] takes the global pool, resolves the host in
    the family of its optional second argument, and formats the address
    only when the lookup succeeded.  The lookup is made with the
    constant SOCK_STREAM in the place of the port and with no flags.  A
    failure of either native call is returned as nil and its message,
    and after a failed lookup nothing is formatted. *)
Theorem host_to_addr_resolves_then_formats (E : Env) (L : lua_State E)
  (host : string) (rest : list lua_value) (fam : Z) (p : option apr_pool_t)
  (w0 w : world E) (st : apr_status_t) (a : option apr_sockaddr_t) :
  family_argument E (rest !! 0%nat) fam ->
  to_pool E (lworld L) = (p, w0) ->
  apr_sockaddr_info_get E host fam (SOCK_STREAM E) 0 p w0 = (st, a, w) ->
  lua_call E (lua_apr_host_to_addr E) (LString host :: rest) L
  = if st =? APR_SUCCESS then
      let '(st2, ip, w2) := apr_sockaddr_ip_get E a w in
      Ok (value_or_failure E st2 (LString ip))
        (mk_state (stack L) (heap L) w2
           (trace L ++ [EvToPool;
                        EvSockaddrInfoGet host fam (SOCK_STREAM E) 0 p st;
                        EvSockaddrIpGet a st2]))
    else
      Ok [LNil; LString (apr_strerror E st)]
        (mk_state (stack L) (heap L) w
           (trace L ++ [EvToPool;
                        EvSockaddrInfoGet host fam (SOCK_STREAM E) 0 p st])).
Proof. apply lua_apr_host_to_addr_run. Qed.

Lemma host_to_addr_resolves_then_formats_witness :
  lua_call Sim.linux64 (lua_apr_host_to_addr Sim.linux64)
    [LString "localhost"] (sim_open [7])
  = Ok [LNil; LString "APR status 7"]
      (@mk_state Sim.linux64 [] [sim_socket (Some 1%nat) (Some 2%nat)]
         (Sim.mk_world 3 [] [] [])
         [EvToPool; EvSockaddrInfoGet "localhost" 2 1 0 (Some 0%nat) 7]).
Proof.
  apply (host_to_addr_resolves_then_formats Sim.linux64 (sim_open [7])
           "localhost" [] 2 (Some 0%nat) (Sim.mk_world 3 [7] [] [])
           (Sim.mk_world 3 [] [] []) 7 None);
    [apply (family_absent Sim.linux64) | reflexivity | reflexivity].
Defined.

(** X17. [apr.addr_to_host] does the same lookup and then asks for the
    name of the address, with no flags, only when the lookup succeeded.
    It returns the name, nil when the native call left none, or nil and
    the message of the status that failed. *)
Theorem addr_to_host_resolves_then_names (E : Env) (L : lua_State E)
  (ip : string) (rest : list lua_value) (fam : Z) (p : option apr_pool_t)
  (w0 w : world E) (st : apr_status_t) (a : option apr_sockaddr_t) :
  family_argument E (rest !! 0%nat) fam ->
  to_pool E (lworld L) = (p, w0) ->
  apr_sockaddr_info_get E ip fam (SOCK_STREAM E) 0 p w0 = (st, a, w) ->
  lua_call E (lua_apr_addr_to_host E) (LString ip :: rest) L
  = if st =? APR_SUCCESS then
      let '(st2, host, w2) := apr_getnameinfo E a 0 w in
      Ok (value_or_failure E st2
            (if host is Some name then LString name else LNil))
        (mk_state (stack L) (heap L) w2
           (trace L ++ [EvToPool;
                        EvSockaddrInfoGet ip fam (SOCK_STREAM E) 0 p st;
                        EvGetNameInfo a st2]))
    else
      Ok [LNil; LString (apr_strerror E st)]
        (mk_state (stack L) (heap L) w
           (trace L ++ [EvToPool;
                        EvSockaddrInfoGet ip fam (SOCK_STREAM E) 0 p st])).
Proof. apply lua_apr_addr_to_host_run. Qed.

Lemma addr_to_host_resolves_then_names_witness :
  lua_call Sim.linux64 (lua_apr_addr_to_host Sim.linux64)
    [LString "127.0.0.1"; LString "unspec"] (sim_open [])
  = Ok [LString "localhost"]
      (@mk_state Sim.linux64 [] [sim_socket (Some 1%nat) (Some 2%nat)]
         (Sim.mk_world 4 [] [] [])
         [EvToPool; EvSockaddrInfoGet "127.0.0.1" 0 1 0 (Some 0%nat) 0;
          EvGetNameInfo (Some 3%nat) 0]).
Proof.
  apply (addr_to_host_resolves_then_names Sim.linux64 (sim_open [])
           "127.0.0.1" [LString "unspec"] 0 (Some 0%nat)
           (Sim.mk_world 3 [] [] []) (Sim.mk_world 4 [] [] []) 0
           (Some 3%nat));
    [ apply (family_token Sim.linux64 "unspec"); right; left; reflexivity
    | reflexivity | reflexivity ].
Defined.

(** X19. [timeout_get] shows the native timeout in three ways: true for
    every negative timeout, not only for -1, false for zero, and a
    number for a positive timeout.  The number is the timeout converted
    to a Lua number, a double: the timeout itself up to 2^53, the
    double nearest to it beyond (for a timeout that fits [lua_Integer]).
    A failure of the native call is returned as nil and its message, and
    the object is not written to. *)
Theorem timeout_get_shows_three_ways (E : Env) (L : lua_State E) (r : nat)
  (o : lua_apr_socket E) (h : apr_socket_t) (rest : list lua_value)
  (st : apr_status_t) (t : Z) (w : world E) :
  heap L !! r = Some o ->
  handle o = Some h ->
  apr_socket_timeout_get E (Some h) (lworld L) = (st, t, w) ->
  fits_signed (bits (LUA_INTEGER E)) t = true ->
  lua_call E (socket_timeout_get E) (LSocket r :: rest) L
  = Ok (value_or_failure E st (timeout_shown t))
      (mk_state (stack L) (heap L) w (trace L ++ [EvTimeoutGet (Some h) st t]))
  /\ (t < 0 -> timeout_shown t = LBoolean true)
  /\ (t = 0 -> timeout_shown t = LBoolean false)
  /\ (0 < t -> timeout_shown t = LNumber (inject_Z (double_of_Z t)))
  /\ (0 < t <= 2 ^ 53 -> timeout_shown t = LNumber (inject_Z t)).
Proof.
  intros Hr Hh Hget Hfit. split; [|repeat split].
  - rewrite (socket_timeout_get_run E L r o h rest st t w) by assumption.
    f_equal. unfold value_or_failure, timeout_shown, to_lua_Integer.
    rewrite wrap_signed_fits by (auto using bits_pos).
    destruct (st =? APR_SUCCESS); [|reflexivity].
    destruct (Z.leb_spec t 0), (Z.ltb_spec t 0), (Z.eqb_spec t 0);
      try lia; reflexivity.
  - intros Hneg. unfold timeout_shown.
    destruct (Z.ltb_spec t 0); [reflexivity | lia].
  - intros ->. reflexivity.
  - intros Hpos. unfold timeout_shown.
    destruct (Z.ltb_spec t 0), (Z.eqb_spec t 0); try lia; reflexivity.
  - intros [Hpos Hle]. unfold timeout_shown.
    destruct (Z.ltb_spec t 0), (Z.eqb_spec t 0); try lia.
    rewrite double_of_Z_small by lia. reflexivity.
Qed.

Lemma timeout_get_shows_three_ways_witness :
  lua_call Sim.linux64 (socket_timeout_get Sim.linux64) [LSocket 0]
    (@mk_state Sim.linux64 [] [sim_socket (Some 1%nat) (Some 2%nat)]
       (Sim.mk_world 3 [] [(2%nat, 2 ^ 53 + 1)] []) [])
  = Ok [LNumber (inject_Z (2 ^ 53))]
      (@mk_state Sim.linux64 [] [sim_socket (Some 1%nat) (Some 2%nat)]
         (Sim.mk_world 3 [] [(2%nat, 2 ^ 53 + 1)] [])
         [EvTimeoutGet (Some 2%nat) 0 (2 ^ 53 + 1)]).
Proof.
  apply (proj1 (timeout_get_shows_three_ways Sim.linux64
           (@mk_state Sim.linux64 [] [sim_socket (Some 1%nat) (Some 2%nat)]
              (Sim.mk_world 3 [] [(2%nat, 2 ^ 53 + 1)] []) [])
           0%nat (sim_socket (Some 1%nat) (Some 2%nat)) 2%nat [] 0
           (2 ^ 53 + 1) (Sim.mk_world 3 [] [(2%nat, 2 ^ 53 + 1)] [])
           eq_refl eq_refl eq_refl eq_refl)).
Defined.

(** X20. [apr.socket_create] with its two tokens given and valid is the
    pool, then the socket when there is a pool, then the buffers when
    there is a socket, each asked of the native layer once.  The socket
    type is derived from the protocol, a stream for tcp and a datagram
    socket for udp, and the new object records the family and protocol
    constants also when the call fails. *)
Theorem create_allocates_in_order (E : Env) (L : lua_State E)
  (p s : string) :
  p = "tcp" \/ p = "udp" ->
  supported_family E s ->
  lua_call E (lua_apr_socket_create E) [LString p; LString s] L
  = create_outcome E L (family_constant E s) (protocol_constant E p).
Proof. apply socket_create_tokens. Qed.

Lemma create_allocates_in_order_witness :
  lua_call Sim.linux64 (lua_apr_socket_create Sim.linux64)
    [LString "udp"; LString "inet6"] (Sim.start Sim.linux64 Sim.world0)
  = Ok [LSocket 0]
      (@mk_state Sim.linux64 []
         [@mk_socket Sim.linux64 (Some tt) (Some []) (Some 1%nat) (Some 2%nat)
            10 17]
         (Sim.mk_world 3 [] [] [])
         [EvPoolCreate 0 (Some 1%nat);
          EvSocketCreate 10 2 17 (Some 1%nat) 0 (Some 2%nat);
          EvInitBuffers (Some 2%nat)]).
Proof.
  apply (create_allocates_in_order Sim.linux64
           (Sim.start Sim.linux64 Sim.world0) "udp" "inet6");
    [right; reflexivity | right; right; split; reflexivity].
Defined.

(** X21. The protocol token is checked first, and it is read as a C
    string: a first argument of [apr.socket_create] that is neither
    "tcp" nor "udp" up to its first NUL raises the parameter error of an
    invalid option for argument 1, whatever the other arguments are, and
    nothing is allocated.  The message quotes the C string. *)
Theorem create_rejects_other_protocols (E : Env) (L : lua_State E)
  (p : string) (rest : list lua_value) :
  c_str p <> "tcp" -> c_str p <> "udp" ->
  lua_call E (lua_apr_socket_create E) (LString p :: rest) L
  = Raise (invalid_option 1 (c_str p)) L.
Proof.
  intros Ht Hu.
  unfold lua_call, lua_apr_socket_create. unfold bind at 1.
  rewrite (luaL_checkoption_string E _ 1 p) by reflexivity.
  unfold proto_options. cbn [find_option]. strcmp_literals.
  assert (H1 : String.eqb "tcp" (c_str p) = false)
    by (apply String.eqb_neq; congruence).
  assert (H2 : String.eqb "udp" (c_str p) = false)
    by (apply String.eqb_neq; congruence).
  rewrite H1, H2. now rewrite set_stack_restore.
Qed.

Lemma create_rejects_other_protocols_witness :
  lua_call Sim.linux64 (lua_apr_socket_create Sim.linux64)
    [LString ("sctp" ++ String NUL "tcp"); LString "bogus"]
    (Sim.start Sim.linux64 Sim.world0)
  = Raise (ErrArg 1 "invalid option 'sctp'") (Sim.start Sim.linux64 Sim.world0).
Proof.
  apply (create_rejects_other_protocols Sim.linux64
           (Sim.start Sim.linux64 Sim.world0)
           ("sctp" ++ String NUL "tcp")%string [LString "bogus"]);
    discriminate.
Defined.
